(** * mypack: a shallow embedding of script/tools/mypack.ts

    The bundler takes the in-memory list of compiled files, builds the module
    graph from the entry by scanning for [require] calls of relative paths,
    rewrites them to [myimport] calls, checks for circular references, emits
    one bundle text (with an optional merged source map) and remembers the
    bundle hash for the next run.

    JavaScript strings are modelled as lists of characters, nullable fields as
    [option], numbers that index strings as [nat], line and column numbers as
    [Z].  The functions of Node's [path] module, of the [source-map],
    [crypto-js] and [terser] packages are outside the repository: [path] is
    modelled on its POSIX implementation, the others are section variables. *)

From Stdlib Require Import Ascii String ZArith Lia Bool Arith PeanoNat List.
Import ListNotations.

Local Open Scope list_scope.

(** ** Strings *)

Definition str : Type := list ascii.

Definition lit (s : string) : str := list_ascii_of_string s.
Arguments lit s%_string.

Definition dquote : ascii := ascii_of_nat 34.
Definition newline : ascii := ascii_of_nat 10.
Definition slash : ascii := ascii_of_nat 47.
Definition dot : ascii := ascii_of_nat 46.

Fixpoint str_eqb (a b : str) : bool :=
  match a, b with
  | [], [] => true
  | x :: a', y :: b' => Ascii.eqb x y && str_eqb a' b'
  | _, _ => false
  end.

(** [s.slice(a, b)] for non-negative [a] and [b] (out-of-range indices are
    clamped and [a >= b] gives the empty string, as in JavaScript). *)
Definition slice (s : str) (a b : nat) : str := firstn (b - a) (skipn a s).

(** [s.slice(a)]. *)
Definition sliceFrom (s : str) (a : nat) : str := skipn a s.

(** [s.slice(0, -k)]. *)
Definition sliceDropEnd (s : str) (k : nat) : str := firstn (length s - k) s.

(** [s.endsWith(suffix)]. *)
Definition endsWith (s suffix : str) : bool :=
  (length suffix <=? length s) && str_eqb (skipn (length s - length suffix) s) suffix.

(** [s.startsWith(prefix)], returning what follows the prefix. *)
Fixpoint stripPrefix (prefix s : str) : option str :=
  match prefix, s with
  | [], _ => Some s
  | p :: prefix', c :: s' => if Ascii.eqb p c then stripPrefix prefix' s' else None
  | _ :: _, [] => None
  end.

Fixpoint takeWhile (f : ascii -> bool) (s : str) : str :=
  match s with
  | c :: s' => if f c then c :: takeWhile f s' else []
  | [] => []
  end.

Fixpoint dropWhile (f : ascii -> bool) (s : str) : str :=
  match s with
  | c :: s' => if f c then dropWhile f s' else s
  | [] => []
  end.

(** [s.split(separator)] for a one-character separator. *)
Fixpoint splitOn (separator : ascii) (s : str) : list str :=
  match s with
  | [] => [[]]
  | c :: s' =>
      if Ascii.eqb c separator then [] :: splitOn separator s'
      else match splitOn separator s' with
           | x :: xs => (c :: x) :: xs
           | [] => [[c]]
           end
  end.

(** ** Node's [path] module (POSIX flavour) *)

Module Path.

(** [s.split('/')]. *)
Definition split (s : str) : list str := splitOn slash s.

(** [components.join('/')]. *)
Fixpoint join (components : list str) : str :=
  match components with
  | [] => []
  | [x] => x
  | x :: rest => x ++ slash :: join rest
  end.

(** One segment of [normalizeString] for an absolute path: empty and [.]
    segments are skipped, [..] drops the last kept segment (and is dropped
    itself at the root). *)
Definition normalizeStep (kept : list str) (segment : str) : list str :=
  if str_eqb segment [] || str_eqb segment (lit ".") then kept
  else if str_eqb segment (lit "..") then removelast kept
  else kept ++ [segment].

Definition normalize (s : str) : list str := fold_left normalizeStep (split s) [].

Section WithCwd.

(** [process.cwd()], an absolute path. *)
Variable cwd : str.

(** The right-to-left loop of [path.resolve]: arguments are prepended until
    one of them is absolute; empty arguments are skipped; the working
    directory comes last. *)
Fixpoint resolveLoop (reversedArgs : list str) (resolvedPath : str) : str :=
  match reversedArgs with
  | [] => cwd ++ slash :: resolvedPath
  | p :: rest =>
      match p with
      | [] => resolveLoop rest resolvedPath
      | c :: _ =>
          if Ascii.eqb c slash then p ++ slash :: resolvedPath
          else resolveLoop rest (p ++ slash :: resolvedPath)
      end
  end.

(** The segments of [path.resolve(...args)]. *)
Definition resolveSegments (args : list str) : list str :=
  normalize (resolveLoop (rev args) []).

(** [path.resolve(...args)]. *)
Definition resolve (args : list str) : str := slash :: join (resolveSegments args).

Fixpoint dropCommon (a b : list str) : list str * list str :=
  match a, b with
  | x :: a', y :: b' => if str_eqb x y then dropCommon a' b' else (a, b)
  | _, _ => (a, b)
  end.

(** [path.relative(from, to)]: both are resolved, their common leading
    segments are dropped, every remaining segment of [from] becomes [..]. *)
Definition relative (from to : str) : str :=
  if str_eqb from to then []
  else
    let '(up, down) := dropCommon (resolveSegments [from]) (resolveSegments [to]) in
    join (map (fun _ => lit "..") up ++ down).

End WithCwd.

(** [path.dirname(p)]: trailing slashes are ignored, the result is what
    precedes the last other slash found at an index of at least 1. *)
Definition dirname (p : str) : str :=
  match p with
  | [] => lit "."
  | c :: rest =>
      let hasRoot := Ascii.eqb c slash in
      let isSlash := fun x => Ascii.eqb x slash in
      let upToEnd := dropWhile (fun x => negb (isSlash x)) (dropWhile isSlash (rev rest)) in
      match length upToEnd with
      | 0 => if hasRoot then lit "/" else lit "."
      | 1 => if hasRoot then lit "//" else firstn 1 p
      | n => firstn n p
      end
  end.

End Path.

(** ** Data model *)

Record File : Type := mkFile {
  file_name : str;
  file_content : str;
}.

Record Source : Type := mkSource {
  filename : str;
  jsContent : option str;
  mapContent : option str;   (* can be missing even if source map is on *)
}.

Record ModuleRequest : Type := mkRequest {
  index : nat;               (* index in source content *)
  raw : str;                 (* require parameter value *)
  resolvedFileName : str;
  resolvedModuleName : str;
}.

Record Module_ : Type := mkModule {
  name : str;                (* relative path to entry, omit .js and index *)
  source : Source;
  requests : list ModuleRequest;
  content : option str;      (* content after updating require to myimport *)
  hash : str;
}.

(** Outcome of a piece of code: a value, a thrown error, or the model's loop
    budget used up (shown not to happen for the budgets the model uses). *)
(** Thrown values: the [Error] whose message is [circular reference], and
    errors raised by the runtime or by libraries. *)
Inductive exn : Type := CircularReference | TypeError | SyntaxError | MinifyError.

Inductive result (A : Type) : Type :=
| Ret (a : A)
| Raise (e : exn)
| Exhausted.
Arguments Ret {A} a.
Arguments Raise {A} e.
Arguments Exhausted {A}.

(** ** The load-call pattern

    The regular expression of line 82 reads: the word require, an opening
    parenthesis, a double quote, the captured group [request] (a dot followed
    by any number of dots, word characters, dashes and slashes), a double
    quote, a closing parenthesis and a semicolon; the flag is [g]. *)

Definition isWordChar (c : ascii) : bool :=
  let n := nat_of_ascii c in
  ((48 <=? n) && (n <=? 57)) || ((65 <=? n) && (n <=? 90))
  || ((97 <=? n) && (n <=? 122)) || (n =? 95).

Definition isRequestChar (c : ascii) : bool :=
  Ascii.eqb c dot || isWordChar c || Ascii.eqb c (ascii_of_nat 45) || Ascii.eqb c slash.

Definition requireOpen : str := lit "require(" ++ [dquote].
Definition requireClose : str := dquote :: lit ");".

(** The text a match of the pattern covers, for a captured [request]. *)
Definition loadCall (request : str) : str := requireOpen ++ request ++ requireClose.

(** The text that replaces it. *)
Definition importCall (moduleName : str) : str :=
  lit "myimport(" ++ [dquote] ++ moduleName ++ requireClose.

(** The pattern matched at the head of [s], giving the captured group.  The
    closing quote is not in the class of the starred set, so the greedy run
    is the only candidate. *)
Definition matchHere (s : str) : option str :=
  match stripPrefix requireOpen s with
  | Some (c :: rest) =>
      if Ascii.eqb c dot then
        match stripPrefix requireClose (dropWhile isRequestChar rest) with
        | Some _ => Some (c :: takeWhile isRequestChar rest)
        | None => None
        end
      else None
  | _ => None
  end.

(** Leftmost match in [s], where [s] starts at [position] of the content. *)
Fixpoint execFrom (s : str) (position : nat) : option (nat * str) :=
  match matchHere s with
  | Some request => Some (position, request)
  | None =>
      match s with
      | [] => None
      | _ :: s' => execFrom s' (S position)
      end
  end.

(** [pattern.exec(content)] with [pattern.lastIndex = lastIndex]: the index
    of the match and its captured group. *)
Definition exec (content : str) (lastIndex : nat) : option (nat * str) :=
  if length content <? lastIndex then None
  else execFrom (skipn lastIndex content) lastIndex.

(** ** MyPacker *)

Inductive PackType : Type := lib | app.

Record MyPackOptions : Type := mkOptions {
  type : PackType;
  entry : str;
  sourceMap : bool;
  output : str;
  printModules : bool;
  minify : bool;
  shebang : bool;
  cleanupFiles : option bool;   (* [None]: the key is absent *)
}.

Record MyPackResult : Type := mkResult {
  success : bool;
  hasChange : option bool;
}.

Record Mapping : Type := mkMapping {
  mappingSource : str;
  originalLine : Z;
  originalColumn : Z;
  generatedLine : Z;
  generatedColumn : Z;
}.

Record EmitHost : Type := mkHost {
  sb : str;                          (* string builder *)
  generator : option (list Mapping); (* mappings added to the generator *)
  lineOffset : Z;
}.

Record PackerState : Type := mkState {
  lastHash : option str;
  lastModules : option (list Module_);
  files : list File;                 (* [options.files], owned by the caller *)
}.

(** What [fs.promises.writeFile] was called with, in order. *)
Definition Writes : Type := list (str * str).

(** Inputs used to run the model. *)
Module Examples.

Definition options (entryName : string) (withSourceMap : bool) : MyPackOptions :=
  mkOptions app (lit entryName) withSourceMap (lit "/out.js") false false false None.

Definition requireOf (path : string) : str := loadCall (lit path).

(** The entry [/e.js] requires [./a.js]. *)
Definition scenarioFiles : list File :=
  [ mkFile (lit "/e.js") (lit "var x = " ++ requireOf "./a.js" ++ lit " x();");
    mkFile (lit "/a.js") (lit "module.exports = () => 1;") ].

(** The entry requires the directory [./lib], which has an [index.js]. *)
Definition libFiles : list File :=
  [ mkFile (lit "/e.js") (requireOf "./lib"); mkFile (lit "/lib/index.js") [] ].

(** The entry requires a file that is not there. *)
Definition missingFiles : list File :=
  [ mkFile (lit "/e.js") (requireOf "./missing.js") ].

(** Two files that require each other. *)
Definition cycleFiles : list File :=
  [ mkFile (lit "/a.js") (requireOf "./b"); mkFile (lit "/b.js") (requireOf "./a") ].

(** The entry requires [./a] twice, as two import statements of one file
    compile to. *)
Definition twiceFiles : list File :=
  [ mkFile (lit "/e.js") (requireOf "./a" ++ requireOf "./a"); mkFile (lit "/a.js") [] ].

(** The entry requires [./re] and [./reindex]; the latter requires the entry
    back. *)
Definition collisionFiles : list File :=
  [ mkFile (lit "/e.js") (requireOf "./re" ++ requireOf "./reindex");
    mkFile (lit "/re.js") [];
    mkFile (lit "/reindex.js") (requireOf "./e") ].

(** The entry lies below a directory that has the name of a file, and the two
    files require each other. *)
Definition nestedFiles : list File :=
  [ mkFile (lit "/a.js/b/e.js") (requireOf "../../a.js");
    mkFile (lit "/a.js") (requireOf "./a.js/b/e") ].

(** An entry without a companion map. *)
Definition noMapFiles : list File := [ mkFile (lit "/e.js") [] ].

(** An entry with a companion map and a file nothing requires. *)
Definition mappedFiles : list File :=
  [ mkFile (lit "/e.js") (lit "var x = 1;"); mkFile (lit "/e.js.map") (lit "{}");
    mkFile (lit "/unused.js") [] ].

Definition start (inputFiles : list File) : PackerState := mkState None None inputFiles.

(** Stand-ins for the libraries, to evaluate the model. *)
Definition workingDirectory : str := lit "/work".
Definition digest (s : str) : str := lit "#" ++ s.
Definition oneMapping : Mapping := mkMapping (lit "e.ts") 1 0 1 0.
Definition consume (mapText : str) : option (list Mapping) := Some [oneMapping].
Definition serialize (file : str) (mappings : list Mapping) : str := file.
Definition minifier (code : str) (sourceMapOption : option (option str * str * str))
    (maxLineLen : option nat) : option (str * option str) :=
  Some (code, match sourceMapOption with Some (m, _, _) => m | None => None end).

Definition mappedModule : Module_ :=
  mkModule (lit "e") (mkSource (lit "/e.js") (Some (lit "var x = 1;")) (Some (lit "{}")))
    [] (Some (lit "var x = 1;")) (digest (lit "var x = 1;")).

End Examples.

Section MyPacker.

Variable cwd : str.
Variable sha256 : str -> str.

Section ProcessModule.

Variable options : MyPackOptions.
Variable sources : list Source.

Definition hasSource (f : str) : bool :=
  existsb (fun s => str_eqb (filename s) f) sources.

Definition findSource (f : str) : option Source :=
  find (fun s => str_eqb (filename s) f) sources.

(** The three candidates tried for a request, in order. *)
Definition requiredFileName (fullRequest : str) : option str :=
  if hasSource fullRequest then Some fullRequest
  else if hasSource (fullRequest ++ lit ".js") then Some (fullRequest ++ lit ".js")
  else if hasSource (fullRequest ++ lit "/index.js") then Some (fullRequest ++ lit "/index.js")
  else None.

Definition entryDirectory : str := Path.dirname (entry options).

Definition stripIndex (moduleName : str) : str :=
  let moduleName :=
    if endsWith moduleName (lit "index") then sliceDropEnd moduleName 5 else moduleName in
  if length moduleName =? 0 then lit "." else moduleName.

(** Lines 75-78: the name of the module built from a source. *)
Definition moduleNameOf (sourceFilename : str) : str :=
  let moduleName := Path.relative cwd entryDirectory sourceFilename in
  let moduleName :=
    if endsWith moduleName (lit ".js") then sliceDropEnd moduleName 3 else moduleName in
  stripIndex moduleName.

(** Lines 100-103: the name under which a resolved file is imported. *)
Definition requiredModuleNameOf (requiredFile : str) : str :=
  stripIndex (sliceDropEnd (Path.relative cwd entryDirectory requiredFile) 3).

(** The [do ... while (true)] loop of lines 83-106; [lastIndex] is the state
    of the pattern object, [found] the requests pushed so far. [Ret None]
    is the early [return null]. *)
Fixpoint findRequests (budget : nat) (sourceFilename jsText : str)
    (lastIndex : nat) (found : list ModuleRequest)
  : result (option (list ModuleRequest)) :=
  match budget with
  | 0 => Exhausted
  | S budget' =>
      match exec jsText lastIndex with
      | None => Ret (Some found)
      | Some (matchIndex, request) =>
          let fullRequest := Path.resolve cwd [Path.dirname sourceFilename; request] in
          match requiredFileName fullRequest with
          | None => Ret None
          | Some requiredFile =>
              findRequests budget' sourceFilename jsText
                (matchIndex + length request + 12)
                (found ++ [mkRequest matchIndex request requiredFile
                             (requiredModuleNameOf requiredFile)])
          end
      end
  end.

(** The loop of lines 108-115. *)
Fixpoint rewriteRequests (jsText : str) (reqs : list ModuleRequest)
    (previousEndIndex : nat) (moduleContent : str) : str :=
  match reqs with
  | [] => moduleContent ++ sliceFrom jsText previousEndIndex
  | r :: rest =>
      rewriteRequests jsText rest (index r + length (raw r) + 12)
        (moduleContent ++ slice jsText previousEndIndex (index r)
           ++ importCall (resolvedModuleName r))
  end.

Definition processModule (src : Source) : result (option Module_) :=
  match jsContent src with
  | None => Raise TypeError     (* [source.jsContent.slice] on null *)
  | Some jsText =>
      match findRequests (S (length jsText)) (filename src) jsText 0 [] with
      | Ret (Some reqs) =>
          let moduleContent := rewriteRequests jsText reqs 0 [] in
          Ret (Some (mkModule (moduleNameOf (filename src)) src reqs
                       (Some moduleContent) (sha256 moduleContent)))
      | Ret None => Ret None
      | Raise e => Raise e
      | Exhausted => Exhausted
      end
  end.

End ProcessModule.


(** *** The module graph (lines 231-239) *)

Section Graph.

Variable options : MyPackOptions.
Variable sources : list Source.

Definition includes (l : list str) (f : str) : bool := existsb (str_eqb f) l.

(** The file names a processed module adds to the list: computed from the
    list as it is before the push. *)
Definition newFileNames (requiredFileNames : list str) (m : Module_) : list str :=
  filter (fun f => negb (includes requiredFileNames f)) (map resolvedFileName (requests m)).

(** The [for] loop over [requiredFileNames], which grows while it is read. *)
Fixpoint buildLoop (budget : nat) (requiredFileNames : list str) (moduleIndex : nat)
    (modules : list Module_) : result (option (list Module_)) :=
  match nth_error requiredFileNames moduleIndex with
  | None => Ret (Some modules)
  | Some f =>
      match budget with
      | 0 => Exhausted
      | S budget' =>
          match findSource sources f with
          | None => Raise TypeError     (* [processModule(undefined)] *)
          | Some src =>
              match processModule options sources src with
              | Ret (Some m) =>
                  buildLoop budget' (requiredFileNames ++ newFileNames requiredFileNames m)
                    (S moduleIndex) (modules ++ [m])
              | Ret None => Ret None
              | Raise e => Raise e
              | Exhausted => Exhausted
              end
          end
      end
  end.

Definition jsLength (s : Source) : nat :=
  match jsContent s with Some t => length t | None => 0 end.

(** Iterations granted to the loop: more than it can use. *)
Definition buildBudget : nat :=
  S (length sources * S (S (list_max (map jsLength sources)))).

Definition buildModules : result (option (list Module_)) :=
  buildLoop buildBudget [entry options] 0 [].

End Graph.

(** *** Circular references (lines 121-147) *)

Definition sameName (a b : Module_) : bool := str_eqb (name a) (name b).

(** [modules.find(m => m.name == moduleName)]. *)
Definition requested (modules : list Module_) (moduleName : str) : option Module_ :=
  find (fun x => str_eqb (name x) moduleName) modules.

(** [loadings.some(o => o.name == requestedModule.name)]. *)
Definition onStack (loadings : list Module_) (requestedModule : Module_) : bool :=
  existsb (fun o => sameName o requestedModule) loadings.

(** The [for] loop of [load] over the requests of a module; [loadModule] is
    the recursive call. [loadings] is the stack, its top first. *)
Fixpoint eachRequest (loadModule : Module_ -> list Module_ -> result (list Module_))
    (modules : list Module_) (reqs : list ModuleRequest) (loadings : list Module_)
  : result (list Module_) :=
  match reqs with
  | [] => Ret (tl loadings)                                   (* pop *)
  | request :: rest =>
      match requested modules (resolvedModuleName request) with
      | None => Raise TypeError     (* [requestedModule.name] of undefined *)
      | Some requestedModule =>
          if onStack loadings requestedModule
          then Raise CircularReference
          else match loadModule requestedModule loadings with
               | Ret loadings' => eachRequest loadModule modules rest loadings'
               | other => other
               end
      end
  end.

(** [load]: the result is the stack after the call. *)
Fixpoint load (budget : nat) (modules : list Module_) (m : Module_)
    (loadings : list Module_) : result (list Module_) :=
  match budget with
  | 0 => Exhausted
  | S budget' =>
      eachRequest (load budget' modules) modules (requests m) (m :: loadings)   (* push *)
  end.

Definition checkCircularReference (modules : list Module_) : result bool :=
  match modules with
  | [] => Raise TypeError                  (* [modules[0]] is undefined *)
  | entryModule :: _ =>
      match load (length modules) modules entryModule [] with
      | Ret _ => Ret false
      | Raise CircularReference => Ret true
      | Raise e => Raise e
      | Exhausted => Exhausted
      end
  end.

(** *** Emission (lines 149-186) *)

(** [new SourceMapConsumer(JSON.parse(text))] followed by [eachMapping]: the
    mappings in the order they are visited, [None] when either call throws. *)
Variable consumeMap : str -> option (list Mapping).

(** [generator.toString()] for a generator created for [file]. *)
Variable serializeMap : str -> list Mapping -> str.

(** [minify(code, { sourceMap, format: { max_line_len } })] of terser: the
    code and the map as text, [None] when it throws. The source map option
    is the map text, the file name and the url. *)
Variable terser : str -> option (option str * str * str) -> option nat -> option (str * option str).

(** ['MAKA_SELF_MULTILINE' in process.env]. *)
Variable MAKA_SELF_MULTILINE : bool.

Definition loaderText : str :=
  lit "(function myrequire(modulename) { if (!(modulename in mycache)) { mycache[modulename] = {}; modules[modulename](mycache[modulename], myrequire); } return mycache[modulename]; })('".

Definition emitRuntimePrefix (options : MyPackOptions) (host : EmitHost)
    (entryModuleName : str) : EmitHost :=
  let host :=
    if shebang options
    then mkHost (sb host ++ lit "#!/usr/bin/env node" ++ [newline]) (generator host)
           (lineOffset host + 1)
    else host in
  let preamble :=
    match type options with
    | app => lit "((modules) => { const mycache = {};" ++ [newline]
             ++ loaderText ++ entryModuleName ++ lit "'); })({" ++ [newline]
    | lib => lit "module.exports = ((modules) => { const mycache = {};" ++ [newline]
             ++ lit "return " ++ loaderText ++ entryModuleName ++ lit "'); })({" ++ [newline]
    end in
  mkHost (sb host ++ preamble) (generator host) (lineOffset host + 2).

(** A nullable string inside a template literal. *)
Definition render (s : option str) : str :=
  match s with Some t => t | None => lit "null" end.

(** The callback given to [eachMapping]: state is [firstMappingLine] and the
    mappings of the generator. *)
Definition addShifted (offset : Z) (state : option Z * list Mapping) (mapping : Mapping)
  : option Z * list Mapping :=
  let firstMappingLine :=
    match fst state with
    | None => generatedLine mapping
    | Some line => line
    end in
  (Some firstMappingLine,
   snd state ++
     [mkMapping (Path.resolve cwd [mappingSource mapping])
        (originalLine mapping) (originalColumn mapping)
        (generatedLine mapping - firstMappingLine + offset + 1)
        (generatedColumn mapping)]).

Definition emitModule (host : EmitHost) (m : Module_) : result EmitHost :=
  let text := lit "'" ++ name m ++ lit "': (exports, myimport) => {" ++ [newline]
              ++ render (content m) ++ lit "}, " in
  let host := mkHost (sb host ++ text) (generator host) (lineOffset host + 1) in
  match generator host with
  | None => Ret host
  | Some added =>
      match mapContent (source m) with
      | None => Raise SyntaxError           (* [JSON.parse(undefined)] *)
      | Some mapText =>
          match consumeMap mapText with
          | None => Raise SyntaxError
          | Some mappings =>
              let added := snd (fold_left (addShifted (lineOffset host)) mappings (None, added)) in
              match content m with
              | None => Raise TypeError     (* [$module.content.split] on null *)
              | Some moduleContent =>
                  Ret (mkHost (sb host) (Some added)
                         (lineOffset host
                          + (Z.of_nat (length (splitOn newline moduleContent)) - 1)))
              end
          end
      end
  end.

Fixpoint emitModules (host : EmitHost) (modules : list Module_) : result EmitHost :=
  match modules with
  | [] => Ret host
  | m :: rest =>
      match emitModule host m with
      | Ret host' => emitModules host' rest
      | other => other
      end
  end.

Definition emitRuntimePostfix (host : EmitHost) : EmitHost :=
  mkHost (sb host ++ lit "})" ++ [newline]) (generator host) (lineOffset host).

(** *** Sources and cleanup (lines 66-72 and 188-196) *)

Definition getSources (files : list File) : list Source :=
  map (fun f =>
         mkSource (file_name f) (Some (file_content f))
           (option_map file_content
              (find (fun g => str_eqb (file_name g) (file_name f ++ lit ".map")) files)))
      (filter (fun f => endsWith (file_name f) (lit ".js")) files).

Definition file_eqb (a b : File) : bool :=
  str_eqb (file_name a) (file_name b) && str_eqb (file_content a) (file_content b).

(** [files.indexOf(x)]. *)
Fixpoint indexOf (files : list File) (x : File) : option nat :=
  match files with
  | [] => None
  | f :: rest => if file_eqb f x then Some 0 else option_map S (indexOf rest x)
  end.

Fixpoint removeAt (files : list File) (i : nat) : list File :=
  match files, i with
  | [], _ => []
  | _ :: rest, 0 => rest
  | f :: rest, S j => f :: removeAt rest j
  end.

(** [files.splice(files.indexOf(x), 1)]; an index of -1 counts from the end. *)
Definition spliceOut (files : list File) (x : File) : list File :=
  match indexOf files x with
  | Some i => removeAt files i
  | None => removelast files
  end.

Definition isUnused (modules : list Module_) (f : File) : bool :=
  negb (existsb (fun m => str_eqb (filename (source m)) (file_name f)) modules)
  && negb (existsb (fun m => str_eqb (filename (source m) ++ lit ".map") (file_name f)) modules).

Definition cleanupMemoryFile (modules : list Module_) (files : list File) : list File :=
  fold_left spliceOut (filter (isUnused modules) files) files.

(** *** run (lines 221-297)

    Logging is not modelled. [this.sources] is assigned at the start of every
    run before it is read, so it is a local of [run] here; the state that
    lasts is [lastHash], [lastModules] and the caller's file list. The result
    is what the promise settles with, the state after the run and the files
    written. *)

Definition failure : MyPackResult := mkResult false None.

(** Remove content to reduce memory usage. *)
Definition clearModule (m : Module_) : Module_ :=
  mkModule (name m) (mkSource (filename (source m)) None None) (requests m) None (hash m).

Definition optionStrEqb (a : option str) (b : str) : bool :=
  match a with Some x => str_eqb x b | None => false end.

Definition run (options : MyPackOptions) (st : PackerState)
  : result MyPackResult * PackerState * Writes :=
  let sources := getSources (files st) in
  if negb (hasSource sources (entry options)) then (Ret failure, st, [])
  else
    match buildModules options sources with
    | Ret None => (Ret failure, st, [])
    | Raise e => (Raise e, st, [])
    | Exhausted => (Exhausted, st, [])
    | Ret (Some modules) =>
        match checkCircularReference modules with
        | Ret true => (Ret failure, st, [])
        | Raise e => (Raise e, st, [])
        | Exhausted => (Exhausted, st, [])
        | Ret false =>
            let emitHost := mkHost [] (if sourceMap options then Some [] else None) 0 in
            match modules with
            | [] => (Raise TypeError, st, [])
            | entryModule :: _ =>
                match emitModules (emitRuntimePrefix options emitHost (name entryModule)) modules with
                | Raise e => (Raise e, st, [])
                | Exhausted => (Exhausted, st, [])
                | Ret host =>
                    let host := emitRuntimePostfix host in
                    let resultJs := sb host in
                    let resultMap := option_map (serializeMap (output options)) (generator host) in
                    let minified :=
                      if minify options
                      then terser resultJs
                             (if sourceMap options
                              then Some (resultMap, output options, output options ++ lit ".map")
                              else None)
                             (if MAKA_SELF_MULTILINE then Some 120 else None)
                      else Some (resultJs, resultMap) in
                    match minified with
                    | None => (Raise MinifyError, st, [])
                    | Some (resultJs, resultMap) =>
                        let hash := sha256 resultJs in
                        let hasChange := negb (optionStrEqb (lastHash st) hash) in
                        let files' :=
                          match cleanupFiles options with
                          | Some false => files st
                          | _ => cleanupMemoryFile modules (files st)
                          end in
                        let st' := mkState (Some hash) (Some (map clearModule modules)) files' in
                        let written := [(output options, resultJs)] in
                        if sourceMap options then
                          match resultMap with
                          | Some mapText =>
                              (Ret (mkResult true (Some hasChange)), st',
                               written ++ [(output options ++ lit ".map", mapText)])
                          | None => (Raise TypeError, st', written)   (* [writeFile] of undefined *)
                          end
                        else (Ret (mkResult true (Some hasChange)), st', written)
                    end
                end
            end
        end
    end.

(** *** Predicates used to state the properties *)

(** [Rewritten off original reqs rewritten]: [original], which starts at
    offset [off] of the content, is cut into untouched pieces and one load
    call per request, and [rewritten] is the same pieces with each load call
    replaced by the import call of the request. *)
Inductive Rewritten : nat -> str -> list ModuleRequest -> str -> Prop :=
| Rewritten_nil : forall off tail, Rewritten off tail [] tail
| Rewritten_cons : forall off before r rest original rewritten,
    index r = off + length before ->
    Rewritten (index r + length (loadCall (raw r))) original rest rewritten ->
    Rewritten off (before ++ loadCall (raw r) ++ original) (r :: rest)
      (before ++ importCall (resolvedModuleName r) ++ rewritten).

(** The requests found from [position] on: in order, each at the index of a
    load call of the content. *)
Inductive Placed (jsText : str) : nat -> list ModuleRequest -> Prop :=
| Placed_nil : forall position, position <= length jsText -> Placed jsText position []
| Placed_cons : forall position r rest,
    position <= index r ->
    (exists tail, skipn (index r) jsText = loadCall (raw r) ++ tail) ->
    Placed jsText (index r + length (raw r) + 12) rest ->
    Placed jsText position (r :: rest).

(** What the loop of [processModule] records for a load call found in the
    file [sourceFilename]. *)
Definition ResolvedIn (options : MyPackOptions) (sources : list Source)
    (sourceFilename : str) (r : ModuleRequest) : Prop :=
  requiredFileName sources (Path.resolve cwd [Path.dirname sourceFilename; raw r])
    = Some (resolvedFileName r)
  /\ resolvedModuleName r = requiredModuleNameOf options (resolvedFileName r).

(** A load call the scanning loop comes to when it starts at [lastIndex]:
    the match of one [exec], or one found after resuming behind a match. *)
Inductive Detected (jsText : str) : nat -> nat -> str -> Prop :=
| Detected_here : forall lastIndex matchIndex request,
    exec jsText lastIndex = Some (matchIndex, request) ->
    Detected jsText lastIndex matchIndex request
| Detected_later : forall lastIndex i0 r0 matchIndex request,
    exec jsText lastIndex = Some (i0, r0) ->
    Detected jsText (i0 + length r0 + 12) matchIndex request ->
    Detected jsText lastIndex matchIndex request.

(** The files the traversal is bound to come to: the entry, and the targets
    of the requests of a file that was come to and processed. *)
Inductive Reached (options : MyPackOptions) (sources : list Source) : str -> Prop :=
| Reached_entry : Reached options sources (entry options)
| Reached_request : forall f src m r,
    Reached options sources f ->
    findSource sources f = Some src ->
    processModule options sources src = Ret (Some m) ->
    In r (requests m) ->
    Reached options sources (resolvedFileName r).

(** A file of the list whose module is built and whose requests are all in
    the list. *)
Definition Done (options : MyPackOptions) (sources : list Source)
    (queue : list str) (modules : list Module_) (f : str) : Prop :=
  exists src m,
    findSource sources f = Some src
    /\ processModule options sources src = Ret (Some m)
    /\ In m modules
    /\ (forall r, In r (requests m) -> In (resolvedFileName r) queue).

(** Sources whose names are not yet in the list. *)
Definition unseen (sources : list Source) (queue : list str) : nat :=
  length (filter (fun s => negb (includes queue (filename s))) sources).

(** The measure that bounds the iterations left to [buildLoop]. *)
Definition buildMeasure (sources : list Source) (queue : list str) (moduleIndex : nat) : nat :=
  unseen sources queue * S (S (list_max (map jsLength sources)))
  + (length queue - moduleIndex).

(** [f] is the first of the candidates, in their order, that is the name of
    a source. *)
Definition FirstKnown (sources : list Source) (candidates : list str) (f : str) : Prop :=
  exists before after,
    candidates = before ++ f :: after
    /\ hasSource sources f = true
    /\ Forall (fun c => hasSource sources c = false) before.

(** The candidates of a request: the resolved path, with [.js], with
    [/index.js]. *)
Definition candidates (sourceFilename request : str) : list str :=
  let fullRequest := Path.resolve cwd [Path.dirname sourceFilename; request] in
  [fullRequest; fullRequest ++ lit ".js"; fullRequest ++ lit "/index.js"].

(** The graph of a module list: [a] has a request that names [b]. *)
Definition Requests (modules : list Module_) (a b : Module_) : Prop :=
  exists r, In r (requests a) /\ requested modules (resolvedModuleName r) = Some b.

(** One or more requests lead from [a] to [b]. *)
Inductive Reaches (modules : list Module_) : Module_ -> Module_ -> Prop :=
| Reaches_one : forall a b, Requests modules a b -> Reaches modules a b
| Reaches_more : forall a t b,
    Requests modules a t -> Reaches modules t b -> Reaches modules a b.

(** Every request names a module of the list. *)
Definition Closed (modules : list Module_) : Prop :=
  forall m r, In m modules -> In r (requests m) ->
    requested modules (resolvedModuleName r) <> None.

(** Some module that the entry reaches (or the entry itself) requests a
    module that leads back to it: while it is loaded, that module is on the
    stack. *)
Definition HasCycle (modules : list Module_) : Prop :=
  exists entryModule a,
    hd_error modules = Some entryModule
    /\ (a = entryModule \/ Reaches modules entryModule a)
    /\ Reaches modules a a.

(** [run] in three steps, used to reason about it: what is emitted
    (lines 245-267), everything up to there (lines 222-267), and what follows
    (lines 269-296). *)
Definition emitAll (options : MyPackOptions) (modules : list Module_)
  : result (str * option str) :=
  match modules with
  | [] => Raise TypeError
  | entryModule :: _ =>
      match emitModules
              (emitRuntimePrefix options
                 (mkHost [] (if sourceMap options then Some [] else None) 0)
                 (name entryModule)) modules with
      | Raise e => Raise e
      | Exhausted => Exhausted
      | Ret host =>
          let host := emitRuntimePostfix host in
          let resultMap := option_map (serializeMap (output options)) (generator host) in
          let minified :=
            if minify options
            then terser (sb host)
                   (if sourceMap options
                    then Some (resultMap, output options, output options ++ lit ".map")
                    else None)
                   (if MAKA_SELF_MULTILINE then Some 120 else None)
            else Some (sb host, resultMap) in
          match minified with
          | None => Raise MinifyError
          | Some bundle => Ret bundle
          end
      end
  end.

Definition packed (options : MyPackOptions) (inputFiles : list File)
  : result (option (list Module_ * (str * option str))) :=
  let sources := getSources inputFiles in
  if negb (hasSource sources (entry options)) then Ret None
  else
    match buildModules options sources with
    | Ret None => Ret None
    | Raise e => Raise e
    | Exhausted => Exhausted
    | Ret (Some modules) =>
        match checkCircularReference modules with
        | Ret true => Ret None
        | Raise e => Raise e
        | Exhausted => Exhausted
        | Ret false =>
            match emitAll options modules with
            | Ret bundle => Ret (Some (modules, bundle))
            | Raise e => Raise e
            | Exhausted => Exhausted
            end
        end
    end.

Definition finish (options : MyPackOptions) (st : PackerState)
    (modules : list Module_) (bundle : str * option str)
  : result MyPackResult * PackerState * Writes :=
  let hash := sha256 (fst bundle) in
  let hasChange := negb (optionStrEqb (lastHash st) hash) in
  let files' :=
    match cleanupFiles options with
    | Some false => files st
    | _ => cleanupMemoryFile modules (files st)
    end in
  let st' := mkState (Some hash) (Some (map clearModule modules)) files' in
  let written := [(output options, fst bundle)] in
  if sourceMap options then
    match snd bundle with
    | Some mapText =>
        (Ret (mkResult true (Some hasChange)), st',
         written ++ [(output options ++ lit ".map", mapText)])
    | None => (Raise TypeError, st', written)
    end
  else (Ret (mkResult true (Some hasChange)), st', written).

(** How [emitModule] re-emits a mapping of the module's own map: the line is
    counted from the anchor, moved by the line offset the host had before the
    module plus [extra]; the column is kept. *)
Definition Reemitted (anchor offsetBefore extra : Z) (original new : Mapping) : Prop :=
  generatedLine new = (generatedLine original - anchor + offsetBefore + extra)%Z
  /\ generatedColumn new = generatedColumn original.

(** The file of a module, and the names [cleanupMemoryFile] keeps: those of
    the files of the modules and of their maps. *)
Definition fileOf (m : Module_) : str := filename (source m).

Definition keptName (modules : list Module_) (fileName : str) : bool :=
  existsb (fun m => str_eqb (fileOf m) fileName) modules
  || existsb (fun m => str_eqb (fileOf m ++ lit ".map") fileName) modules.

(** The source [getSources] makes of a file. *)
Definition toSource (inputFiles : list File) (f : File) : Source :=
  mkSource (file_name f) (Some (file_content f))
    (option_map file_content
       (find (fun g => str_eqb (file_name g) (file_name f ++ lit ".map")) inputFiles)).

(** A module of the graph built from [sources]: it is the module of its
    source, and its source is the one found under its file name. *)
Definition Good (options : MyPackOptions) (sources : list Source) (m : Module_) : Prop :=
  findSource sources (fileOf m) = Some (source m)
  /\ processModule options sources (source m) = Ret (Some m).


Definition builtNames (outcome : result (option (list Module_))) : option (list str) :=
  match outcome with
  | Ret (Some modules) => Some (map name modules)
  | _ => None
  end.

Definition requestedNames (outcome : result (option (list Module_))) : option (list str) :=
  match outcome with
  | Ret (Some modules) => Some (map resolvedModuleName (concat (map requests modules)))
  | _ => None
  end.

Definition emittedLines (outcome : result EmitHost) : option (list Z) :=
  match outcome with
  | Ret host => option_map (map generatedLine) (generator host)
  | _ => None
  end.

(** *** printResult (lines 198-219)

    What is logged, as data: the summary line, then one line per module with
    its sign and, for a module of the graph, the length of its content. The
    colours and the size formatting of the lines are left out. Reading the
    length of a content that is null throws, after the lines logged so
    far. *)
Inductive LogLine : Type :=
| Completed (assetSize : nat)            (* completed with 1 asset ... *)
| Added (m : Module_) (size : nat)       (* + name (file) size *)
| Updated (m : Module_) (size : nat)     (* * name (file) size *)
| Removed (m : Module_).                 (* - removed name (file) *)

Definition sameFile (a b : Module_) : bool :=
  str_eqb (filename (source a)) (filename (source b)).

Definition hashDiffers (a b : Module_) : bool := negb (str_eqb (hash a) (hash b)).

(** The modules the three loops of lines 202, 205 and 210 run over. *)
Definition addedModules (previous modules : list Module_) : list Module_ :=
  filter (fun n => negb (existsb (fun p => sameFile p n) previous)) modules.

Definition updatedModules (previous modules : list Module_) : list Module_ :=
  map fst
    (filter (fun pair : Module_ * option Module_ =>
               match snd pair with
               | Some previousModule => hashDiffers (fst pair) previousModule
               | None => false
               end)
       (map (fun n => (n, find (fun p => sameFile p n) previous)) modules)).

Definition removedModules (previous modules : list Module_) : list Module_ :=
  filter (fun p => negb (existsb (fun n => sameFile n p) modules)) previous.

(** A loop that logs one line per module with [content.length]: the lines
    logged, and what was thrown. *)
Fixpoint logWithSize (line : Module_ -> nat -> LogLine) (modules : list Module_)
  : list LogLine * option exn :=
  match modules with
  | [] => ([], None)
  | m :: rest =>
      match content m with
      | None => ([], Some TypeError)            (* [content.length] of null *)
      | Some text =>
          let (lines, thrown) := logWithSize line rest in
          (line m (length text) :: lines, thrown)
      end
  end.

Definition printResult (options : MyPackOptions) (lastModules : option (list Module_))
    (assetSize : nat) (modules : list Module_) : list LogLine * option exn :=
  if printModules options then
    match lastModules with
    | Some previous =>
        match logWithSize Added (addedModules previous modules) with
        | (added, Some e) => (Completed assetSize :: added, Some e)
        | (added, None) =>
            match logWithSize Updated (updatedModules previous modules) with
            | (updated, Some e) => (Completed assetSize :: added ++ updated, Some e)
            | (updated, None) =>
                (Completed assetSize :: added ++ updated
                   ++ map Removed (removedModules previous modules), None)
            end
        end
    | None =>
        let (added, thrown) := logWithSize Added modules in
        (Completed assetSize :: added, thrown)
    end
  else ([Completed assetSize], None).

(** The number of line breaks of a text. *)
Definition lineBreaks (s : str) : nat := length (filter (Ascii.eqb newline) s).

(** The text [emitModule] appends for a module. *)
Definition moduleEntry (m : Module_) : str :=
  lit "'" ++ name m ++ lit "': (exports, myimport) => {" ++ [newline]
  ++ render (content m) ++ lit "}, ".

(** A module found under its own name: the one [modules.find] gives for it. *)
Definition Canonical (modules : list Module_) (m : Module_) : Prop :=
  requested modules (name m) = Some m.

(** A loading stack, top first: each module was requested by the one below. *)
Fixpoint Chain (modules : list Module_) (loadings : list Module_) : Prop :=
  match loadings with
  | upper :: ((lower :: _) as rest) => Requests modules lower upper /\ Chain modules rest
  | _ => True
  end.

(** [text] occurs in [s]. *)
Definition Occurs (text s : str) : Prop := exists before after, s = before ++ text ++ after.

(** Whether [text] occurs in [s], by trying every position. *)
Fixpoint occursb (text s : str) : bool :=
  match stripPrefix text s with
  | Some _ => true
  | None =>
      match s with
      | [] => false
      | _ :: s' => occursb text s'
      end
  end.

(** The graph of a module list by file: [a] has a request whose resolved
    file is the file of [b], a module of the list. *)
Definition FileRequests (modules : list Module_) (a b : Module_) : Prop :=
  In b modules /\ exists r, In r (requests a) /\ resolvedFileName r = fileOf b.

(** One or more requests lead from the file of [a] to the file of [b]. *)
Inductive FileReaches (modules : list Module_) : Module_ -> Module_ -> Prop :=
| FileReaches_one : forall a b, FileRequests modules a b -> FileReaches modules a b
| FileReaches_more : forall a t b,
    FileRequests modules a t -> FileReaches modules t b -> FileReaches modules a b.

(** The entry, or a module whose file the entry reaches, has a file that
    leads back to itself. *)
Definition HasFileCycle (modules : list Module_) : Prop :=
  exists entryModule a,
    hd_error modules = Some entryModule
    /\ (a = entryModule \/ FileReaches modules entryModule a)
    /\ FileReaches modules a a.

(** Names and files identify the modules of the list, and each request
    carries the file and the name of one of them. *)
Definition Coherent (modules : list Module_) : Prop :=
  (forall a b, In a modules -> In b modules -> name a = name b -> a = b)
  /\ (forall a b, In a modules -> In b modules -> fileOf a = fileOf b -> a = b)
  /\ (forall a r, In a modules -> In r (requests a) ->
        exists b,
          In b modules /\ fileOf b = resolvedFileName r /\ name b = resolvedModuleName r).

(** A path the pattern captures: a dot followed by dots, word characters,
    dashes and slashes. *)
Definition ValidPath (request : str) : Prop :=
  exists t, request = dot :: t /\ forallb isRequestChar t = true.

(** The text has a load call of [request] at index [i]: read in the text
    itself, without the scanning loop. *)
Definition LoadCallAt (jsText : str) (i : nat) (request : str) : Prop :=
  ValidPath request /\ exists tail, skipn i jsText = loadCall request ++ tail.

(** [out] is [s] without [suffix] when [s] ends with it, and [s] itself
    when it does not. *)
Definition Stripped (suffix s out : str) : Prop :=
  (exists t, s = t ++ suffix /\ out = t)
  \/ ((forall t, s <> t ++ suffix) /\ out = s).

(** The naming rule in words: strip the extension [.js], then strip a
    trailing [index], the five characters and nothing else; the empty result
    is the single dot. *)
Definition NameRule (relativePath moduleName : str) : Prop :=
  exists stem base,
    Stripped (lit ".js") relativePath stem
    /\ Stripped (lit "index") stem base
    /\ moduleName = match base with [] => lit "." | _ :: _ => base end.

(** ** Strings: basic facts *)

Lemma str_eqb_eq (a b : str) : str_eqb a b = true <-> a = b.
Proof.
  revert b; induction a as [|x a IH]; intros [|y b]; simpl; split; intro H;
    try reflexivity; try discriminate.
  - apply andb_prop in H as [Hx Hab]. apply Ascii.eqb_eq in Hx.
    apply IH in Hab. now subst.
  - injection H as -> ->. rewrite Ascii.eqb_refl. simpl. now apply IH.
Qed.

Lemma str_eqb_refl (a : str) : str_eqb a a = true.
Proof. now apply str_eqb_eq. Qed.

Lemma str_eqb_neq (a b : str) : str_eqb a b = false <-> a <> b.
Proof.
  split.
  - intros H E. apply str_eqb_eq in E. congruence.
  - intro H. destruct (str_eqb a b) eqn:E; [|reflexivity].
    apply str_eqb_eq in E. contradiction.
Qed.

Lemma stripPrefix_Some (p s t : str) : stripPrefix p s = Some t <-> s = p ++ t.
Proof.
  revert s; induction p as [|x p IH]; intros s; simpl.
  - split; [intros [= ->] | intros ->]; reflexivity.
  - destruct s as [|c s].
    + split; discriminate.
    + destruct (Ascii.eqb x c) eqn:E.
      * apply Ascii.eqb_eq in E. subst c. rewrite IH.
        split; [intros -> | intros [= ->]]; reflexivity.
      * split; [discriminate|]. intros [= -> _].
        rewrite Ascii.eqb_refl in E. discriminate.
Qed.

Lemma takeWhile_dropWhile (f : ascii -> bool) (s : str) :
  takeWhile f s ++ dropWhile f s = s.
Proof.
  induction s as [|c s IH]; simpl; [reflexivity|].
  destruct (f c); simpl; [now rewrite IH | reflexivity].
Qed.

Lemma loadCall_length (request : str) : length (loadCall request) = length request + 12.
Proof.
  unfold loadCall. rewrite !length_app. simpl. lia.
Qed.

Lemma endsWith_app (a suffix : str) : endsWith (a ++ suffix) suffix = true.
Proof.
  unfold endsWith. rewrite length_app. apply andb_true_intro. split.
  - apply Nat.leb_le. lia.
  - replace (length a + length suffix - length suffix) with (length a) by lia.
    rewrite skipn_app, skipn_all, Nat.sub_diag. apply str_eqb_refl.
Qed.

Lemma sliceDropEnd_app (a suffix : str) :
  sliceDropEnd (a ++ suffix) (length suffix) = a.
Proof.
  unfold sliceDropEnd. rewrite length_app.
  replace (length a + length suffix - length suffix) with (length a) by lia.
  rewrite firstn_app, firstn_all, Nat.sub_diag. apply app_nil_r.
Qed.

(** ** The pattern: what a match covers *)

Lemma matchHere_Some (s request : str) :
  matchHere s = Some request ->
  (exists tail, s = loadCall request ++ tail) /\ (exists t, request = dot :: t).
Proof.
  unfold matchHere.
  destruct (stripPrefix requireOpen s) as [[|c rest]|] eqn:Eopen; try discriminate.
  destruct (Ascii.eqb c dot) eqn:Edot; try discriminate.
  destruct (stripPrefix requireClose (dropWhile isRequestChar rest)) as [tail|] eqn:Eclose;
    try discriminate.
  intros [= <-].
  apply stripPrefix_Some in Eopen, Eclose.
  apply Ascii.eqb_eq in Edot. subst c.
  split; [exists tail | now eexists].
  rewrite Eopen. unfold loadCall.
  rewrite <- (takeWhile_dropWhile isRequestChar rest) at 1.
  rewrite Eclose. simpl. now rewrite <- !app_assoc.
Qed.

Lemma execFrom_Some (s : str) (position matchIndex : nat) (request : str) :
  execFrom s position = Some (matchIndex, request) ->
  exists before tail,
    s = before ++ loadCall request ++ tail /\ matchIndex = position + length before.
Proof.
  revert position; induction s as [|c s IH]; intros position; cbn [execFrom].
  - destruct (matchHere []) eqn:E; [|discriminate].
    intros [= <- <-]. apply matchHere_Some in E as [[tail E] _].
    exists [], tail. simpl. split; [assumption | lia].
  - destruct (matchHere (c :: s)) eqn:E.
    + intros [= <- <-]. apply matchHere_Some in E as [[tail E] _].
      exists [], tail. simpl. split; [assumption | lia].
    + intro H. apply IH in H as (before & tail & -> & ->).
      exists (c :: before), tail. simpl. split; [reflexivity | lia].
Qed.

Lemma execFrom_starts (s : str) (position matchIndex : nat) (request : str) :
  execFrom s position = Some (matchIndex, request) -> exists t, request = dot :: t.
Proof.
  revert position; induction s as [|c s IH]; intros position; cbn [execFrom].
  - destruct (matchHere []) eqn:E; [|discriminate].
    intros [= <- <-]. now apply matchHere_Some in E.
  - destruct (matchHere (c :: s)) eqn:E.
    + intros [= <- <-]. now apply matchHere_Some in E.
    + apply IH.
Qed.

Lemma exec_Some (jsText : str) (lastIndex matchIndex : nat) (request : str) :
  exec jsText lastIndex = Some (matchIndex, request) ->
  lastIndex <= matchIndex
  /\ (exists tail, skipn matchIndex jsText = loadCall request ++ tail)
  /\ matchIndex + length request + 12 <= length jsText
  /\ (exists t, request = dot :: t).
Proof.
  unfold exec. destruct (length jsText <? lastIndex) eqn:Elen; [discriminate|].
  apply Nat.ltb_ge in Elen. intro H.
  pose proof (execFrom_starts _ _ _ _ H) as Hdot.
  apply execFrom_Some in H as (before & tail & Hs & ->).
  assert (Hskip : skipn (lastIndex + length before) jsText = loadCall request ++ tail).
  { rewrite Nat.add_comm, <- skipn_skipn, Hs.
    rewrite skipn_app, skipn_all, Nat.sub_diag. reflexivity. }
  repeat split; [lia | now exists tail | | assumption].
  assert (Hl : length (skipn (lastIndex + length before) jsText)
               = length jsText - (lastIndex + length before)) by apply length_skipn.
  rewrite Hskip, length_app, loadCall_length in Hl. lia.
Qed.

(** ** The pattern: which texts it matches *)

Lemma takeWhile_all (f : ascii -> bool) (s : str) : forallb f (takeWhile f s) = true.
Proof.
  induction s as [|c s IH]; simpl; [reflexivity|].
  destruct (f c) eqn:E; simpl; [now rewrite E | reflexivity].
Qed.

Lemma takeWhile_run (t tail : str) :
  forallb isRequestChar t = true ->
  takeWhile isRequestChar (t ++ requireClose ++ tail) = t
  /\ dropWhile isRequestChar (t ++ requireClose ++ tail) = requireClose ++ tail.
Proof.
  induction t as [|c t IH]; intro H.
  - split; reflexivity.
  - cbn [forallb] in H. apply andb_prop in H as [Hc Ht].
    destruct (IH Ht) as [Htake Hdrop].
    cbn [List.app takeWhile dropWhile]. rewrite Hc. split; [now rewrite Htake | assumption].
Qed.

Lemma matchHere_valid (s request : str) : matchHere s = Some request -> ValidPath request.
Proof.
  unfold matchHere.
  destruct (stripPrefix requireOpen s) as [[|c rest]|]; try discriminate.
  destruct (Ascii.eqb c dot) eqn:Edot; try discriminate.
  destruct (stripPrefix requireClose (dropWhile isRequestChar rest)); try discriminate.
  intros [= <-]. apply Ascii.eqb_eq in Edot. subst c.
  eexists. split; [reflexivity | apply takeWhile_all].
Qed.

(** The pattern matches wherever a load call stands, and captures its
    path. *)
Lemma matchHere_complete (request tail : str) :
  ValidPath request -> matchHere (loadCall request ++ tail) = Some request.
Proof.
  intros (t & -> & Ht). unfold matchHere, loadCall.
  assert (Hopen : stripPrefix requireOpen
                    ((requireOpen ++ (dot :: t) ++ requireClose) ++ tail)
                  = Some (dot :: t ++ requireClose ++ tail)).
  { apply stripPrefix_Some. now rewrite <- !app_assoc. }
  rewrite Hopen, Ascii.eqb_refl.
  destruct (takeWhile_run t tail Ht) as [Htake Hdrop]. rewrite Hdrop, Htake.
  assert (Hclose : stripPrefix requireClose (requireClose ++ tail) = Some tail)
    by now apply stripPrefix_Some.
  now rewrite Hclose.
Qed.

Lemma matchHere_nil : matchHere [] = None.
Proof. reflexivity. Qed.

Lemma execFrom_leftmost (s : str) :
  forall position matchIndex request,
    execFrom s position = Some (matchIndex, request) ->
    matchHere (skipn (matchIndex - position) s) = Some request
    /\ forall k, position + k < matchIndex -> matchHere (skipn k s) = None.
Proof.
  induction s as [|c s IH]; intros position matchIndex request; cbn [execFrom].
  - rewrite matchHere_nil. discriminate.
  - destruct (matchHere (c :: s)) eqn:E.
    + intros [= <- <-]. rewrite Nat.sub_diag. split; [assumption|]. intros k Hk. lia.
    + intro H. pose proof (execFrom_Some _ _ _ _ H) as (before & tail & _ & Hidx).
      apply IH in H as [Hat Hbefore].
      replace (matchIndex - position) with (S (matchIndex - S position)) by lia.
      split; [assumption|].
      intros [|k] Hk; [assumption|]. apply Hbefore. lia.
Qed.

Lemma execFrom_None (s : str) :
  forall position, execFrom s position = None -> forall k, matchHere (skipn k s) = None.
Proof.
  induction s as [|c s IH]; intros position; cbn [execFrom].
  - intros _ k. now destruct k.
  - destruct (matchHere (c :: s)) eqn:E; [discriminate|].
    intros H [|k]; [assumption|]. now apply (IH (S position)).
Qed.

Lemma LoadCallAt_matchHere (jsText : str) (i : nat) (request : str) :
  LoadCallAt jsText i request <-> matchHere (skipn i jsText) = Some request.
Proof.
  split.
  - intros [Hvalid [tail ->]]. now apply matchHere_complete.
  - intro H. split; [now apply (matchHere_valid _ _ H)|].
    now apply matchHere_Some in H as [Htail _].
Qed.

(** One index holds one load call. *)
Lemma LoadCallAt_functional (jsText : str) (i : nat) (a b : str) :
  LoadCallAt jsText i a -> LoadCallAt jsText i b -> a = b.
Proof.
  rewrite !LoadCallAt_matchHere. congruence.
Qed.

(** [exec] gives the leftmost load call at or after [lastIndex]. *)
Lemma exec_leftmost (jsText : str) (lastIndex matchIndex : nat) (request : str) :
  exec jsText lastIndex = Some (matchIndex, request) ->
  LoadCallAt jsText matchIndex request
  /\ forall i other, lastIndex <= i < matchIndex -> ~ LoadCallAt jsText i other.
Proof.
  intro H. pose proof (exec_Some _ _ _ _ H) as (Hle & _).
  unfold exec in H. destruct (length jsText <? lastIndex); [discriminate|].
  apply execFrom_leftmost in H as [Hat Hbefore]. split.
  - apply LoadCallAt_matchHere.
    replace matchIndex with (matchIndex - lastIndex + lastIndex) at 1 by lia.
    now rewrite <- skipn_skipn.
  - intros i other Hi Hcall. apply LoadCallAt_matchHere in Hcall.
    replace i with (i - lastIndex + lastIndex) in Hcall by lia.
    rewrite <- skipn_skipn, Hbefore in Hcall; [discriminate | lia].
Qed.

Lemma exec_None (jsText : str) (lastIndex : nat) :
  exec jsText lastIndex = None ->
  forall i other, lastIndex <= i -> ~ LoadCallAt jsText i other.
Proof.
  unfold exec. intros H i other Hi Hcall. apply LoadCallAt_matchHere in Hcall.
  destruct (length jsText <? lastIndex) eqn:Elen.
  - apply Nat.ltb_lt in Elen. rewrite skipn_all2 in Hcall by lia. discriminate.
  - replace i with (i - lastIndex + lastIndex) in Hcall by lia.
    rewrite <- skipn_skipn, (execFrom_None _ _ H) in Hcall. discriminate.
Qed.

(** No load call starts inside another: the opening parenthesis is neither
    a character of a path nor of the closing text. *)
Lemma no_open_here (path tail rest : str) :
  forallb isRequestChar path = true ->
  path ++ requireClose ++ tail <> lit "require(" ++ rest.
Proof.
  intros Hall H.
  do 7 (destruct path as [|? path]; [cbv in H; discriminate|]).
  destruct path as [|c path]; [cbv in H; discriminate|].
  cbn in H. injection H as -> -> -> -> -> -> -> -> _.
  cbv in Hall. discriminate.
Qed.

Lemma no_open_inside (path tail rest : str) :
  forallb isRequestChar path = true ->
  forall k, skipn k (path ++ requireClose ++ tail) = lit "require(" ++ rest ->
            length path + 3 <= k.
Proof.
  induction path as [|c path IH]; intros Hall k H.
  - destruct k as [|[|[|k]]]; try (cbv in H; discriminate). simpl. lia.
  - destruct k as [|k].
    + exfalso. exact (no_open_here (c :: path) tail rest Hall H).
    + cbn [forallb] in Hall. apply andb_prop in Hall as [_ Hall].
      cbn [List.app skipn] in H. apply IH in H; [|assumption]. simpl. lia.
Qed.

Lemma loadCall_apart (jsText : str) (i j : nat) (a b : str) :
  LoadCallAt jsText i a -> LoadCallAt jsText j b ->
  i <= j < i + length a + 12 -> j = i.
Proof.
  intros [(t & -> & Ht) [tail Hi]] [_ [tail' Hj]] Hrange.
  replace j with (j - i + i) in Hj by lia. rewrite <- skipn_skipn, Hi in Hj.
  remember (j - i) as k eqn:Ek.
  assert (Hk : k < length (dot :: t) + 12) by lia.
  assert (k = 0); [|lia].
  unfold loadCall, requireOpen in Hj. rewrite <- !app_assoc in Hj.
  do 9 (destruct k as [|k]; [try reflexivity; cbv in Hj; discriminate|]).
  exfalso.
  change (skipn (S (S (S (S (S (S (S (S (S k)))))))))
            (lit "require(" ++ [dquote] ++ (dot :: t) ++ requireClose ++ tail))
    with (skipn k ((dot :: t) ++ requireClose ++ tail)) in Hj.
  apply no_open_inside in Hj.
  - lia.
  - cbn [forallb]. now rewrite Ht.
Qed.

(** ** The requests of a module *)

Section Requests.

Variable options : MyPackOptions.
Variable sources : list Source.

Lemma findRequests_placed (sourceFilename jsText : str) :
  forall budget lastIndex found reqs,
    lastIndex <= length jsText ->
    findRequests options sources budget sourceFilename jsText lastIndex found
      = Ret (Some reqs) ->
    exists new,
      reqs = found ++ new
      /\ Placed jsText lastIndex new
      /\ Forall (fun r => exists t, raw r = dot :: t) new
      /\ Forall (ResolvedIn options sources sourceFilename) new.
Proof.
  induction budget as [|budget IH]; intros lastIndex found reqs Hle; cbn [findRequests].
  - discriminate.
  - destruct (exec jsText lastIndex) as [[matchIndex request]|] eqn:Eexec.
    + destruct (requiredFileName sources _) as [requiredFile|] eqn:Ereq; [|discriminate].
      apply exec_Some in Eexec as (Hidx & Htail & Hend & Hdot).
      intro H. apply IH in H as (new & -> & Hplaced & Hdots & Hres); [|lia].
      eexists (_ :: new). rewrite <- app_assoc. split; [reflexivity|].
      split; [|split].
      * apply Placed_cons; assumption.
      * constructor; assumption.
      * constructor; [|assumption]. split; [assumption | reflexivity].
    + intros [= <-]. exists []. rewrite app_nil_r.
      repeat split; try constructor. assumption.
Qed.

Lemma findRequests_placed_prefix (sourceFilename jsText : str) :
  forall budget lastIndex found reqs,
    findRequests options sources budget sourceFilename jsText lastIndex found
      = Ret (Some reqs) ->
    exists new, reqs = found ++ new.
Proof.
  induction budget as [|budget IH]; intros lastIndex found reqs; cbn [findRequests].
  - discriminate.
  - destruct (exec jsText lastIndex) as [[matchIndex request]|].
    + destruct (requiredFileName sources _) as [requiredFile|]; [|discriminate].
      intro H. apply IH in H as [new ->]. eexists. now rewrite <- app_assoc.
    + intros [= <-]. exists []. now rewrite app_nil_r.
Qed.

Lemma findRequests_finishes (sourceFilename jsText : str) :
  forall budget lastIndex found,
    lastIndex <= length jsText ->
    length jsText < budget + lastIndex ->
    exists outcome,
      findRequests options sources budget sourceFilename jsText lastIndex found
        = Ret outcome.
Proof.
  induction budget as [|budget IH]; intros lastIndex found Hle Hbudget; cbn [findRequests].
  - lia.
  - destruct (exec jsText lastIndex) as [[matchIndex request]|] eqn:Eexec.
    + destruct (requiredFileName sources _) as [requiredFile|]; [|now eexists].
      apply exec_Some in Eexec as (Hidx & _ & Hend & _).
      apply IH; lia.
    + now eexists.
Qed.

Lemma findRequests_count (sourceFilename jsText : str) :
  forall budget lastIndex found reqs,
    findRequests options sources budget sourceFilename jsText lastIndex found
      = Ret (Some reqs) ->
    length reqs < length found + budget.
Proof.
  induction budget as [|budget IH]; intros lastIndex found reqs; cbn [findRequests].
  - discriminate.
  - destruct (exec jsText lastIndex) as [[matchIndex request]|].
    + destruct (requiredFileName sources _) as [requiredFile|]; [|discriminate].
      intro H. apply IH in H. rewrite length_app in H. simpl in H. lia.
    + intros [= <-]. lia.
Qed.

Lemma rewriteRequests_placed (jsText : str) :
  forall reqs position moduleContent,
    Placed jsText position reqs ->
    exists rewritten,
      rewriteRequests jsText reqs position moduleContent = moduleContent ++ rewritten
      /\ Rewritten position (skipn position jsText) reqs rewritten.
Proof.
  induction reqs as [|r rest IH]; intros position moduleContent Hplaced;
    inversion Hplaced as [? Hle | ? ? ? Hidx [tail Htail] Hrest]; subst;
    cbn [rewriteRequests].
  - eexists. split; [reflexivity | constructor].
  - destruct (IH (index r + length (raw r) + 12)
                (moduleContent ++ slice jsText position (index r)
                   ++ importCall (resolvedModuleName r)) Hrest)
      as (rewritten & Hrw & Hrel).
    exists (slice jsText position (index r) ++ importCall (resolvedModuleName r) ++ rewritten).
    rewrite Hrw, <- !app_assoc. split; [reflexivity|].
    assert (Hlen : index r + length (raw r) + 12 <= length jsText).
    { assert (Hl : length (skipn (index r) jsText) = length jsText - index r)
        by apply length_skipn.
      rewrite Htail, length_app, loadCall_length in Hl. lia. }
    assert (Hcut : skipn position jsText
                   = slice jsText position (index r) ++ loadCall (raw r)
                       ++ skipn (index r + length (raw r) + 12) jsText).
    { unfold slice.
      rewrite <- (firstn_skipn (index r - position) (skipn position jsText)) at 1.
      f_equal. rewrite skipn_skipn.
      replace (index r - position + position) with (index r) by lia.
      rewrite Htail. f_equal.
      replace (index r + length (raw r) + 12)
        with (length (loadCall (raw r)) + index r) by (rewrite loadCall_length; lia).
      rewrite <- skipn_skipn, Htail.
      rewrite skipn_app, skipn_all, Nat.sub_diag. reflexivity. }
    rewrite Hcut. apply Rewritten_cons.
    + unfold slice. rewrite length_firstn, length_skipn. lia.
    + rewrite loadCall_length, Nat.add_assoc. exact Hrel.
Qed.

(** The requests the loop finds are the load calls of the text from
    [lastIndex] on: each request stands at one, and each load call is one of
    the requests. *)
Lemma findRequests_calls (sourceFilename jsText : str) :
  forall budget lastIndex found reqs,
    findRequests options sources budget sourceFilename jsText lastIndex found
      = Ret (Some reqs) ->
    exists new,
      reqs = found ++ new
      /\ Forall (fun r => LoadCallAt jsText (index r) (raw r)) new
      /\ forall i request,
           lastIndex <= i -> LoadCallAt jsText i request ->
           exists r, In r new /\ index r = i /\ raw r = request.
Proof.
  induction budget as [|budget IH]; intros lastIndex found reqs; cbn [findRequests].
  - discriminate.
  - destruct (exec jsText lastIndex) as [[matchIndex request]|] eqn:Eexec.
    + destruct (requiredFileName sources _) as [requiredFile|] eqn:Ereq; [|discriminate].
      pose proof (exec_Some _ _ _ _ Eexec) as (Hidx & _).
      apply exec_leftmost in Eexec as [Hat Hbefore].
      intro H. apply IH in H as (new & -> & Hcalls & Hcover).
      eexists (_ :: new). rewrite <- app_assoc. split; [reflexivity|]. split.
      * constructor; assumption.
      * intros i other Hi Hcall.
        destruct (Nat.lt_ge_cases i matchIndex) as [Hlt | Hge].
        { exfalso. apply (Hbefore i other); [lia | assumption]. }
        destruct (Nat.lt_ge_cases i (matchIndex + length request + 12)) as [Hin | Hout].
        { pose proof (loadCall_apart jsText matchIndex i request other Hat Hcall
                        (conj Hge Hin)) as ->.
          eexists. split; [now left|]. cbn [index raw]. split; [reflexivity|].
          exact (LoadCallAt_functional jsText matchIndex _ _ Hat Hcall). }
        destruct (Hcover i other Hout Hcall) as (r & Hr & Hri & Hrr).
        exists r. split; [now right | now split].
    + intros [= <-]. exists []. rewrite app_nil_r. split; [reflexivity|].
      split; [constructor|].
      intros i other Hi Hcall. exfalso. exact (exec_None _ _ Eexec i other Hi Hcall).
Qed.

(** The requests of a module are the load calls of its source text. *)
Lemma processModule_calls (src : Source) (m : Module_) (jsText : str) :
  jsContent src = Some jsText ->
  processModule options sources src = Ret (Some m) ->
  forall i request,
    LoadCallAt jsText i request
    <-> exists r, In r (requests m) /\ index r = i /\ raw r = request.
Proof.
  unfold processModule. intros ->.
  destruct (findRequests options sources (S (length jsText)) (filename src) jsText 0 [])
    as [[reqs|]| |] eqn:Efind; try discriminate.
  intros [= <-]. cbn [requests].
  apply findRequests_calls in Efind as (new & -> & Hcalls & Hcover).
  intros i request. split.
  - intro Hcall. apply Hcover; [lia | assumption].
  - intros (r & Hr & <- & <-). rewrite Forall_forall in Hcalls. now apply Hcalls.
Qed.

(** What [processModule] returns: the content rewritten around the requests,
    each request a resolved load call. *)
Lemma processModule_spec (src : Source) (m : Module_) :
  processModule options sources src = Ret (Some m) ->
  exists jsText rewritten,
    jsContent src = Some jsText
    /\ content m = Some rewritten
    /\ Rewritten 0 jsText (requests m) rewritten
    /\ Forall (fun r => length (loadCall (raw r)) = length (raw r) + 12
                        /\ (exists t, raw r = dot :: t)
                        /\ ResolvedIn options sources (filename src) r) (requests m).
Proof.
  unfold processModule. destruct (jsContent src) as [jsText|]; [|discriminate].
  destruct (findRequests options sources (S (length jsText)) (filename src) jsText 0 [])
    as [[reqs|]| |] eqn:Efind; try discriminate.
  intros [= <-]. cbn [content requests].
  apply findRequests_placed in Efind as (new & -> & Hplaced & Hdots & Hres); [|lia].
  destruct (rewriteRequests_placed jsText new 0 [] Hplaced) as (rewritten & Hrw & Hrel).
  exists jsText, rewritten. simpl in Hrw |- *. rewrite Hrw.
  repeat split; try assumption.
  rewrite Forall_forall in *. intros r Hin.
  repeat split; [apply loadCall_length | now apply Hdots | now apply Hres ..].
Qed.


End Requests.

(** ** The module graph *)

Section GraphFacts.

Variable options : MyPackOptions.
Variable sources : list Source.

Lemma includes_true (l : list str) (f : str) : includes l f = true <-> In f l.
Proof.
  unfold includes. rewrite existsb_exists. split.
  - intros (x & Hin & E). apply str_eqb_eq in E. now subst.
  - intro H. exists f. split; [assumption | apply str_eqb_refl].
Qed.

Lemma hasSource_true (f : str) :
  hasSource sources f = true <-> exists s, In s sources /\ filename s = f.
Proof.
  unfold hasSource. rewrite existsb_exists.
  split; intros (s & Hin & E); exists s; (split; [assumption|]); now apply str_eqb_eq.
Qed.

Lemma findSource_Some (f : str) (src : Source) :
  findSource sources f = Some src -> In src sources /\ filename src = f.
Proof.
  intro H. apply find_some in H as [Hin E]. now apply str_eqb_eq in E.
Qed.

Lemma hasSource_findSource (f : str) :
  hasSource sources f = true -> exists src, findSource sources f = Some src.
Proof.
  intro H. destruct (findSource sources f) as [src|] eqn:E; [now eexists|].
  apply hasSource_true in H as (s & Hin & Hs).
  apply (find_none _ _ E) in Hin. rewrite Hs, str_eqb_refl in Hin. discriminate.
Qed.

Lemma requiredFileName_hasSource (fullRequest f : str) :
  requiredFileName sources fullRequest = Some f -> hasSource sources f = true.
Proof.
  unfold requiredFileName.
  destruct (hasSource sources fullRequest) eqn:E1; [now intros [= <-]|].
  destruct (hasSource sources (fullRequest ++ lit ".js")) eqn:E2; [now intros [= <-]|].
  destruct (hasSource sources (fullRequest ++ lit "/index.js")) eqn:E3;
    [now intros [= <-] | discriminate].
Qed.

Lemma processModule_requests_known (src : Source) (m : Module_) :
  processModule options sources src = Ret (Some m) ->
  forall r, In r (requests m) -> hasSource sources (resolvedFileName r) = true.
Proof.
  intros H r Hin.
  apply processModule_spec in H as (_ & _ & _ & _ & _ & Hall).
  rewrite Forall_forall in Hall. destruct (Hall r Hin) as (_ & _ & Hres & _).
  now apply requiredFileName_hasSource in Hres.
Qed.

Lemma processModule_requests_count (src : Source) (m : Module_) :
  processModule options sources src = Ret (Some m) ->
  length (requests m) <= jsLength src.
Proof.
  unfold processModule, jsLength. destruct (jsContent src) as [jsText|]; [|discriminate].
  destruct (findRequests options sources (S (length jsText)) (filename src) jsText 0 [])
    as [[reqs|]| |] eqn:Efind; try discriminate.
  intros [= <-]. cbn [requests].
  apply findRequests_count in Efind. simpl in Efind. lia.
Qed.

Lemma processModule_finishes (src : Source) :
  jsContent src <> None ->
  exists outcome, processModule options sources src = Ret outcome.
Proof.
  unfold processModule. destruct (jsContent src) as [jsText|]; [|congruence].
  intros _.
  destruct (findRequests_finishes options sources (filename src) jsText
              (S (length jsText)) 0 []) as [[reqs|] E]; [lia | lia | |];
    rewrite E; now eexists.
Qed.

Lemma newFileNames_spec (queue : list str) (m : Module_) (f : str) :
  In f (newFileNames queue m)
  <-> In f (map resolvedFileName (requests m)) /\ ~ In f queue.
Proof.
  unfold newFileNames. rewrite filter_In, negb_true_iff.
  rewrite <- (includes_true queue f).
  destruct (includes queue f); split; intros [Hin Hfresh]; split;
    try assumption; try discriminate; try reflexivity; now exfalso.
Qed.

Lemma Done_grows (queue queue' : list str) (modules modules' : list Module_) (f : str) :
  incl queue queue' -> incl modules modules' ->
  Done options sources queue modules f -> Done options sources queue' modules' f.
Proof.
  intros Hq Hm (src & m & Hfind & Hproc & Hin & Hreq).
  exists src, m. repeat split; auto.
Qed.

(** What a successful traversal leaves: a list of files that holds the
    initial list, is closed under requests, and whose modules are built. *)
Lemma buildLoop_sound :
  forall budget queue moduleIndex modules result,
    buildLoop options sources budget queue moduleIndex modules = Ret (Some result) ->
    (forall f, In f (firstn moduleIndex queue) -> Done options sources queue modules f) ->
    exists finalQueue,
      incl queue finalQueue
      /\ (forall f, In f finalQueue -> Done options sources finalQueue result f)
      /\ (exists rest, result = modules ++ rest).
Proof.
  induction budget as [|budget IH]; intros queue moduleIndex modules result;
    cbn [buildLoop]; destruct (nth_error queue moduleIndex) as [f|] eqn:Enth.
  - discriminate.
  - intros [= <-] Hdone. apply nth_error_None in Enth.
    rewrite firstn_all2 in Hdone by assumption.
    exists queue. repeat split; [apply incl_refl | assumption | exists []; now rewrite app_nil_r].
  - destruct (findSource sources f) as [src|] eqn:Efind; [|discriminate].
    destruct (processModule options sources src) as [[m|]| |] eqn:Eproc; try discriminate.
    intros Hloop Hdone.
    apply IH in Hloop as (finalQueue & Hincl & Hall & rest & ->).
    + exists finalQueue. repeat split.
      * intros x Hx. apply Hincl, in_or_app. now left.
      * assumption.
      * exists (m :: rest). now rewrite <- app_assoc.
    + intros x Hx.
      assert (Hlt : moduleIndex < length queue)
        by (apply nth_error_Some; congruence).
      rewrite firstn_app in Hx.
      replace (S moduleIndex - length queue) with 0 in Hx by lia.
      rewrite firstn_0, app_nil_r in Hx.
      assert (Hsplit : firstn (S moduleIndex) queue = firstn moduleIndex queue ++ [f]).
      { clear - Enth. revert moduleIndex Enth.
        induction queue as [|q queue IHq]; intros [|i] E; simpl in *; try discriminate.
        - now injection E as ->.
        - f_equal. now apply IHq. }
      rewrite Hsplit in Hx. apply in_app_or in Hx as [Hx | [<- | []]].
      * eapply Done_grows; [| |apply Hdone, Hx]; apply incl_appl, incl_refl.
      * exists src, m. repeat split; [assumption | assumption | apply in_or_app; right; now left |].
        intros r Hr. apply in_or_app.
        destruct (includes queue (resolvedFileName r)) eqn:Einc.
        -- left. now apply includes_true.
        -- right. apply newFileNames_spec. split; [now apply in_map|].
           intro Hin. apply includes_true in Hin. congruence.
  - intros [= <-] Hdone. apply nth_error_None in Enth.
    rewrite firstn_all2 in Hdone by assumption.
    exists queue. repeat split; [apply incl_refl | assumption | exists []; now rewrite app_nil_r].
Qed.

Lemma filter_length_strict {A : Type} (p q : A -> bool) (l : list A) (x : A) :
  (forall y, q y = true -> p y = true) ->
  In x l -> p x = true -> q x = false ->
  length (filter q l) < length (filter p l).
Proof.
  intros Hqp. induction l as [|a l IH]; intros Hin Hp Hq; [destruct Hin|].
  assert (Hle : length (filter q l) <= length (filter p l)).
  { clear - Hqp. induction l as [|b l IHl]; simpl; [lia|].
    destruct (q b) eqn:Eq.
    - rewrite (Hqp _ Eq). simpl. lia.
    - destruct (p b); simpl; lia. }
  simpl. destruct Hin as [-> | Hin].
  - rewrite Hp, Hq. simpl. lia.
  - specialize (IH Hin Hp Hq). destruct (q a) eqn:Eq.
    + rewrite (Hqp _ Eq). simpl. lia.
    + destruct (p a); simpl; lia.
Qed.

Lemma includes_app (l1 l2 : list str) (f : str) :
  includes (l1 ++ l2) f = includes l1 f || includes l2 f.
Proof. apply existsb_app. Qed.

Lemma unseen_shrinks (queue new : list str) (f : str) :
  In f new -> hasSource sources f = true -> ~ In f queue ->
  unseen sources (queue ++ new) < unseen sources queue.
Proof.
  intros Hnew Hknown Hfresh. apply hasSource_true in Hknown as (s & Hin & Hs).
  unfold unseen. apply filter_length_strict with (x := s); try assumption.
  - intros y. rewrite includes_app, negb_orb. intro H. now apply andb_prop in H.
  - rewrite Hs. apply negb_true_iff. destruct (includes queue f) eqn:E; [|reflexivity].
    apply includes_true in E. contradiction.
  - rewrite Hs, includes_app. apply negb_false_iff, orb_true_iff. right.
    now apply includes_true.
Qed.

Lemma jsLength_bound (src : Source) :
  In src sources -> jsLength src <= list_max (map jsLength sources).
Proof.
  intro Hin. pose proof (proj1 (list_max_le (map jsLength sources) _) (le_n _)) as Hall.
  rewrite Forall_forall in Hall. apply Hall. now apply in_map.
Qed.

(** The traversal ends within the measure. *)
Lemma buildLoop_finishes :
  Forall (fun s => jsContent s <> None) sources ->
  forall budget queue moduleIndex modules,
    (forall f, In f queue -> hasSource sources f = true) ->
    buildMeasure sources queue moduleIndex <= budget ->
    exists outcome, buildLoop options sources budget queue moduleIndex modules = Ret outcome.
Proof.
  intros Hjs. rewrite Forall_forall in Hjs.
  induction budget as [|budget IH]; intros queue moduleIndex modules Hknown Hmeasure;
    cbn [buildLoop]; destruct (nth_error queue moduleIndex) as [f|] eqn:Enth;
    try (now eexists).
  - assert (moduleIndex < length queue) by (apply nth_error_Some; congruence).
    unfold buildMeasure in Hmeasure. lia.
  - assert (Hlt : moduleIndex < length queue) by (apply nth_error_Some; congruence).
    apply nth_error_In in Enth.
    destruct (hasSource_findSource f (Hknown f Enth)) as [src Efind]. rewrite Efind.
    apply findSource_Some in Efind as [Hsrc _].
    destruct (processModule_finishes src (Hjs src Hsrc)) as [[m|] Eproc]; rewrite Eproc;
      [|now eexists].
    apply IH.
    + intros x Hx. apply in_app_or in Hx as [Hx | Hx]; [now apply Hknown|].
      apply newFileNames_spec in Hx as [Hx _]. apply in_map_iff in Hx as (r & <- & Hr).
      now apply (processModule_requests_known src m).
    + assert (Hcount : length (newFileNames queue m) <= list_max (map jsLength sources)).
      { unfold newFileNames.
        etransitivity; [apply filter_length_le|]. rewrite length_map.
        etransitivity; [now apply processModule_requests_count with (src := src)|].
        now apply jsLength_bound. }
      unfold buildMeasure in *. rewrite length_app.
      destruct (newFileNames queue m) as [|x new] eqn:Enew.
      * rewrite app_nil_r. simpl. lia.
      * assert (Hx : In x (newFileNames queue m)) by (rewrite Enew; now left).
        apply newFileNames_spec in Hx as [Hx Hfresh].
        apply in_map_iff in Hx as (r & <- & Hr).
        pose proof (unseen_shrinks queue (resolvedFileName r :: new) _
                      (or_introl eq_refl)
                      (processModule_requests_known src m Eproc r Hr) Hfresh) as Hshrink.
        remember (unseen sources (queue ++ resolvedFileName r :: new)) as u'.
        remember (unseen sources queue) as u.
        remember (list_max (map jsLength sources)) as k.
        assert (u' * S (S k) + S (S k) <= u * S (S k)) by nia.
        simpl length in *. lia.
Qed.

Lemma unseen_bound (queue : list str) : unseen sources queue <= length sources.
Proof. apply filter_length_le. Qed.

Lemma buildModules_finishes :
  Forall (fun s => jsContent s <> None) sources ->
  hasSource sources (entry options) = true ->
  exists outcome, buildModules options sources = Ret outcome.
Proof.
  intros Hjs Hentry. apply buildLoop_finishes; [assumption | |].
  - intros f [<- | []]. assumption.
  - unfold buildMeasure, buildBudget. pose proof (unseen_bound [entry options]).
    simpl length. nia.
Qed.

(** A successful traversal has processed every reached file. *)
Lemma buildModules_reached (modules : list Module_) :
  buildModules options sources = Ret (Some modules) ->
  forall f, Reached options sources f ->
    exists src m,
      findSource sources f = Some src
      /\ processModule options sources src = Ret (Some m)
      /\ In m modules.
Proof.
  intro Hbuild. apply buildLoop_sound in Hbuild as (finalQueue & Hentry & Hall & _);
    [|intros f []].
  assert (Hin : forall f, Reached options sources f -> In f finalQueue).
  { induction 1 as [|f src m r _ IH Hfind Hproc Hr].
    - apply Hentry. now left.
    - destruct (Hall f IH) as (src' & m' & Hfind' & Hproc' & _ & Hreq).
      rewrite Hfind in Hfind'. injection Hfind' as <-.
      rewrite Hproc in Hproc'. injection Hproc' as <-. now apply Hreq. }
  intros f Hf. destruct (Hall f (Hin f Hf)) as (src & m & ? & ? & ? & _).
  now exists src, m.
Qed.

Lemma findRequests_unresolved (sourceFilename jsText : str) :
  forall lastIndex matchIndex request,
    Detected jsText lastIndex matchIndex request ->
    requiredFileName sources (Path.resolve cwd [Path.dirname sourceFilename; request]) = None ->
    forall budget found,
      lastIndex <= length jsText ->
      length jsText < budget + lastIndex ->
      findRequests options sources budget sourceFilename jsText lastIndex found = Ret None.
Proof.
  intros lastIndex matchIndex request Hdet Hnone.
  induction Hdet as [lastIndex matchIndex request Eexec
                    | lastIndex i0 r0 matchIndex request Eexec _ IH];
    intros [|budget] found Hle Hbudget; try lia; cbn [findRequests]; rewrite Eexec.
  - now rewrite Hnone.
  - destruct (requiredFileName sources (Path.resolve cwd [Path.dirname sourceFilename; r0]))
      as [requiredFile|]; [|reflexivity].
    apply exec_Some in Eexec as (? & _ & ? & _). apply IH; [assumption | lia | lia].
Qed.

Lemma processModule_unresolved (src : Source) (jsText : str) (matchIndex : nat) (request : str) :
  jsContent src = Some jsText ->
  Detected jsText 0 matchIndex request ->
  requiredFileName sources (Path.resolve cwd [Path.dirname (filename src); request]) = None ->
  processModule options sources src = Ret None.
Proof.
  intros Hjs Hdet Hnone. unfold processModule. rewrite Hjs.
  rewrite (findRequests_unresolved _ _ _ _ _ Hdet Hnone); [reflexivity | lia | lia].
Qed.

Lemma requiredFileName_None (fullRequest : str) :
  requiredFileName sources fullRequest = None
  <-> hasSource sources fullRequest = false
      /\ hasSource sources (fullRequest ++ lit ".js") = false
      /\ hasSource sources (fullRequest ++ lit "/index.js") = false.
Proof.
  unfold requiredFileName.
  destruct (hasSource sources fullRequest);
    destruct (hasSource sources (fullRequest ++ lit ".js"));
    destruct (hasSource sources (fullRequest ++ lit "/index.js"));
    intuition discriminate.
Qed.

Lemma requiredFileName_first (fullRequest f : str) :
  requiredFileName sources fullRequest = Some f ->
  FirstKnown sources
    [fullRequest; fullRequest ++ lit ".js"; fullRequest ++ lit "/index.js"] f.
Proof.
  unfold requiredFileName, FirstKnown.
  destruct (hasSource sources fullRequest) eqn:E1.
  { intros [= <-]. exists []. eexists. repeat split; [assumption | constructor]. }
  destruct (hasSource sources (fullRequest ++ lit ".js")) eqn:E2.
  { intros [= <-]. exists [fullRequest]. eexists.
    repeat split; [assumption | now repeat constructor]. }
  destruct (hasSource sources (fullRequest ++ lit "/index.js")) eqn:E3; [|discriminate].
  intros [= <-]. exists [fullRequest; fullRequest ++ lit ".js"], [].
  repeat split; [assumption | now repeat constructor].
Qed.

Lemma requiredFileName_known (fullRequest f : str) :
  FirstKnown sources
    [fullRequest; fullRequest ++ lit ".js"; fullRequest ++ lit "/index.js"] f ->
  requiredFileName sources fullRequest = Some f.
Proof.
  unfold requiredFileName.
  generalize (fullRequest ++ lit ".js") (fullRequest ++ lit "/index.js").
  intros withJs withIndex (before & after & Hsplit & Hknown & Habsent).
  destruct before as [|c1 before].
  { injection Hsplit as <- _. now rewrite Hknown. }
  injection Hsplit as <- Hsplit. inversion Habsent as [|? ? H1 Habsent1]; subst.
  rewrite H1. destruct before as [|c2 before].
  { injection Hsplit as <- _. now rewrite Hknown. }
  injection Hsplit as <- Hsplit. inversion Habsent1 as [|? ? H2 Habsent2]; subst.
  rewrite H2. destruct before as [|c3 before].
  { injection Hsplit as <- _. now rewrite Hknown. }
  injection Hsplit as _ Hsplit. now destruct before.
Qed.

(** A load call of the text is one the scanning loop comes to, when nothing
    stops the loop before. *)
Lemma LoadCallAt_Detected (jsText : str) (i : nat) (request : str) :
  LoadCallAt jsText i request ->
  forall distance lastIndex,
    i - lastIndex < distance -> lastIndex <= i ->
    Detected jsText lastIndex i request.
Proof.
  intro Hcall. induction distance as [|distance IH]; intros lastIndex Hd Hle; [lia|].
  destruct (exec jsText lastIndex) as [[matchIndex found]|] eqn:Eexec.
  - pose proof (exec_Some _ _ _ _ Eexec) as (Hidx & _).
    pose proof (exec_leftmost _ _ _ _ Eexec) as [Hat Hbefore].
    destruct (Nat.lt_ge_cases i matchIndex) as [Hlt | Hge].
    { exfalso. apply (Hbefore i request); [lia | assumption]. }
    destruct (Nat.lt_ge_cases i (matchIndex + length found + 12)) as [Hin | Hout].
    + pose proof (loadCall_apart jsText matchIndex i found request Hat Hcall
                    (conj Hge Hin)) as Hi.
      subst i. rewrite (LoadCallAt_functional _ _ _ _ Hcall Hat).
      now apply Detected_here.
    + eapply Detected_later; [exact Eexec|]. apply IH; lia.
  - exfalso. exact (exec_None _ _ Eexec i request Hle Hcall).
Qed.

Lemma Detected_LoadCallAt (jsText : str) (lastIndex i : nat) (request : str) :
  Detected jsText lastIndex i request -> LoadCallAt jsText i request.
Proof.
  induction 1 as [lastIndex i request Eexec | ]; [|assumption].
  now apply exec_leftmost in Eexec.
Qed.

(** The loop gives up only at a load call none of whose candidates is a
    source. *)
Lemma findRequests_gives_up (sourceFilename jsText : str) :
  forall budget lastIndex found,
    findRequests options sources budget sourceFilename jsText lastIndex found = Ret None ->
    exists i request,
      LoadCallAt jsText i request
      /\ requiredFileName sources (Path.resolve cwd [Path.dirname sourceFilename; request])
         = None.
Proof.
  induction budget as [|budget IH]; intros lastIndex found; cbn [findRequests].
  - discriminate.
  - destruct (exec jsText lastIndex) as [[matchIndex request]|] eqn:Eexec; [|discriminate].
    destruct (requiredFileName sources _) as [requiredFile|] eqn:Ereq.
    + apply IH.
    + intros _. exists matchIndex, request. split; [|assumption].
      now apply exec_leftmost in Eexec.
Qed.

(** [processModule] on a source with content: a module, unless some load
    call of the text has no candidate among the sources. *)
Lemma processModule_resolves (src : Source) (jsText : str) :
  jsContent src = Some jsText ->
  (exists m, processModule options sources src = Ret (Some m))
  \/ (processModule options sources src = Ret None
      /\ exists i request,
           LoadCallAt jsText i request
           /\ requiredFileName sources
                (Path.resolve cwd [Path.dirname (filename src); request]) = None).
Proof.
  intro Hjs. unfold processModule. rewrite Hjs.
  destruct (findRequests_finishes options sources (filename src) jsText
              (S (length jsText)) 0 []) as [[reqs|] Hfind]; try lia; rewrite Hfind.
  - left. now eexists.
  - right. split; [reflexivity|]. now apply findRequests_gives_up in Hfind.
Qed.

End GraphFacts.

(** ** Circular references *)

Section CircularFacts.

Variable modules : list Module_.

Lemma sameName_refl (m : Module_) : sameName m m = true.
Proof. apply str_eqb_refl. Qed.

Lemma requested_Some (moduleName : str) (m : Module_) :
  requested modules moduleName = Some m -> In m modules /\ name m = moduleName.
Proof.
  intro H. apply find_some in H as [Hin E]. now apply str_eqb_eq in E.
Qed.

Lemma onStack_false (loadings : list Module_) (m : Module_) :
  onStack loadings m = false <-> ~ In (name m) (map name loadings).
Proof.
  unfold onStack. split.
  - intros H Hin. apply in_map_iff in Hin as (o & Ho & Hin).
    assert (Hx : existsb (fun o => sameName o m) loadings = true).
    { apply existsb_exists. exists o. split; [assumption|]. now apply str_eqb_eq. }
    congruence.
  - intro H. destruct (existsb _ loadings) eqn:E; [|reflexivity].
    apply existsb_exists in E as (o & Hin & Ho). apply str_eqb_eq in Ho.
    exfalso. apply H. rewrite <- Ho. now apply in_map.
Qed.

(** A loop that returns went through every request: its target was found,
    was not on the stack, and was loaded. *)
Lemma eachRequest_Ret loadModule (loadings : list Module_) :
  (forall t after, loadModule t loadings = Ret after -> after = loadings) ->
  forall reqs after,
    eachRequest loadModule modules reqs loadings = Ret after ->
    after = tl loadings
    /\ (forall r, In r reqs ->
          exists t, requested modules (resolvedModuleName r) = Some t
                    /\ onStack loadings t = false
                    /\ loadModule t loadings = Ret loadings).
Proof.
  intros Hrestore. induction reqs as [|r rest IH]; intros after; cbn [eachRequest].
  - intros [= <-]. split; [reflexivity | intros r []].
  - destruct (requested modules (resolvedModuleName r)) as [t|] eqn:Et; [|discriminate].
    destruct (onStack loadings t) eqn:Estack; [discriminate|].
    destruct (loadModule t loadings) as [after'| |] eqn:Eload; try discriminate.
    pose proof (Hrestore _ _ Eload) as ->.
    intro H. apply IH in H as [-> Hall]. split; [reflexivity|].
    intros r' [<- | Hin]; [now exists t | now apply Hall].
Qed.

(** A loop over known requests either returns or reports the circle, as
    long as the recursive call does. *)
Lemma eachRequest_outcome loadModule (loadings : list Module_) :
  (forall t after, loadModule t loadings = Ret after -> after = loadings) ->
  (forall t, In t modules -> onStack loadings t = false ->
     (exists after, loadModule t loadings = Ret after)
     \/ loadModule t loadings = Raise CircularReference) ->
  forall reqs,
    (forall r, In r reqs -> requested modules (resolvedModuleName r) <> None) ->
    (exists after, eachRequest loadModule modules reqs loadings = Ret after)
    \/ eachRequest loadModule modules reqs loadings = Raise CircularReference.
Proof.
  intros Hrestore Hload. induction reqs as [|r rest IH]; intros Hknown; cbn [eachRequest].
  - left. now eexists.
  - destruct (requested modules (resolvedModuleName r)) as [t|] eqn:Et.
    2: { exfalso. apply (Hknown r); [now left | assumption]. }
    destruct (onStack loadings t) eqn:Estack; [now right|].
    apply requested_Some in Et as [Hin _].
    destruct (Hload t Hin Estack) as [[after Eload] | Eload]; rewrite Eload; [|now right].
    rewrite (Hrestore _ _ Eload). apply IH. intros r' Hr'. apply Hknown. now right.
Qed.

Lemma load_restores :
  forall budget m loadings after,
    load budget modules m loadings = Ret after -> after = loadings.
Proof.
  induction budget as [|budget IH]; intros m loadings after; cbn [load]; [discriminate|].
  intro H. apply eachRequest_Ret in H as [-> _]; [reflexivity|].
  intros t after'. apply IH.
Qed.

(** A load that returns met no module of the stack and no circle. *)
Lemma load_Ret :
  forall budget m loadings after,
    load budget modules m loadings = Ret after ->
    (forall b, Reaches modules m b -> onStack (m :: loadings) b = false)
    /\ (forall a, Reaches modules m a -> ~ Reaches modules a a).
Proof.
  induction budget as [|budget IH]; intros m loadings after; cbn [load]; [discriminate|].
  intro H. apply eachRequest_Ret in H as [_ Hall]; [|intros t after'; apply load_restores].
  assert (Hstep : forall t, Requests modules m t ->
            onStack (m :: loadings) t = false
            /\ load budget modules t (m :: loadings) = Ret (m :: loadings)).
  { intros t (r & Hr & Ht). destruct (Hall r Hr) as (t' & Ht' & Hstack & Hload).
    rewrite Ht in Ht'. injection Ht' as <-. now split. }
  split.
  - intros b Hb. inversion Hb as [? ? Hreq | ? t ? Hreq Hrest]; subst.
    + now apply Hstep.
    + destruct (Hstep t Hreq) as [_ Hload]. apply IH in Hload as [Hoff _].
      specialize (Hoff b Hrest). cbn [onStack existsb] in Hoff.
      now apply orb_false_elim in Hoff as [_ Hoff].
  - intros a Ha. inversion Ha as [? ? Hreq | ? t ? Hreq Hrest]; subst.
    + destruct (Hstep a Hreq) as [_ Hload]. apply IH in Hload as [Hoff _].
      intro Hcycle. specialize (Hoff a Hcycle). cbn [onStack existsb] in Hoff.
      rewrite sameName_refl in Hoff. discriminate.
    + destruct (Hstep t Hreq) as [_ Hload]. apply IH in Hload as [_ Hfree].
      now apply Hfree.
Qed.

Lemma load_entry_free :
  forall budget m loadings after,
    load budget modules m loadings = Ret after -> ~ Reaches modules m m.
Proof.
  intros budget m loadings after H Hcycle.
  apply load_Ret in H as [Hoff _]. specialize (Hoff m Hcycle).
  cbn [onStack existsb] in Hoff. rewrite sameName_refl in Hoff. discriminate.
Qed.

(** With every request known, the stack never outgrows the module list, and
    a load returns or reports the circle. *)
Lemma load_outcome :
  Closed modules ->
  forall budget m loadings,
    In m modules ->
    NoDup (map name (m :: loadings)) ->
    incl (map name loadings) (map name modules) ->
    length modules <= budget + length loadings ->
    (exists after, load budget modules m loadings = Ret after)
    \/ load budget modules m loadings = Raise CircularReference.
Proof.
  intros Hclosed. induction budget as [|budget IH];
    intros m loadings Hin Hnodup Hincl Hbudget; cbn [load].
  - exfalso.
    assert (Hlen : length (map name (m :: loadings)) <= length (map name modules)).
    { apply NoDup_incl_length; [assumption|].
      intros x [<- | Hx]; [now apply in_map | now apply Hincl]. }
    rewrite !length_map in Hlen. simpl in *. lia.
  - apply eachRequest_outcome.
    + intros t after. apply load_restores.
    + intros t Ht Hstack. apply IH.
      * assumption.
      * cbn [map]. constructor; [now apply onStack_false in Hstack | assumption].
      * intros x [<- | Hx]; [now apply in_map | now apply Hincl].
      * simpl. lia.
    + intros r Hr. now apply (Hclosed m).
Qed.

Lemma checkCircularReference_cycle :
  Closed modules -> HasCycle modules -> checkCircularReference modules = Ret true.
Proof.
  intros Hclosed (entryModule & a & Hhead & Hreach & Hcycle).
  unfold checkCircularReference. destruct modules as [|m0 rest] eqn:E; [discriminate|].
  injection Hhead as ->. rewrite <- E in *.
  destruct (load_outcome Hclosed (length modules) entryModule [])
    as [[after Hload] | Hload].
  - rewrite E. now left.
  - cbn [map]. constructor; [intros [] | constructor].
  - intros x [].
  - lia.
  - exfalso. destruct Hreach as [-> | Hreach].
    + now apply load_entry_free in Hload.
    + apply load_Ret in Hload as [_ Hfree]. now apply (Hfree a).
  - now rewrite Hload.
Qed.

Lemma eachRequest_not_exhausted loadModule (loadings : list Module_) :
  (forall t after, loadModule t loadings = Ret after -> after = loadings) ->
  (forall t, In t modules -> onStack loadings t = false ->
     loadModule t loadings <> Exhausted) ->
  forall reqs, eachRequest loadModule modules reqs loadings <> Exhausted.
Proof.
  intros Hrestore Hload. induction reqs as [|r rest IH]; cbn [eachRequest]; [discriminate|].
  destruct (requested modules (resolvedModuleName r)) as [t|] eqn:Et; [|discriminate].
  destruct (onStack loadings t) eqn:Estack; [discriminate|].
  apply requested_Some in Et as [Hin _].
  destruct (loadModule t loadings) as [after|e|] eqn:Eload; [|discriminate|].
  - now rewrite (Hrestore _ _ Eload).
  - now apply Hload in Eload.
Qed.

(** The budget of [load] is never used up: the names on the stack are
    distinct names of the module list. *)
Lemma load_not_exhausted :
  forall budget m loadings,
    In m modules ->
    NoDup (map name (m :: loadings)) ->
    incl (map name loadings) (map name modules) ->
    length modules <= budget + length loadings ->
    load budget modules m loadings <> Exhausted.
Proof.
  induction budget as [|budget IH]; intros m loadings Hin Hnodup Hincl Hbudget; cbn [load].
  - exfalso.
    assert (Hlen : length (map name (m :: loadings)) <= length (map name modules)).
    { apply NoDup_incl_length; [assumption|].
      intros x [<- | Hx]; [now apply in_map | now apply Hincl]. }
    rewrite !length_map in Hlen. simpl in *. lia.
  - apply eachRequest_not_exhausted.
    + intros t after. apply load_restores.
    + intros t Ht Hstack. apply IH.
      * assumption.
      * cbn [map]. constructor; [now apply onStack_false in Hstack | assumption].
      * intros x [<- | Hx]; [now apply in_map | now apply Hincl].
      * simpl. lia.
Qed.

Lemma checkCircularReference_not_exhausted : checkCircularReference modules <> Exhausted.
Proof.
  unfold checkCircularReference. destruct modules as [|m0 rest] eqn:E; [discriminate|].
  rewrite <- E.
  destruct (load (length modules) modules m0 []) as [after|e|] eqn:Eload.
  - discriminate.
  - destruct e; discriminate.
  - exfalso. revert Eload. apply load_not_exhausted.
    + rewrite E. now left.
    + cbn [map]. constructor; [intros [] | constructor].
    + intros x [].
    + lia.
Qed.

End CircularFacts.

(** ** Emission *)

Lemma addShifted_anchored (offset anchor : Z) (mappings : list Mapping) :
  forall added,
    exists emitted,
      fold_left (addShifted offset) mappings (Some anchor, added)
        = (Some anchor, added ++ emitted)
      /\ Forall2 (Reemitted anchor (offset - 1) 2) mappings emitted.
Proof.
  induction mappings as [|mapping rest IH]; intros added; cbn [fold_left].
  - exists []. rewrite app_nil_r. split; [reflexivity | constructor].
  - unfold addShifted at 2. cbn [fst snd].
    destruct (IH (added ++ [mkMapping (Path.resolve cwd [mappingSource mapping])
                              (originalLine mapping) (originalColumn mapping)
                              (generatedLine mapping - anchor + offset + 1)
                              (generatedColumn mapping)]))
      as (emitted & -> & Hall).
    eexists (_ :: emitted). rewrite <- app_assoc. split; [reflexivity|].
    constructor; [|assumption]. split; cbn; [lia | reflexivity].
Qed.

Lemma emitModule_without_map (host : EmitHost) (m : Module_) (added : list Mapping) :
  generator host = Some added ->
  mapContent (source m) = None ->
  emitModule host m = Raise SyntaxError.
Proof.
  intros Hgen Hmap. unfold emitModule. cbn [generator]. now rewrite Hgen, Hmap.
Qed.

Lemma emitModule_keeps_generator (host host' : EmitHost) (m : Module_) :
  emitModule host m = Ret host' ->
  generator host <> None -> generator host' <> None.
Proof.
  unfold emitModule. cbn [generator]. destruct (generator host) as [added|]; [|congruence].
  destruct (mapContent (source m)) as [mapText|]; [|discriminate].
  destruct (consumeMap mapText) as [mappings|]; [|discriminate].
  destruct (content m) as [moduleContent|]; [|discriminate].
  intros [= <-] _. discriminate.
Qed.

Lemma emitModule_not_exhausted (host : EmitHost) (m : Module_) :
  emitModule host m <> Exhausted.
Proof.
  unfold emitModule. cbn [generator]. destruct (generator host) as [added|]; [|discriminate].
  destruct (mapContent (source m)) as [mapText|]; [|discriminate].
  destruct (consumeMap mapText) as [mappings|]; [|discriminate].
  destruct (content m) as [moduleContent|]; discriminate.
Qed.

(** With a generator, emission throws as soon as one module has no map. *)
Lemma emitModules_without_map (modules : list Module_) :
  forall host m,
    generator host <> None ->
    In m modules -> mapContent (source m) = None ->
    exists e, emitModules host modules = Raise e.
Proof.
  induction modules as [|m0 rest IH]; intros host m Hgen Hin Hmap; [destruct Hin|].
  cbn [emitModules]. destruct (emitModule host m0) as [host'|e|] eqn:E.
  - destruct Hin as [-> | Hin].
    + destruct (generator host) as [added|] eqn:Eg; [|congruence].
      rewrite (emitModule_without_map host m added Eg Hmap) in E. discriminate.
    + apply (IH host' m); [|assumption..].
      now apply (emitModule_keeps_generator host host' m0).
  - now exists e.
  - now apply emitModule_not_exhausted in E.
Qed.

(** ** run *)

Lemma run_packed (options : MyPackOptions) (st : PackerState) :
  run options st =
    match packed options (files st) with
    | Ret (Some (modules, bundle)) => finish options st modules bundle
    | Ret None => (Ret failure, st, [])
    | Raise e => (Raise e, st, [])
    | Exhausted => (Exhausted, st, [])
    end.
Proof.
  unfold run, packed, emitAll, finish.
  destruct (negb (hasSource (getSources (files st)) (entry options))); [reflexivity|].
  destruct (buildModules options (getSources (files st))) as [[modules|]|e|]; try reflexivity.
  destruct (checkCircularReference modules) as [[|]|e|]; try reflexivity.
  destruct modules as [|entryModule rest]; [reflexivity|].
  destruct (emitModules _ (entryModule :: rest)) as [host|e|]; try reflexivity.
  cbv zeta.
  destruct (if minify options then _ else _) as [[resultJs resultMap]|]; reflexivity.
Qed.

Lemma getSources_jsContent (inputFiles : list File) :
  Forall (fun s => jsContent s <> None) (getSources inputFiles).
Proof.
  unfold getSources. apply Forall_forall. intros s Hin.
  apply in_map_iff in Hin as (f & <- & _). discriminate.
Qed.

Lemma packed_none_of_build (options : MyPackOptions) (inputFiles : list File) :
  buildModules options (getSources inputFiles) = Ret None ->
  packed options inputFiles = Ret None.
Proof.
  intro H. unfold packed. rewrite H. now destruct (negb _).
Qed.

(** C4. Load-call resolution: for a load call that stands in the text of
    a file the traversal comes to, the target is resolved by trying, in
    order, the resolved path, the path with [.js] and the path with
    [/index.js] among the sources: the lookup gives a target exactly when it
    is the first of the three that names a source; when the file is
    processed to a module, the request recorded for the load call has that
    first candidate as its resolved file; the file is processed to a module
    whenever each of its load calls has a candidate among the sources; and
    when none of the three candidates of the load call names a source, run
    returns success false with hasChange undefined, changes nothing and
    writes no file. *)
Theorem unresolved_request_fails (options : MyPackOptions) (st : PackerState)
    (f : str) (src : Source) (jsText : str) (matchIndex : nat) (request : str) :
  Reached options (getSources (files st)) f ->
  findSource (getSources (files st)) f = Some src ->
  jsContent src = Some jsText ->
  LoadCallAt jsText matchIndex request ->
  (forall target,
      requiredFileName (getSources (files st))
        (Path.resolve cwd [Path.dirname f; request]) = Some target
      <-> FirstKnown (getSources (files st)) (candidates f request) target)
  /\ (forall m,
        processModule options (getSources (files st)) src = Ret (Some m) ->
        exists r,
          In r (requests m) /\ index r = matchIndex /\ raw r = request
          /\ FirstKnown (getSources (files st)) (candidates f request) (resolvedFileName r))
  /\ ((forall i other,
         LoadCallAt jsText i other ->
         exists c, In c (candidates f other) /\ hasSource (getSources (files st)) c = true) ->
      exists m, processModule options (getSources (files st)) src = Ret (Some m))
  /\ (Forall (fun c => hasSource (getSources (files st)) c = false) (candidates f request) ->
      run options st = (Ret (mkResult false None), st, [])).
Proof.
  intros Hreached Hfind Hjs Hcall.
  pose proof (findSource_Some _ _ _ Hfind) as [_ Hname].
  split; [|split; [|split]].
  - intros target. split; [apply requiredFileName_first | apply requiredFileName_known].
  - intros m Hproc.
    destruct (proj1 (processModule_calls options _ src m jsText Hjs Hproc matchIndex request)
                Hcall) as (r & Hr & Hindex & Hraw).
    exists r. repeat split; try assumption.
    pose proof (processModule_spec options _ src m Hproc) as (_ & _ & _ & _ & _ & Hall).
    rewrite Forall_forall in Hall. destruct (Hall r Hr) as (_ & _ & Hres & _).
    rewrite Hraw, Hname in Hres. now apply requiredFileName_first in Hres.
  - intro Hknown.
    destruct (processModule_resolves options (getSources (files st)) src jsText Hjs)
      as [Hmodule | (_ & i & other & Hother & Hnone)]; [assumption | exfalso].
    destruct (Hknown i other Hother) as (c & Hc & Hsource).
    rewrite Hname in Hnone. apply requiredFileName_None in Hnone as (H1 & H2 & H3).
    destruct Hc as [<- | [<- | [<- | []]]]; congruence.
  - intro Hnone. rewrite run_packed.
    assert (Hpacked : packed options (files st) = Ret None); [|now rewrite Hpacked].
    destruct (hasSource (getSources (files st)) (entry options)) eqn:Eentry.
    2: { unfold packed. now rewrite Eentry. }
    apply packed_none_of_build.
    destruct (buildModules_finishes options _ (getSources_jsContent _) Eentry)
      as [[modules|] Hbuild]; [exfalso | assumption].
    destruct (buildModules_reached _ _ modules Hbuild f Hreached)
      as (src' & m & Hfind' & Hproc & _).
    rewrite Hfind in Hfind'. injection Hfind' as <-.
    assert (Hdet : Detected jsText 0 matchIndex request).
    { apply (LoadCallAt_Detected jsText matchIndex request Hcall (S matchIndex)); lia. }
    rewrite (processModule_unresolved options _ src jsText matchIndex request Hjs Hdet)
      in Hproc; [discriminate|].
    apply requiredFileName_None. rewrite Hname.
    unfold candidates in Hnone. inversion Hnone as [|? ? H1 Hrest]; subst.
    inversion Hrest as [|? ? H2 Hrest']; subst. inversion Hrest' as [|? ? H3 _]; subst.
    now repeat split.
Qed.

(** Cycle detection, where module names are enough: when the graph that
    was built has every request naming one of its modules and some module
    the entry reaches by names requests a module that leads back to it, the
    check reports the circular reference and run returns success false,
    changes nothing and writes no file. *)
Lemma circular_reference_fails (options : MyPackOptions) (st : PackerState)
    (modules : list Module_) :
  hasSource (getSources (files st)) (entry options) = true ->
  buildModules options (getSources (files st)) = Ret (Some modules) ->
  Closed modules ->
  HasCycle modules ->
  checkCircularReference modules = Ret true
  /\ run options st = (Ret (mkResult false None), st, []).
Proof.
  intros Hentry Hbuild Hclosed Hcycle.
  pose proof (checkCircularReference_cycle modules Hclosed Hcycle) as Hcheck.
  split; [assumption|].
  rewrite run_packed. unfold packed. now rewrite Hentry, Hbuild, Hcheck.
Qed.

(** C10. Failure atomicity: whenever run returns success false, lastHash,
    lastModules and the input file list are as they were before the run, and
    nothing was written. *)
Theorem run_failure_leaves_state (options : MyPackOptions) (st st' : PackerState)
    (r : MyPackResult) (written : Writes) :
  run options st = (Ret r, st', written) ->
  success r = false ->
  lastHash st' = lastHash st
  /\ lastModules st' = lastModules st
  /\ files st' = files st
  /\ written = []
  /\ hasChange r = None.
Proof.
  rewrite run_packed.
  destruct (packed options (files st)) as [[[modules bundle]|]|e|]; try discriminate.
  - unfold finish. destruct (sourceMap options); [destruct (snd bundle)|];
      intros [= <- <- <-]; discriminate.
  - intros [= <- <- <-] _. now repeat split.
Qed.

(** C6 (amended). Source-map merging: with a generator, every mapping of
    the module's map is added again with its generated line counted from the
    first mapping's line and moved by the line offset the host had before
    this module plus 2 (the module's own opening line is counted before the
    mappings are added), its generated column unchanged; the line offset then
    grows by the opening line and the newlines of the content. *)
Theorem emitModule_remaps (host : EmitHost) (m : Module_) (added : list Mapping)
    (mapText : str) (first : Mapping) (rest : list Mapping) (moduleContent : str) :
  generator host = Some added ->
  mapContent (source m) = Some mapText ->
  consumeMap mapText = Some (first :: rest) ->
  content m = Some moduleContent ->
  exists host' emitted,
    emitModule host m = Ret host'
    /\ generator host' = Some (added ++ emitted)
    /\ Forall2 (Reemitted (generatedLine first) (lineOffset host) 2) (first :: rest) emitted
    /\ lineOffset host'
       = (lineOffset host + 1 + (Z.of_nat (length (splitOn newline moduleContent)) - 1))%Z.
Proof.
  intros Hgen Hmap Hconsume Hcontent. unfold emitModule. cbn [generator lineOffset sb].
  rewrite Hgen, Hmap, Hconsume, Hcontent. cbn [fold_left].
  unfold addShifted at 2. cbn [fst snd].
  destruct (addShifted_anchored (lineOffset host + 1) (generatedLine first) rest
              (added ++ [mkMapping (Path.resolve cwd [mappingSource first])
                           (originalLine first) (originalColumn first)
                           (generatedLine first - generatedLine first
                            + (lineOffset host + 1) + 1)
                           (generatedColumn first)]))
    as (emitted & -> & Hall).
  eexists. eexists (_ :: emitted). cbn [snd generator lineOffset].
  rewrite <- app_assoc. repeat split.
  constructor.
  - split; cbn; [lia | reflexivity].
  - replace (lineOffset host) with (lineOffset host + 1 - 1)%Z at 1 by lia. exact Hall.
Qed.

(** With source maps on, a graph in which one module has no companion map
    makes run throw, before anything is stored or written. *)
Lemma run_without_map_throws (options : MyPackOptions) (st : PackerState)
    (modules : list Module_) (m : Module_) :
  sourceMap options = true ->
  hasSource (getSources (files st)) (entry options) = true ->
  buildModules options (getSources (files st)) = Ret (Some modules) ->
  checkCircularReference modules = Ret false ->
  In m modules -> mapContent (source m) = None ->
  exists e, run options st = (Raise e, st, []).
Proof.
  intros Hmap Hentry Hbuild Hcheck Hin Hnone.
  rewrite run_packed. unfold packed, emitAll. rewrite Hentry, Hbuild, Hcheck, Hmap.
  cbn [negb]. destruct modules as [|entryModule rest]; [destruct Hin|].
  destruct (emitModules_without_map (entryModule :: rest)
              (emitRuntimePrefix options (mkHost [] (Some []) 0) (name entryModule))
              m) as [e He]; try assumption.
  - unfold emitRuntimePrefix. cbn [generator]. destruct (shebang options); discriminate.
  - rewrite He. now exists e.
Qed.

(** ** Module names *)

Section Names.

Variable options : MyPackOptions.

Lemma stripIndex_index : stripIndex (lit "index") = lit ".".
Proof. reflexivity. Qed.

Lemma stripIndex_directory (d : str) :
  stripIndex (d ++ lit "/index") = d ++ lit "/".
Proof.
  unfold stripIndex.
  replace (d ++ lit "/index") with ((d ++ lit "/") ++ lit "index")
    by (now rewrite <- app_assoc).
  rewrite endsWith_app. change 5 with (length (lit "index")).
  rewrite sliceDropEnd_app, length_app. simpl length.
  replace (length d + 1) with (S (length d)) by lia. reflexivity.
Qed.

Lemma stripIndex_other (b : str) :
  b <> [] -> endsWith b (lit "index") = false -> stripIndex b = b.
Proof.
  intros Hb He. unfold stripIndex. rewrite He. now destruct b.
Qed.

Lemma endsWith_true_split (s suffix : str) :
  endsWith s suffix = true -> s = sliceDropEnd s (length suffix) ++ suffix.
Proof.
  unfold endsWith, sliceDropEnd. intro H. apply andb_prop in H as [_ H].
  apply str_eqb_eq in H.
  transitivity (firstn (length s - length suffix) s ++ skipn (length s - length suffix) s).
  - symmetry. apply firstn_skipn.
  - f_equal. exact H.
Qed.

Lemma endsWith_Stripped (s suffix : str) :
  Stripped suffix s (if endsWith s suffix then sliceDropEnd s (length suffix) else s).
Proof.
  destruct (endsWith s suffix) eqn:E.
  - left. exists (sliceDropEnd s (length suffix)). split; [|reflexivity].
    now apply endsWith_true_split.
  - right. split; [|reflexivity]. intros t ->. rewrite endsWith_app in E. discriminate.
Qed.

Lemma Stripped_functional (suffix s a b : str) :
  Stripped suffix s a -> Stripped suffix s b -> a = b.
Proof.
  intros [(t & Hs & ->) | [Hnone ->]] [(t' & Hs' & ->) | [Hnone' ->]].
  - rewrite Hs in Hs'. now apply app_inv_tail in Hs'.
  - exfalso. now apply (Hnone' t).
  - exfalso. now apply (Hnone t').
  - reflexivity.
Qed.

Lemma NameRule_functional (relativePath a b : str) :
  NameRule relativePath a -> NameRule relativePath b -> a = b.
Proof.
  intros (stem & base & H1 & H2 & ->) (stem' & base' & H1' & H2' & ->).
  pose proof (Stripped_functional _ _ _ _ H1 H1') as <-.
  now pose proof (Stripped_functional _ _ _ _ H2 H2') as <-.
Qed.

Lemma stripIndex_rule (stem : str) :
  exists base,
    Stripped (lit "index") stem base
    /\ stripIndex stem = match base with [] => lit "." | _ :: _ => base end.
Proof.
  exists (if endsWith stem (lit "index") then sliceDropEnd stem 5 else stem).
  split; [apply (endsWith_Stripped stem (lit "index"))|].
  unfold stripIndex. destruct (if endsWith stem (lit "index") then sliceDropEnd stem 5 else stem); reflexivity.
Qed.

Lemma moduleNameOf_NameRule (f : str) :
  NameRule (Path.relative cwd (entryDirectory options) f) (moduleNameOf options f).
Proof.
  unfold moduleNameOf, NameRule.
  set (rel := Path.relative cwd (entryDirectory options) f).
  exists (if endsWith rel (lit ".js") then sliceDropEnd rel 3 else rel).
  destruct (stripIndex_rule (if endsWith rel (lit ".js") then sliceDropEnd rel 3 else rel))
    as (base & Hbase & Hname).
  exists base. repeat split; [apply (endsWith_Stripped rel (lit ".js")) | assumption..].
Qed.

Lemma requiredModuleNameOf_NameRule (f stem : str) :
  Path.relative cwd (entryDirectory options) f = stem ++ lit ".js" ->
  NameRule (Path.relative cwd (entryDirectory options) f) (requiredModuleNameOf options f).
Proof.
  intro Hrel. unfold requiredModuleNameOf, NameRule. rewrite Hrel.
  change 3 with (length (lit ".js")). rewrite sliceDropEnd_app.
  destruct (stripIndex_rule stem) as (base & Hbase & Hname).
  exists stem, base. repeat split; [|assumption..].
  left. now exists stem.
Qed.

(** C1 (amended). Module naming: the name of a processed source is the
    path relative to the entry file's directory with the [.js] extension
    stripped and then a trailing [index] stripped (these five characters
    only: a separator before them stays, and so does what precedes them in a
    longer file name), the empty result being the single dot; no other name
    fits the rule. The name recorded for a request is computed from the path
    of its resolved file with the last three characters dropped unchecked
    and then a trailing [index] stripped: the same rule, whenever that path
    ends in [.js]. *)
Theorem module_name_rule (sources : list Source) (src : Source) (m : Module_) :
  processModule options sources src = Ret (Some m) ->
  NameRule (Path.relative cwd (Path.dirname (entry options)) (filename src)) (name m)
  /\ (forall other,
        NameRule (Path.relative cwd (Path.dirname (entry options)) (filename src)) other ->
        other = name m)
  /\ Forall (fun r =>
               (exists base,
                   Stripped (lit "index")
                     (sliceDropEnd
                        (Path.relative cwd (Path.dirname (entry options))
                           (resolvedFileName r)) 3) base
                   /\ resolvedModuleName r
                      = match base with [] => lit "." | _ :: _ => base end)
               /\ forall stem,
                    Path.relative cwd (Path.dirname (entry options)) (resolvedFileName r)
                    = stem ++ lit ".js" ->
                    NameRule
                      (Path.relative cwd (Path.dirname (entry options))
                         (resolvedFileName r))
                      (resolvedModuleName r)) (requests m).
Proof.
  intro H. pose proof (processModule_spec options sources src m H)
    as (_ & _ & _ & _ & _ & Hall).
  assert (Hname : NameRule (Path.relative cwd (Path.dirname (entry options)) (filename src))
                    (name m)).
  { unfold processModule in H. destruct (jsContent src); [|discriminate].
    destruct (findRequests _ _ _ _ _ _ _) as [[reqs|]| |]; try discriminate.
    injection H as <-. apply moduleNameOf_NameRule. }
  split; [assumption|]. split.
  - intros other Hother. exact (NameRule_functional _ _ _ Hother Hname).
  - rewrite Forall_forall in *. intros r Hr.
    destruct (Hall r Hr) as (_ & _ & _ & ->). split.
    + apply stripIndex_rule.
    + intros stem Hrel. now apply (requiredModuleNameOf_NameRule _ stem).
Qed.

End Names.

(** ** The scenarios *)


(** C8. With source maps enabled and no companion map for the entry, run
    throws instead of completing: the missing map is not skipped. *)
Theorem missing_map_throws :
  run (Examples.options "/e.js" true) (Examples.start Examples.noMapFiles)
  = (Raise SyntaxError, Examples.start Examples.noMapFiles, []).
Proof. vm_compute. reflexivity. Qed.

(** C9. An entry that requires the same file twice gets that file's module
    twice: the names of the graph are not pairwise distinct (the first module
    is the entry's). *)
Theorem repeated_request_duplicates :
  exists entryModule m1 m2,
    buildModules (Examples.options "/e.js" false) (getSources Examples.twiceFiles)
      = Ret (Some [entryModule; m1; m2])
    /\ filename (source entryModule) = lit "/e.js"
    /\ name m1 = lit "a"
    /\ name m2 = lit "a"
    /\ ~ NoDup (map name [entryModule; m1; m2])
    /\ fst (fst (run (Examples.options "/e.js" false) (Examples.start Examples.twiceFiles)))
       = Ret (mkResult true (Some true)).
Proof.
  do 3 eexists. vm_compute. repeat split.
  intro H. inversion H as [|? ? _ H']. inversion H' as [|? ? Hin _]. apply Hin. now left.
Qed.

(** C5. A circle of files that the check misses: [/re.js] and
    [/reindex.js] both get the module name [re], and the check looks modules
    up by name, first match. The entry [/e.js] requires [./re] and
    [./reindex], and [/reindex.js] requires the entry back: while the entry is
    loaded, a module it reaches requests it. The check finds [/re.js] for
    both requests, reports no circular reference, and run writes the
    bundle. *)
Theorem name_collision_hides_circle :
  exists entryModule reModule reindexModule bundle,
    buildModules (Examples.options "/e.js" false) (getSources Examples.collisionFiles)
      = Ret (Some [entryModule; reModule; reindexModule])
    /\ (fileOf entryModule = lit "/e.js"
        /\ fileOf reModule = lit "/re.js"
        /\ fileOf reindexModule = lit "/reindex.js")
    /\ (name reModule = lit "re" /\ name reindexModule = lit "re")
    /\ FileRequests [entryModule; reModule; reindexModule] entryModule reindexModule
    /\ FileRequests [entryModule; reModule; reindexModule] reindexModule entryModule
    /\ HasFileCycle [entryModule; reModule; reindexModule]
    /\ checkCircularReference [entryModule; reModule; reindexModule] = Ret false
    /\ run (Examples.options "/e.js" false) (Examples.start Examples.collisionFiles)
       = (Ret (mkResult true (Some true)),
          mkState (Some (sha256 bundle))
            (Some (map clearModule [entryModule; reModule; reindexModule]))
            Examples.collisionFiles,
          [(lit "/out.js", bundle)]).
Proof.
  do 4 eexists. split; [vm_compute; reflexivity|].
  split; [vm_compute; repeat split|]. split; [vm_compute; repeat split|].
  match goal with
  | |- ?there /\ ?back /\ _ => assert (Hgo : there); [|assert (Hback : back)]
  end.
  - split; [right; right; left; reflexivity|].
    eexists. split; [right; left; reflexivity | vm_compute; reflexivity].
  - split; [left; reflexivity|].
    eexists. split; [left; reflexivity | vm_compute; reflexivity].
  - split; [exact Hgo|]. split; [exact Hback|]. split.
    + eexists. eexists. split; [reflexivity|]. split; [now left|].
      eapply FileReaches_more; [exact Hgo | apply FileReaches_one; exact Hback].
    + split; vm_compute; reflexivity.
Qed.

(** The check can also throw: when the entry lies below a directory that has
    the name of a required file, the name recorded for the request is not the
    name of the file's module, the lookup by name finds nothing, and run
    throws a TypeError although the two files require each other. *)
Lemma unnamed_request_throws :
  run (Examples.options "/a.js/b/e.js" false) (Examples.start Examples.nestedFiles)
  = (Raise TypeError, Examples.start Examples.nestedFiles, []).
Proof. vm_compute. reflexivity. Qed.

(** ** Cleanup of the file list *)

Lemma file_eqb_eq (a b : File) : file_eqb a b = true <-> a = b.
Proof.
  unfold file_eqb. rewrite andb_true_iff, !str_eqb_eq.
  destruct a, b; cbn. split; [intros [-> ->] | intros [= -> ->]]; auto.
Qed.

Lemma isUnused_keptName (modules : list Module_) (f : File) :
  isUnused modules f = negb (keptName modules (file_name f)).
Proof. unfold isUnused, keptName, fileOf. now rewrite negb_orb. Qed.

Lemma spliceOut_first (kept rest : list File) (x : File) :
  ~ In x kept -> spliceOut (kept ++ x :: rest) x = kept ++ rest.
Proof.
  unfold spliceOut. intro Hfresh.
  assert (Hindex : indexOf (kept ++ x :: rest) x = Some (length kept)).
  { induction kept as [|k kept IH]; cbn [indexOf List.app length].
    - replace (file_eqb x x) with true; [reflexivity|].
      symmetry. now apply file_eqb_eq.
    - destruct (file_eqb k x) eqn:E.
      + apply file_eqb_eq in E. exfalso. apply Hfresh. now left.
      + rewrite IH; [reflexivity|]. intro. apply Hfresh. now right. }
  rewrite Hindex. clear. induction kept as [|k kept IH]; cbn; [reflexivity|].
  now rewrite IH.
Qed.

(** The splices of [cleanupMemoryFile] leave the files that are not unused,
    in their order. *)
Lemma cleanupMemoryFile_filter (modules : list Module_) (inputFiles : list File) :
  cleanupMemoryFile modules inputFiles
  = filter (fun f => keptName modules (file_name f)) inputFiles.
Proof.
  unfold cleanupMemoryFile.
  assert (H : forall rest kept,
             Forall (fun f => keptName modules (file_name f) = true) kept ->
             fold_left spliceOut (filter (isUnused modules) rest) (kept ++ rest)
             = kept ++ filter (fun f => keptName modules (file_name f)) rest).
  { induction rest as [|x rest IH]; intros kept Hkept; cbn [filter fold_left].
    - reflexivity.
    - rewrite isUnused_keptName.
      destruct (keptName modules (file_name x)) eqn:E; cbn [negb fold_left].
      + replace (kept ++ x :: rest) with ((kept ++ [x]) ++ rest)
          by (now rewrite <- app_assoc).
        rewrite IH; [now rewrite <- app_assoc|].
        apply Forall_app. split; [assumption | now repeat constructor].
      + rewrite spliceOut_first; [now apply IH|].
        intro Hin. rewrite Forall_forall in Hkept. apply Hkept in Hin. congruence. }
  apply (H inputFiles []). constructor.
Qed.

Lemma find_filter_same {A : Type} (p q : A -> bool) (l : list A) :
  (forall x, p x = true -> q x = true) -> find p (filter q l) = find p l.
Proof.
  intro Hpq. induction l as [|x l IH]; cbn [filter find]; [reflexivity|].
  destruct (q x) eqn:Eq; cbn [find].
  - now rewrite IH.
  - destruct (p x) eqn:Ep; [|assumption]. apply Hpq in Ep. congruence.
Qed.

Lemma find_map_filter {A B : Type} (h : A -> B) (p : B -> bool) (q : A -> bool) (l : list A) :
  find p (map h (filter q l)) = option_map h (find (fun x => q x && p (h x)) l).
Proof.
  induction l as [|x l IH]; cbn [filter map find]; [reflexivity|].
  destruct (q x); cbn [map find andb]; [|assumption].
  destruct (p (h x)); [reflexivity | assumption].
Qed.

Lemma findSource_getSources (inputFiles : list File) (f : str) :
  findSource (getSources inputFiles) f
  = option_map (toSource inputFiles)
      (find (fun g => endsWith (file_name g) (lit ".js") && str_eqb (file_name g) f)
         inputFiles).
Proof. unfold findSource, getSources. apply (find_map_filter (toSource inputFiles)). Qed.

Lemma hasSource_getSources (inputFiles : list File) (f : str) :
  hasSource (getSources inputFiles) f = true
  <-> exists g, In g inputFiles /\ endsWith (file_name g) (lit ".js") = true
                /\ file_name g = f.
Proof.
  rewrite hasSource_true. unfold getSources. split.
  - intros (s & Hin & Hs). apply in_map_iff in Hin as (g & <- & Hg).
    apply filter_In in Hg as [Hg Hjs]. now exists g.
  - intros (g & Hg & Hjs & Hname). exists (toSource inputFiles g). split; [|assumption].
    apply in_map_iff. exists g. split; [reflexivity|]. now apply filter_In.
Qed.

(** A file whose name and whose map's name are kept gives the same source
    before and after the cleanup. *)
Lemma findSource_cleanup (modules : list Module_) (inputFiles : list File) (f : str) :
  keptName modules f = true ->
  keptName modules (f ++ lit ".map") = true ->
  findSource (getSources (cleanupMemoryFile modules inputFiles)) f
  = findSource (getSources inputFiles) f.
Proof.
  intros Hf Hmap. rewrite cleanupMemoryFile_filter, !findSource_getSources.
  rewrite find_filter_same.
  2: { intros g Hg. apply andb_prop in Hg as [_ Hg]. apply str_eqb_eq in Hg. now subst. }
  destruct (find _ inputFiles) as [g|] eqn:Efind; [|reflexivity].
  apply find_some in Efind as [_ Hg]. apply andb_prop in Hg as [_ Hg].
  apply str_eqb_eq in Hg. cbn [option_map]. unfold toSource. do 3 f_equal.
  apply find_filter_same. intros x Hx. apply str_eqb_eq in Hx. now rewrite Hx, Hg.
Qed.

Lemma hasSource_cleanup (modules : list Module_) (inputFiles : list File) (f : str) :
  hasSource (getSources (cleanupMemoryFile modules inputFiles)) f = true ->
  hasSource (getSources inputFiles) f = true.
Proof.
  rewrite cleanupMemoryFile_filter, !hasSource_getSources.
  intros (g & Hin & ?). exists g. apply filter_In in Hin as [Hin _]. now split.
Qed.

Lemma cleanupMemoryFile_again (modules : list Module_) (inputFiles : list File) :
  cleanupMemoryFile modules (cleanupMemoryFile modules inputFiles)
  = cleanupMemoryFile modules inputFiles.
Proof.
  rewrite !cleanupMemoryFile_filter.
  induction inputFiles as [|x l IH]; cbn [filter]; [reflexivity|].
  destruct (keptName modules (file_name x)) eqn:E; cbn [filter]; [|assumption].
  now rewrite E, IH.
Qed.

Lemma emitModules_not_exhausted (modules : list Module_) :
  forall host, emitModules host modules <> Exhausted.
Proof.
  induction modules as [|m rest IH]; intros host; cbn [emitModules]; [discriminate|].
  destruct (emitModule host m) as [host'|e|] eqn:E; [apply IH | discriminate |].
  now apply emitModule_not_exhausted in E.
Qed.

(** The budgets of the model are never used up: [run] settles. *)
Lemma run_not_exhausted (options : MyPackOptions) (st : PackerState) :
  fst (fst (run options st)) <> Exhausted.
Proof.
  rewrite run_packed. unfold packed.
  destruct (hasSource (getSources (files st)) (entry options)) eqn:Eentry; cbn [negb];
    [|discriminate].
  destruct (buildModules_finishes options _ (getSources_jsContent _) Eentry)
    as [[modules|] Hbuild]; rewrite Hbuild; [|discriminate].
  pose proof (checkCircularReference_not_exhausted modules) as Hcheck.
  destruct (checkCircularReference modules) as [[|]|e|]; try discriminate; [|congruence].
  unfold emitAll. destruct modules as [|entryModule rest]; [discriminate|].
  pose proof (emitModules_not_exhausted (entryModule :: rest)
                (emitRuntimePrefix options
                   (mkHost [] (if sourceMap options then Some [] else None) 0)
                   (name entryModule))) as Hemit.
  destruct (emitModules _ (entryModule :: rest)) as [host|e|]; try discriminate;
    [|congruence].
  cbv zeta. destruct (if minify options then _ else _) as [bundle|]; [|discriminate].
  unfold finish. destruct (sourceMap options); [destruct (snd bundle)|]; discriminate.
Qed.

(** ** Packing the same files again *)

Section Again.

Variable options : MyPackOptions.

Lemma processModule_source (sources : list Source) (src : Source) (m : Module_) :
  processModule options sources src = Ret (Some m) -> source m = src.
Proof.
  unfold processModule. destruct (jsContent src); [|discriminate].
  destruct (findRequests _ _ _ _ _ _ _) as [[reqs|]| |]; try discriminate.
  now intros [= <-].
Qed.

Lemma firstn_succ_nth (queue : list str) (i : nat) (f : str) :
  nth_error queue i = Some f -> firstn (S i) queue = firstn i queue ++ [f].
Proof.
  revert i. induction queue as [|q queue IH]; intros [|i] E; simpl in *; try discriminate.
  - now injection E as ->.
  - f_equal. now apply IH.
Qed.

(** The modules of a successful traversal are good, their files are the
    final list of the loop, and their requests stay inside that list. *)
Lemma buildLoop_graph (sources : list Source) :
  forall budget queue moduleIndex modules result,
    buildLoop options sources budget queue moduleIndex modules = Ret (Some result) ->
    map fileOf modules = firstn moduleIndex queue ->
    (forall m, In m modules ->
       Good options sources m /\ forall r, In r (requests m) -> In (resolvedFileName r) queue) ->
    incl queue (map fileOf result)
    /\ (forall m, In m result ->
          Good options sources m
          /\ forall r, In r (requests m) -> In (resolvedFileName r) (map fileOf result)).
Proof.
  induction budget as [|budget IH]; intros queue moduleIndex modules result;
    cbn [buildLoop]; destruct (nth_error queue moduleIndex) as [f|] eqn:Enth;
    try discriminate.
  - intros [= <-] Hfiles Hgood. apply nth_error_None in Enth.
    rewrite firstn_all2 in Hfiles by assumption. rewrite Hfiles.
    split; [apply incl_refl | assumption].
  - destruct (findSource sources f) as [src|] eqn:Efind; [|discriminate].
    destruct (processModule options sources src) as [[m|]| |] eqn:Eproc; try discriminate.
    intros Hloop Hfiles Hgood.
    assert (Hlt : moduleIndex < length queue) by (apply nth_error_Some; congruence).
    pose proof (processModule_source _ _ _ Eproc) as Hsrc.
    pose proof (findSource_Some _ _ _ Efind) as [_ Hname].
    apply IH in Hloop as [Hincl Hall].
    + split; [|assumption]. intros x Hx. apply Hincl, in_or_app. now left.
    + rewrite map_app, firstn_app, Hfiles.
      replace (S moduleIndex - length queue) with 0 by lia.
      rewrite firstn_0, app_nil_r, (firstn_succ_nth _ _ _ Enth).
      cbn [map]. unfold fileOf. now rewrite Hsrc, Hname.
    + intros x Hx. apply in_app_or in Hx as [Hx | [<- | []]].
      * destruct (Hgood x Hx) as [Hg Hreq]. split; [assumption|].
        intros r Hr. apply in_or_app. left. now apply Hreq.
      * split.
        -- unfold Good, fileOf. rewrite Hsrc, Hname. now split.
        -- intros r Hr. apply in_or_app.
           destruct (includes queue (resolvedFileName r)) eqn:Einc.
           ++ left. now apply includes_true.
           ++ right. apply newFileNames_spec. split; [now apply in_map|].
              intro Hin. apply includes_true in Hin. congruence.
  - intros [= <-] Hfiles Hgood. apply nth_error_None in Enth.
    rewrite firstn_all2 in Hfiles by assumption. rewrite Hfiles.
    split; [apply incl_refl | assumption].
Qed.

Lemma buildLoop_extends (sources : list Source) :
  forall budget queue moduleIndex modules result,
    buildLoop options sources budget queue moduleIndex modules = Ret (Some result) ->
    exists rest, result = modules ++ rest.
Proof.
  induction budget as [|budget IH]; intros queue moduleIndex modules result;
    cbn [buildLoop]; destruct (nth_error queue moduleIndex) as [f|]; try discriminate;
    try (intros [= <-]; exists []; now rewrite app_nil_r).
  destruct (findSource sources f) as [src|]; [|discriminate].
  destruct (processModule options sources src) as [[m|]| |]; try discriminate.
  intro H. apply IH in H as [rest ->]. exists (m :: rest). now rewrite <- app_assoc.
Qed.

Lemma buildLoop_more_budget (sources : list Source) :
  forall budget budget' queue moduleIndex modules outcome,
    buildLoop options sources budget queue moduleIndex modules = Ret outcome ->
    budget <= budget' ->
    buildLoop options sources budget' queue moduleIndex modules = Ret outcome.
Proof.
  induction budget as [|budget IH]; intros budget' queue moduleIndex modules outcome;
    cbn [buildLoop].
  - destruct (nth_error queue moduleIndex) as [f|] eqn:Enth; [discriminate|].
    intros H _. destruct budget'; cbn [buildLoop]; now rewrite Enth.
  - intros H Hle. destruct budget' as [|budget']; [lia|]. cbn [buildLoop].
    destruct (nth_error queue moduleIndex) as [f|]; [|assumption].
    destruct (findSource sources f) as [src|]; [|assumption].
    destruct (processModule options sources src) as [[m|]| |]; try assumption.
    apply IH; [assumption | lia].
Qed.

Section Agreement.

(** [sources'] has no name [sources] lacks. *)
Variables sources sources' : list Source.
Hypothesis fewer : forall c, hasSource sources' c = true -> hasSource sources c = true.

Lemma requiredFileName_agree (fullRequest target : str) :
  requiredFileName sources fullRequest = Some target ->
  hasSource sources' target = true ->
  requiredFileName sources' fullRequest = Some target.
Proof.
  unfold requiredFileName.
  assert (Hnot : forall c, hasSource sources c = false -> hasSource sources' c = false).
  { intros c Hc. destruct (hasSource sources' c) eqn:E; [|reflexivity].
    apply fewer in E. congruence. }
  destruct (hasSource sources fullRequest) eqn:E1.
  { intros [= <-] ->. reflexivity. }
  rewrite (Hnot _ E1).
  destruct (hasSource sources (fullRequest ++ lit ".js")) eqn:E2.
  { intros H Hin. assert (E : target = fullRequest ++ lit ".js") by congruence.
    rewrite E in Hin. now rewrite Hin. }
  rewrite (Hnot _ E2).
  destruct (hasSource sources (fullRequest ++ lit "/index.js")) eqn:E3; [|discriminate].
  intros H Hin. assert (E : target = fullRequest ++ lit "/index.js") by congruence.
  rewrite E in Hin. now rewrite Hin.
Qed.

Lemma findRequests_agree (sourceFilename jsText : str) :
  forall budget lastIndex found reqs,
    findRequests options sources budget sourceFilename jsText lastIndex found
      = Ret (Some reqs) ->
    (forall r, In r reqs -> hasSource sources' (resolvedFileName r) = true) ->
    findRequests options sources' budget sourceFilename jsText lastIndex found
      = Ret (Some reqs).
Proof.
  induction budget as [|budget IH]; intros lastIndex found reqs; cbn [findRequests];
    [discriminate|].
  destruct (exec jsText lastIndex) as [[matchIndex request]|]; [|trivial].
  destruct (requiredFileName sources _) as [requiredFile|] eqn:Ereq; [|discriminate].
  intros H Hknown.
  assert (Hin : hasSource sources' requiredFile = true).
  { pose proof H as H'. apply findRequests_placed_prefix in H' as [new ->].
    apply (Hknown (mkRequest matchIndex request requiredFile
                     (requiredModuleNameOf options requiredFile))).
    apply in_or_app. left. apply in_or_app. right. now left. }
  rewrite (requiredFileName_agree _ _ Ereq Hin). now apply IH.
Qed.

Lemma processModule_agree (src : Source) (m : Module_) :
  processModule options sources src = Ret (Some m) ->
  (forall r, In r (requests m) -> hasSource sources' (resolvedFileName r) = true) ->
  processModule options sources' src = Ret (Some m).
Proof.
  unfold processModule. destruct (jsContent src) as [jsText|]; [|discriminate].
  destruct (findRequests options sources _ _ _ _ _) as [[reqs|]| |] eqn:Efind;
    try discriminate.
  intros [= <-] Hknown. cbn [requests] in Hknown.
  now rewrite (findRequests_agree _ _ _ _ _ _ Efind Hknown).
Qed.

Lemma buildLoop_agree :
  forall budget queue moduleIndex modules result,
    buildLoop options sources budget queue moduleIndex modules = Ret (Some result) ->
    (forall m, In m result ->
       Good options sources m
       /\ findSource sources' (fileOf m) = Some (source m)
       /\ forall r, In r (requests m) -> hasSource sources' (resolvedFileName r) = true) ->
    buildLoop options sources' budget queue moduleIndex modules = Ret (Some result).
Proof.
  induction budget as [|budget IH]; intros queue moduleIndex modules result;
    cbn [buildLoop]; destruct (nth_error queue moduleIndex) as [f|]; trivial;
    try discriminate.
  destruct (findSource sources f) as [src|] eqn:Efind; [|discriminate].
  destruct (processModule options sources src) as [[m|]| |] eqn:Eproc; try discriminate.
  intros Hloop Hall.
  pose proof (buildLoop_extends _ _ _ _ _ _ Hloop) as [rest Hrest].
  assert (Hin : In m result).
  { rewrite Hrest. apply in_or_app. left. apply in_or_app. right. now left. }
  destruct (Hall m Hin) as (_ & Hfind' & Hknown).
  pose proof (processModule_source _ _ _ Eproc) as Hsrc.
  pose proof (findSource_Some _ _ _ Efind) as [_ Hname].
  unfold fileOf in Hfind'. rewrite Hsrc, Hname in Hfind'. rewrite Hfind'.
  rewrite (processModule_agree _ _ Eproc Hknown). now apply IH.
Qed.

End Agreement.

Lemma buildModules_graph (sources : list Source) (modules : list Module_) :
  buildModules options sources = Ret (Some modules) ->
  In (entry options) (map fileOf modules)
  /\ (forall m, In m modules ->
        Good options sources m
        /\ forall r, In r (requests m) -> In (resolvedFileName r) (map fileOf modules)).
Proof.
  intro H. apply buildLoop_graph in H as [Hincl Hall]; [| reflexivity | intros m []].
  split; [apply Hincl; now left | assumption].
Qed.

Lemma processModule_name (sources : list Source) (src : Source) (m : Module_) :
  processModule options sources src = Ret (Some m) ->
  name m = moduleNameOf options (filename src).
Proof.
  unfold processModule. destruct (jsContent src); [|discriminate].
  destruct (findRequests _ _ _ _ _ _ _) as [[reqs|]| |]; try discriminate.
  now intros [= <-].
Qed.

(** The graph that is built is closed as long as the relative path of each
    of its files keeps the extension (it does unless a file is named like a
    directory above the entry). *)
Lemma buildModules_closed (sources : list Source) (modules : list Module_) :
  buildModules options sources = Ret (Some modules) ->
  (forall m, In m modules ->
     endsWith (Path.relative cwd (Path.dirname (entry options)) (fileOf m)) (lit ".js")
     = true) ->
  Closed modules.
Proof.
  intros Hbuild Hjs m r Hm Hr.
  pose proof (buildModules_graph _ _ Hbuild) as [_ Hall].
  destruct (Hall m Hm) as [[_ Hproc] Hreq].
  apply Hreq in Hr as Hfile. apply in_map_iff in Hfile as (m' & Hfile & Hm').
  destruct (Hall m' Hm') as [[_ Hproc'] _].
  apply processModule_name in Hproc'.
  apply processModule_spec in Hproc as (_ & _ & _ & _ & _ & Hres).
  rewrite Forall_forall in Hres. destruct (Hres r Hr) as (_ & _ & _ & Hname).
  assert (E : name m' = resolvedModuleName r).
  { rewrite Hproc', Hname, <- Hfile. unfold moduleNameOf, requiredModuleNameOf, entryDirectory.
    fold (fileOf m'). now rewrite (Hjs m' Hm'). }
  intro Hnone. apply (find_none _ _ Hnone) in Hm'. rewrite E, str_eqb_refl in Hm'.
  discriminate.
Qed.

(** The first module of the graph is the entry's. *)
Lemma buildModules_entry_first (sources : list Source) (modules : list Module_) :
  buildModules options sources = Ret (Some modules) ->
  exists entryModule rest,
    modules = entryModule :: rest /\ fileOf entryModule = entry options.
Proof.
  unfold buildModules, buildBudget. cbn [buildLoop nth_error].
  destruct (findSource sources (entry options)) as [src|] eqn:Efind; [|discriminate].
  destruct (processModule options sources src) as [[m|]| |] eqn:Eproc; try discriminate.
  intro H. apply buildLoop_extends in H as [rest ->]. exists m, rest.
  split; [reflexivity|]. unfold fileOf.
  rewrite (processModule_source _ _ _ Eproc). now apply findSource_Some in Efind.
Qed.

Lemma keptName_file (modules : list Module_) (m : Module_) :
  In m modules ->
  keptName modules (fileOf m) = true
  /\ keptName modules (fileOf m ++ lit ".map") = true.
Proof.
  intro Hin. unfold keptName. split; apply orb_true_iff; [left | right];
    apply existsb_exists; exists m; (split; [assumption | apply str_eqb_refl]).
Qed.

Lemma findSource_hasSource (sources : list Source) (f : str) (src : Source) :
  findSource sources f = Some src -> hasSource sources f = true.
Proof.
  intro H. apply findSource_Some in H as [Hin Hname].
  apply hasSource_true. now exists src.
Qed.

(** The graph is built again, the same, from the cleaned file list. *)
Lemma buildModules_cleanup (inputFiles : list File) (modules : list Module_) :
  buildModules options (getSources inputFiles) = Ret (Some modules) ->
  buildModules options (getSources (cleanupMemoryFile modules inputFiles))
  = Ret (Some modules).
Proof.
  intro Hbuild. pose proof (buildModules_graph _ _ Hbuild) as [Hentry Hall].
  set (sources := getSources inputFiles) in *.
  set (sources' := getSources (cleanupMemoryFile modules inputFiles)).
  assert (Hfind : forall m, In m modules ->
            findSource sources' (fileOf m) = Some (source m)).
  { intros m Hm. destruct (keptName_file modules m Hm) as [Hk Hkm].
    unfold sources'. rewrite (findSource_cleanup modules inputFiles _ Hk Hkm).
    now apply Hall. }
  assert (Hknown : forall f, In f (map fileOf modules) -> hasSource sources' f = true).
  { intros f Hf. apply in_map_iff in Hf as (m & <- & Hm).
    now apply (findSource_hasSource _ _ (source m)), Hfind. }
  destruct (buildModules_finishes options sources' (getSources_jsContent _)
              (Hknown _ Hentry)) as [outcome Hbuild'].
  unfold buildModules in *.
  set (budget := Nat.max (buildBudget sources) (buildBudget sources')).
  apply buildLoop_more_budget with (budget' := budget) in Hbuild; [|lia].
  apply (buildLoop_agree sources sources') in Hbuild.
  - pose proof (buildLoop_more_budget _ _ budget _ _ _ _ Hbuild' ltac:(lia)) as Hsame.
    rewrite Hbuild in Hsame. injection Hsame as <-. assumption.
  - intro c. apply hasSource_cleanup.
  - intros m Hm. destruct (Hall m Hm) as [Hgood Hreq]. repeat split.
    + apply Hgood.
    + apply Hgood.
    + now apply Hfind.
    + intros r Hr. now apply Hknown, Hreq.
Qed.

Lemma packed_cleanup (inputFiles : list File) (modules : list Module_)
    (bundle : str * option str) :
  packed options inputFiles = Ret (Some (modules, bundle)) ->
  packed options (cleanupMemoryFile modules inputFiles) = Ret (Some (modules, bundle)).
Proof.
  unfold packed.
  destruct (hasSource (getSources inputFiles) (entry options)) eqn:Eentry;
    cbn [negb]; [|discriminate].
  destruct (buildModules options (getSources inputFiles)) as [[ms|]| |] eqn:Ebuild;
    try discriminate.
  destruct (checkCircularReference ms) as [[|]| |] eqn:Echeck; try discriminate.
  destruct (emitAll options ms) as [b| |] eqn:Eemit; try discriminate.
  intros [= <- <-].
  pose proof (buildModules_graph _ _ Ebuild) as [Hin _].
  pose proof (buildModules_cleanup _ _ Ebuild) as Hbuild'.
  assert (Hentry' : hasSource (getSources (cleanupMemoryFile ms inputFiles)) (entry options)
                    = true).
  { unfold buildModules, buildBudget in Hbuild'. cbn [buildLoop nth_error] in Hbuild'.
    destruct (findSource (getSources (cleanupMemoryFile ms inputFiles)) (entry options))
      as [src|] eqn:Efind; [|discriminate].
    now apply findSource_hasSource in Efind. }
  now rewrite Hentry', Hbuild', Echeck, Eemit.
Qed.

Lemma optionStrEqb_same (hash : str) : optionStrEqb (Some hash) hash = true.
Proof. apply str_eqb_refl. Qed.

(** C7. Hash stability and unconditional write: after a successful run,
    whatever its change flag, the bundle text is written to the output file
    and its hash is kept; and a second run of the same packer on the file
    list as the first run left it (or on the list as it was given to the
    first run) returns hasChange false, writes the same texts and leaves the
    packer as it was. *)
Theorem repeated_run_unchanged (st st1 : PackerState) (hasChange1 : option bool)
    (written : Writes) :
  run options st = (Ret (mkResult true hasChange1), st1, written) ->
  (exists modules bundle rest,
      packed options (files st) = Ret (Some (modules, bundle))
      /\ written = (output options, fst bundle) :: rest
      /\ lastHash st1 = Some (sha256 (fst bundle)))
  /\ run options st1 = (Ret (mkResult true (Some false)), st1, written)
  /\ run options (mkState (lastHash st1) (lastModules st1) (files st))
     = (Ret (mkResult true (Some false)), st1, written).
Proof.
  rewrite !run_packed. cbn [files].
  destruct (packed options (files st)) as [[[modules bundle]|]|e|] eqn:Epacked;
    try discriminate.
  pose proof (packed_cleanup _ _ _ Epacked) as Hclean.
  unfold finish at 1.
  intro H.
  assert (Hst1 : lastHash st1 = Some (sha256 (fst bundle))
                 /\ lastModules st1 = Some (map clearModule modules)
                 /\ files st1 = match cleanupFiles options with
                                | Some false => files st
                                | _ => cleanupMemoryFile modules (files st)
                                end).
  { destruct (sourceMap options); [destruct (snd bundle)|]; try discriminate;
      injection H as _ <- _; now repeat split. }
  destruct Hst1 as (Hhash & Hmods & Hfs).
  assert (Hpacked1 : packed options (files st1) = Ret (Some (modules, bundle))).
  { rewrite Hfs. destruct (cleanupFiles options) as [[|]|]; assumption. }
  rewrite Hpacked1. unfold finish. cbn [lastHash files].
  rewrite Hhash, optionStrEqb_same. cbn [negb].
  assert (Hfs1 : match cleanupFiles options with
                 | Some false => files st1
                 | _ => cleanupMemoryFile modules (files st1)
                 end = files st1).
  { rewrite Hfs. destruct (cleanupFiles options) as [[|]|]; try reflexivity;
      apply cleanupMemoryFile_again. }
  rewrite Hfs1, <- Hfs, <- Hmods, <- Hhash.
  destruct (sourceMap options); [destruct (snd bundle) as [mapText|]|]; try discriminate;
    injection H as _ _ <-;
    (split; [exists modules, bundle; eexists; repeat split; assumption|]);
    destruct st1; split; reflexivity.
Qed.

End Again.

(** ** More on the circular-reference check *)

Section CircularExact.

Variable modules : list Module_.

Lemma requested_canonical (moduleName : str) (t : Module_) :
  requested modules moduleName = Some t -> Canonical modules t.
Proof.
  intro H. pose proof (requested_Some _ _ _ H) as [_ Hname].
  unfold Canonical. now rewrite Hname.
Qed.

Lemma canonical_same (a b : Module_) :
  Canonical modules a -> Canonical modules b -> sameName a b = true -> a = b.
Proof.
  unfold Canonical, sameName. intros Ha Hb E. apply str_eqb_eq in E.
  rewrite E in Ha. congruence.
Qed.

Lemma Reaches_then (a b c : Module_) :
  Reaches modules a b -> Requests modules b c -> Reaches modules a c.
Proof.
  induction 1 as [a b Hab | a t b Hat _ IH]; intro Hbc.
  - eapply Reaches_more; [exact Hab | now apply Reaches_one].
  - eapply Reaches_more; [exact Hat | now apply IH].
Qed.

Lemma chain_reaches (loadings : list Module_) :
  forall m o, Chain modules (m :: loadings) -> In o loadings -> Reaches modules o m.
Proof.
  induction loadings as [|lower rest IH]; intros m o Hchain Hin; [destruct Hin|].
  destruct Hchain as [Hreq Hrest]. destruct Hin as [<- | Hin].
  - now apply Reaches_one.
  - eapply Reaches_then; [exact (IH lower o Hrest Hin) | exact Hreq].
Qed.

Lemma eachRequest_circular loadModule (loadings : list Module_) :
  (forall t after, loadModule t loadings = Ret after -> after = loadings) ->
  forall reqs,
    eachRequest loadModule modules reqs loadings = Raise CircularReference ->
    exists r t,
      In r reqs
      /\ requested modules (resolvedModuleName r) = Some t
      /\ (onStack loadings t = true \/ loadModule t loadings = Raise CircularReference).
Proof.
  intros Hrestore. induction reqs as [|r rest IH]; cbn [eachRequest]; [discriminate|].
  destruct (requested modules (resolvedModuleName r)) as [t|] eqn:Et; [|discriminate].
  destruct (onStack loadings t) eqn:Estack.
  - intros _. exists r, t. repeat split; [now left | assumption | now left].
  - destruct (loadModule t loadings) as [after|e|] eqn:Eload.
    + rewrite (Hrestore _ _ Eload). intro H. apply IH in H as (r' & t' & Hin & Ht' & Hor).
      exists r', t'. repeat split; [now right | assumption | assumption].
    + intros [= ->]. exists r, t. repeat split; [now left | assumption | now right].
    + discriminate.
Qed.

(** A load that reports a circle found one: a module that leads back to
    itself, on the stack or reached from the module being loaded. *)
Lemma load_circular :
  forall budget m loadings,
    load budget modules m loadings = Raise CircularReference ->
    Chain modules (m :: loadings) ->
    Forall (Canonical modules) (m :: loadings) ->
    exists c,
      Reaches modules c c /\ (In c (m :: loadings) \/ Reaches modules m c).
Proof.
  induction budget as [|budget IH]; intros m loadings; cbn [load]; [discriminate|].
  intros H Hchain Hcanon.
  apply eachRequest_circular in H as (r & t & Hr & Ht & Hor);
    [|intros t after; apply load_restores].
  assert (Hreq : Requests modules m t) by (now exists r).
  pose proof (requested_canonical _ _ Ht) as Hcanon_t.
  destruct Hor as [Hstack | Hload].
  - apply existsb_exists in Hstack as (o & Ho & Hsame).
    rewrite Forall_forall in Hcanon.
    pose proof (canonical_same o t (Hcanon o Ho) Hcanon_t Hsame) as ->.
    exists t. split; [|now left].
    destruct Ho as [-> | Ho].
    + now apply Reaches_one.
    + eapply Reaches_then; [apply (chain_reaches loadings m t Hchain Ho) | exact Hreq].
  - apply IH in Hload as (c & Hcycle & Hwhere).
    + exists c. split; [assumption|].
      destruct Hwhere as [[<- | Hin] | Hreach].
      * right. now apply Reaches_one.
      * now left.
      * right. eapply Reaches_more; [exact Hreq | exact Hreach].
    + cbn [Chain]. now split.
    + now constructor.
Qed.

Lemma head_canonical (m0 : Module_) (rest : list Module_) :
  modules = m0 :: rest -> Canonical modules m0.
Proof.
  intros ->. unfold Canonical, requested. cbn [find]. now rewrite str_eqb_refl.
Qed.

Lemma checkCircularReference_unfold (m0 : Module_) (rest : list Module_) :
  modules = m0 :: rest ->
  checkCircularReference modules =
    match load (length modules) modules m0 [] with
    | Ret _ => Ret false
    | Raise CircularReference => Ret true
    | Raise e => Raise e
    | Exhausted => Exhausted
    end.
Proof. intros ->. reflexivity. Qed.

Lemma checkCircularReference_true :
  checkCircularReference modules = Ret true -> HasCycle modules.
Proof.
  intro H.
  assert (Hne : exists m0 rest, modules = m0 :: rest).
  { revert H. unfold checkCircularReference. destruct modules as [|m0 rest];
      [discriminate | now eexists; eexists]. }
  destruct Hne as (m0 & rest & E). rewrite (checkCircularReference_unfold m0 rest E) in H.
  destruct (load (length modules) modules m0 []) as [after|e|] eqn:Eload;
    try discriminate.
  destruct e; try discriminate.
  apply load_circular in Eload as (c & Hcycle & Hwhere).
  - exists m0, c. split; [now rewrite E|]. split; [|assumption].
    destruct Hwhere as [[<- | []] | Hreach]; [now left | now right].
  - exact I.
  - constructor; [now apply (head_canonical m0 rest) | constructor].
Qed.

Lemma closed_acyclic_passes :
  Closed modules -> modules <> [] -> ~ HasCycle modules ->
  checkCircularReference modules = Ret false.
Proof.
  intros Hclosed Hne Hfree.
  assert (Hcons : exists m0 rest, modules = m0 :: rest).
  { destruct modules as [|m0 rest]; [congruence | now eexists; eexists]. }
  destruct Hcons as (m0 & rest & E).
  destruct (checkCircularReference modules) as [[|]|e|] eqn:Echeck.
  - exfalso. now apply Hfree, checkCircularReference_true.
  - reflexivity.
  - exfalso. rewrite (checkCircularReference_unfold m0 rest E) in Echeck.
    destruct (load_outcome modules Hclosed (length modules) m0 []) as [[after Hl] | Hl].
    + rewrite E. now left.
    + cbn [map]. constructor; [intros [] | constructor].
    + intros x [].
    + lia.
    + rewrite Hl in Echeck. discriminate.
    + rewrite Hl in Echeck. discriminate.
  - exfalso. now apply (checkCircularReference_not_exhausted modules).
Qed.

(** *** Names against files *)

Lemma requested_In (m : Module_) :
  In m modules -> exists found, requested modules (name m) = Some found.
Proof.
  intro Hin. unfold requested.
  destruct (find (fun x => str_eqb (name x) (name m)) modules) as [found|] eqn:E;
    [now exists found|].
  pose proof (find_none _ _ E m Hin) as Hno. cbn in Hno.
  now rewrite str_eqb_refl in Hno.
Qed.

Lemma Coherent_requested (m : Module_) :
  Coherent modules -> In m modules -> requested modules (name m) = Some m.
Proof.
  intros [Hnames _] Hin. destruct (requested_In m Hin) as [found Hfound].
  pose proof (requested_Some _ _ _ Hfound) as [Hfin Hfname].
  now rewrite (Hnames found m Hfin Hin Hfname) in Hfound.
Qed.

Lemma Coherent_Closed : Coherent modules -> Closed modules.
Proof.
  intros Hco m r Hm Hr. pose proof Hco as (_ & _ & Hreq).
  destruct (Hreq m r Hm Hr) as (b & Hb & _ & <-).
  now rewrite (Coherent_requested b Hco Hb).
Qed.

(** In a coherent list, the lookup by name follows the file of the
    request. *)
Lemma Requests_by_file (a b : Module_) :
  Coherent modules -> In a modules ->
  (Requests modules a b <-> FileRequests modules a b).
Proof.
  intros Hco Ha. pose proof Hco as (Hnames & Hfiles & Hreq). split.
  - intros (r & Hr & Hfound).
    pose proof (requested_Some _ _ _ Hfound) as [Hb Hname].
    destruct (Hreq a r Ha Hr) as (b' & Hb' & Hfile & Hname').
    assert (b' = b) as -> by (apply Hnames; congruence).
    split; [assumption|]. now exists r.
  - intros [Hb (r & Hr & Hfile)]. exists r. split; [assumption|].
    destruct (Hreq a r Ha Hr) as (b' & Hb' & Hfile' & Hname').
    assert (b' = b) as -> by (apply Hfiles; congruence).
    rewrite <- Hname'. now apply Coherent_requested.
Qed.

Lemma Reaches_In (a b : Module_) : Reaches modules a b -> In b modules.
Proof.
  induction 1 as [a b (r & _ & Hfound) | a t b _ _ IH]; [|assumption].
  now apply requested_Some in Hfound.
Qed.

Lemma FileReaches_In (a b : Module_) : FileReaches modules a b -> In b modules.
Proof.
  induction 1 as [a b [Hb _] | a t b _ _ IH]; assumption.
Qed.

Lemma Reaches_by_file (a b : Module_) :
  Coherent modules -> In a modules ->
  (Reaches modules a b <-> FileReaches modules a b).
Proof.
  intros Hco Ha. split.
  - intro H. induction H as [a b Hab | a t b Hat _ IH].
    + apply FileReaches_one. now apply Requests_by_file.
    + apply Requests_by_file in Hat; [|assumption..].
      eapply FileReaches_more; [exact Hat|]. apply IH. now destruct Hat.
  - intro H. induction H as [a b Hab | a t b Hat _ IH].
    + apply Reaches_one. now apply Requests_by_file.
    + eapply Reaches_more; [apply Requests_by_file; eassumption|].
      apply IH. now destruct Hat.
Qed.

Lemma HasCycle_by_file : Coherent modules -> (HasCycle modules <-> HasFileCycle modules).
Proof.
  intro Hco.
  assert (Hhead : forall entryModule, hd_error modules = Some entryModule ->
                                      In entryModule modules).
  { intros entryModule. destruct modules as [|m0 rest]; [discriminate|].
    intros [= ->]. now left. }
  split; intros (entryModule & a & Hhd & Hreach & Hcycle); exists entryModule, a;
    (split; [assumption|]); pose proof (Hhead _ Hhd) as Hentry.
  - assert (Ha : In a modules)
      by (destruct Hreach as [-> | Hreach]; [assumption | now apply Reaches_In in Hreach]).
    split; [|now apply Reaches_by_file].
    destruct Hreach as [-> | Hreach]; [now left | right; now apply Reaches_by_file].
  - assert (Ha : In a modules)
      by (destruct Hreach as [-> | Hreach];
          [assumption | now apply FileReaches_In in Hreach]).
    split; [|now apply Reaches_by_file].
    destruct Hreach as [-> | Hreach]; [now left | right; now apply Reaches_by_file].
Qed.

(** A list whose requests go down a ranking has no circle of files. *)
Lemma ranked_has_no_cycle (rank : Module_ -> nat) :
  (forall a b, In a modules -> FileRequests modules a b -> rank b < rank a) ->
  ~ HasFileCycle modules.
Proof.
  intros Hrank (entryModule & a & Hhd & Hreach & Hcycle).
  assert (Hdown : forall x y, FileReaches modules x y -> In x modules -> rank y < rank x).
  { intros x y H. induction H as [x y Hxy | x t y Hxt _ IH]; intro Hx.
    - now apply Hrank.
    - pose proof (Hrank x t Hx Hxt). destruct Hxt as [Ht _]. specialize (IH Ht). lia. }
  assert (Ha : In a modules).
  { destruct Hreach as [-> | Hreach]; [|now apply FileReaches_In in Hreach].
    destruct modules as [|m0 rest]; [discriminate|]. injection Hhd as ->. now left. }
  pose proof (Hdown a a Hcycle Ha). lia.
Qed.

(** X1. On a module list in which names and files identify the modules
    and each request carries the file and the name of a module of the list,
    the check reports a circular reference exactly when there is one among
    the files: the entry, or a module whose file the entry reaches through
    requests, has a file that leads back to itself. *)
Theorem circular_report_is_sound :
  Coherent modules ->
  (checkCircularReference modules = Ret true <-> HasFileCycle modules).
Proof.
  intro Hco. split.
  - intro H. apply HasCycle_by_file; [assumption|]. now apply checkCircularReference_true.
  - intro H. apply checkCircularReference_cycle; [now apply Coherent_Closed|].
    now apply HasCycle_by_file.
Qed.

(** X2. A non-empty module list in which names and files identify the
    modules, each request carries the file and the name of a module of the
    list, and no file reached from the entry leads back to itself passes the
    check: the result is false, and nothing is thrown. *)
Theorem acyclic_graph_passes :
  Coherent modules -> modules <> [] -> ~ HasFileCycle modules ->
  checkCircularReference modules = Ret false.
Proof.
  intros Hco Hne Hfree. apply closed_acyclic_passes; [now apply Coherent_Closed | assumption|].
  intro H. apply Hfree. now apply HasCycle_by_file.
Qed.

End CircularExact.

(** ** More on the module graph and the file list *)

Section GraphExact.

Variable options : MyPackOptions.

Lemma buildLoop_only_reached (sources : list Source) :
  forall budget queue moduleIndex modules result,
    buildLoop options sources budget queue moduleIndex modules = Ret (Some result) ->
    (forall f, In f queue -> Reached options sources f) ->
    (forall m, In m modules -> Reached options sources (fileOf m)) ->
    forall m, In m result -> Reached options sources (fileOf m).
Proof.
  induction budget as [|budget IH]; intros queue moduleIndex modules result;
    cbn [buildLoop]; destruct (nth_error queue moduleIndex) as [f|] eqn:Enth;
    try discriminate; try (intros [= <-]; auto).
  destruct (findSource sources f) as [src|] eqn:Efind; [|discriminate].
  destruct (processModule options sources src) as [[m|]| |] eqn:Eproc; try discriminate.
  intros Hloop Hqueue Hmodules.
  assert (Hf : Reached options sources f) by (apply Hqueue; eapply nth_error_In; eauto).
  apply (IH _ _ _ _ Hloop).
  - intros x Hx. apply in_app_or in Hx as [Hx | Hx]; [now apply Hqueue|].
    apply newFileNames_spec in Hx as [Hx _]. apply in_map_iff in Hx as (r & <- & Hr).
    now apply (Reached_request options sources f src m r).
  - intros x Hx. apply in_app_or in Hx as [Hx | [<- | []]]; [now apply Hmodules|].
    unfold fileOf. rewrite (processModule_source _ _ _ _ Eproc).
    apply findSource_Some in Efind as [_ ->]. assumption.
Qed.

(** X3. The graph holds the files reached from the entry and no others: a
    file has a module in the list exactly when it is the entry or the target
    of a request of a file that has one. *)
Theorem graph_is_reached_files (sources : list Source) (modules : list Module_) :
  buildModules options sources = Ret (Some modules) ->
  forall f, In f (map fileOf modules) <-> Reached options sources f.
Proof.
  intros Hbuild f. split.
  - intro Hin. apply in_map_iff in Hin as (m & <- & Hm).
    apply (buildLoop_only_reached _ _ _ _ _ _ Hbuild); [ | intros x [] | assumption].
    intros x [<- | []]. constructor.
  - intro Hreached.
    destruct (buildModules_reached _ _ _ Hbuild f Hreached) as (src & m & Hfind & Hproc & Hm).
    apply in_map_iff. exists m. split; [|assumption]. unfold fileOf.
    rewrite (processModule_source _ _ _ _ Hproc). now apply findSource_Some in Hfind.
Qed.

(** X4. Building the graph always ends, and never throws: from a file list
    that holds the entry, although the list of file names grows while it is
    walked, the result is a module list or the null of an unresolved
    request. *)
Theorem graph_building_settles (inputFiles : list File) :
  hasSource (getSources inputFiles) (entry options) = true ->
  exists outcome, buildModules options (getSources inputFiles) = Ret outcome.
Proof.
  intro Hentry. apply buildModules_finishes; [apply getSources_jsContent | assumption].
Qed.

Lemma findSource_filtered (keep : str -> bool) (inputFiles : list File) (f : str) :
  keep f = true ->
  keep (f ++ lit ".map") = true ->
  findSource (getSources (filter (fun g => keep (file_name g)) inputFiles)) f
  = findSource (getSources inputFiles) f.
Proof.
  intros Hf Hmap. rewrite !findSource_getSources.
  rewrite find_filter_same.
  2: { intros g Hg. apply andb_prop in Hg as [_ Hg]. apply str_eqb_eq in Hg. now subst. }
  destruct (find _ inputFiles) as [g|] eqn:Efind; [|reflexivity].
  apply find_some in Efind as [_ Hg]. apply andb_prop in Hg as [_ Hg].
  apply str_eqb_eq in Hg. cbn [option_map]. unfold toSource. do 3 f_equal.
  apply find_filter_same. intros x Hx. apply str_eqb_eq in Hx. now rewrite Hx, Hg.
Qed.

Lemma hasSource_filtered (keep : File -> bool) (inputFiles : list File) (f : str) :
  hasSource (getSources (filter keep inputFiles)) f = true ->
  hasSource (getSources inputFiles) f = true.
Proof.
  rewrite !hasSource_getSources.
  intros (g & Hin & ?). exists g. apply filter_In in Hin as [Hin _]. now split.
Qed.

(** The graph is built again, the same, from a file list that lost only
    files the graph does not name. *)
Lemma buildModules_filtered (keep : str -> bool) (inputFiles : list File)
    (modules : list Module_) :
  buildModules options (getSources inputFiles) = Ret (Some modules) ->
  (forall n, keptName modules n = true -> keep n = true) ->
  buildModules options (getSources (filter (fun g => keep (file_name g)) inputFiles))
  = Ret (Some modules).
Proof.
  intros Hbuild Hkeep. pose proof (buildModules_graph _ _ _ Hbuild) as [Hentry Hall].
  set (sources := getSources inputFiles) in *.
  set (sources' := getSources (filter (fun g => keep (file_name g)) inputFiles)).
  assert (Hfind : forall m, In m modules ->
            findSource sources' (fileOf m) = Some (source m)).
  { intros m Hm. destruct (keptName_file modules m Hm) as [Hk Hkm].
    unfold sources'. rewrite (findSource_filtered keep inputFiles _ (Hkeep _ Hk) (Hkeep _ Hkm)).
    now apply Hall. }
  assert (Hknown : forall f, In f (map fileOf modules) -> hasSource sources' f = true).
  { intros f Hf. apply in_map_iff in Hf as (m & <- & Hm).
    now apply (findSource_hasSource _ _ (source m)), Hfind. }
  destruct (buildModules_finishes options sources' (getSources_jsContent _)
              (Hknown _ Hentry)) as [outcome Hbuild'].
  unfold buildModules in *.
  set (budget := Nat.max (buildBudget sources) (buildBudget sources')).
  apply buildLoop_more_budget with (budget' := budget) in Hbuild; [|lia].
  apply (buildLoop_agree options sources sources') in Hbuild.
  - pose proof (buildLoop_more_budget _ _ _ budget _ _ _ _ Hbuild' ltac:(lia)) as Hsame.
    rewrite Hbuild in Hsame. injection Hsame as <-. assumption.
  - intro c. apply hasSource_filtered.
  - intros m Hm. destruct (Hall m Hm) as [Hgood Hreq]. repeat split.
    + apply Hgood.
    + apply Hgood.
    + now apply Hfind.
    + intros r Hr. now apply Hknown, Hreq.
Qed.

Lemma packed_filtered (keep : str -> bool) (inputFiles : list File)
    (modules : list Module_) (bundle : str * option str) :
  packed options inputFiles = Ret (Some (modules, bundle)) ->
  (forall n, keptName modules n = true -> keep n = true) ->
  packed options (filter (fun g => keep (file_name g)) inputFiles)
  = Ret (Some (modules, bundle)).
Proof.
  unfold packed.
  destruct (hasSource (getSources inputFiles) (entry options)) eqn:Eentry;
    cbn [negb]; [|discriminate].
  destruct (buildModules options (getSources inputFiles)) as [[ms|]| |] eqn:Ebuild;
    try discriminate.
  destruct (checkCircularReference ms) as [[|]| |] eqn:Echeck; try discriminate.
  destruct (emitAll options ms) as [b| |] eqn:Eemit; try discriminate.
  intros [= <- <-] Hkeep.
  pose proof (buildModules_filtered keep _ _ Ebuild Hkeep) as Hbuild'.
  assert (Hentry' : hasSource (getSources (filter (fun g => keep (file_name g)) inputFiles))
                      (entry options) = true).
  { unfold buildModules, buildBudget in Hbuild'. cbn [buildLoop nth_error] in Hbuild'.
    destruct (findSource (getSources (filter (fun g => keep (file_name g)) inputFiles))
                (entry options)) as [src|] eqn:Efind; [|discriminate].
    now apply findSource_hasSource in Efind. }
  now rewrite Hentry', Hbuild', Echeck, Eemit.
Qed.

Lemma keptName_cleared (modules : list Module_) (n : str) :
  keptName (map clearModule modules) n = keptName modules n.
Proof.
  unfold keptName. f_equal; induction modules as [|m rest IH]; cbn [map existsb];
    try reflexivity; now rewrite IH.
Qed.

Lemma run_success_packed (st st1 : PackerState) (r : MyPackResult) (written : Writes) :
  run options st = (Ret r, st1, written) ->
  success r = true ->
  exists modules bundle,
    packed options (files st) = Ret (Some (modules, bundle))
    /\ finish options st modules bundle = (Ret r, st1, written).
Proof.
  rewrite run_packed.
  destruct (packed options (files st)) as [[[modules bundle]|]|e|]; try discriminate.
  - intros H _. now exists modules, bundle.
  - intros [= <- _ _]. discriminate.
Qed.

(** X5. Files the bundle does not use do not matter: after a successful
    run, running from the same packer state on a file list that lost any
    files other than those of the stored modules and their maps returns the
    same result, writes the same texts and stores the same hash and
    modules. *)
Theorem unused_files_do_not_matter (keep : str -> bool) (st st1 : PackerState)
    (r : MyPackResult) (written : Writes) (stored : list Module_) :
  run options st = (Ret r, st1, written) ->
  success r = true ->
  lastModules st1 = Some stored ->
  (forall n, keptName stored n = true -> keep n = true) ->
  exists st1',
    run options (mkState (lastHash st) (lastModules st)
                   (filter (fun g => keep (file_name g)) (files st)))
    = (Ret r, st1', written)
    /\ lastHash st1' = lastHash st1
    /\ lastModules st1' = lastModules st1.
Proof.
  intros Hrun Hok Hstored Hkeep.
  destruct (run_success_packed _ _ _ _ Hrun Hok) as (modules & bundle & Hpacked & Hfinish).
  assert (Hst : stored = map clearModule modules).
  { unfold finish in Hfinish.
    destruct (sourceMap options); [destruct (snd bundle)|]; try discriminate;
      injection Hfinish as _ <- _; cbn [lastModules] in Hstored; congruence. }
  subst stored.
  assert (Hkeep' : forall n, keptName modules n = true -> keep n = true).
  { intros n Hn. apply Hkeep. now rewrite keptName_cleared. }
  rewrite run_packed. cbn [files].
  rewrite (packed_filtered keep _ _ _ Hpacked Hkeep').
  unfold finish in *. cbn [lastHash files].
  destruct (sourceMap options); [destruct (snd bundle)|]; try discriminate;
    injection Hfinish as <- <- <-; eexists; repeat split.
Qed.

(** X6. The splices of cleanupMemoryFile remove exactly the files that are
    neither the file of a module nor the map of one; the files left keep
    their order, and cleaning a cleaned list changes nothing. *)
Theorem cleanup_keeps_module_files (modules : list Module_) (inputFiles : list File) :
  cleanupMemoryFile modules inputFiles
  = filter (fun f => keptName modules (file_name f)) inputFiles
  /\ cleanupMemoryFile modules (cleanupMemoryFile modules inputFiles)
     = cleanupMemoryFile modules inputFiles.
Proof. split; [apply cleanupMemoryFile_filter | apply cleanupMemoryFile_again]. Qed.

End GraphExact.

(** ** More on emission *)

Lemma lineBreaks_app (a b : str) : lineBreaks (a ++ b) = lineBreaks a + lineBreaks b.
Proof. unfold lineBreaks. now rewrite filter_app, length_app. Qed.

Lemma splitOn_length (s : str) : length (splitOn newline s) = S (lineBreaks s).
Proof.
  unfold lineBreaks. induction s as [|c s IH]; cbn [splitOn filter]; [reflexivity|].
  rewrite (Ascii.eqb_sym newline c). destruct (Ascii.eqb c newline).
  - cbn [length]. now rewrite IH.
  - destruct (splitOn newline s) as [|x xs]; [discriminate|]. exact IH.
Qed.

Lemma emitRuntimePrefix_sb (options : MyPackOptions) (host : EmitHost)
    (generator' : option (list Mapping)) (offset : Z) (entryModuleName : str) :
  sb (emitRuntimePrefix options (mkHost (sb host) generator' offset) entryModuleName)
  = sb (emitRuntimePrefix options host entryModuleName).
Proof. unfold emitRuntimePrefix. cbn [sb]. now destruct (shebang options). Qed.

Lemma emitRuntimePrefix_offset (options : MyPackOptions) (generator0 : option (list Mapping))
    (entryModuleName : str) :
  lineBreaks entryModuleName = 0 ->
  lineOffset (emitRuntimePrefix options (mkHost [] generator0 0) entryModuleName)
  = Z.of_nat (lineBreaks (sb (emitRuntimePrefix options (mkHost [] generator0 0)
                                entryModuleName))).
Proof.
  intro Hname. unfold emitRuntimePrefix.
  destruct (shebang options); destruct (type options); cbn [sb lineOffset generator];
    rewrite !lineBreaks_app, Hname; reflexivity.
Qed.

Lemma emitRuntimePrefix_generator (options : MyPackOptions) (host : EmitHost)
    (entryModuleName : str) :
  generator (emitRuntimePrefix options host entryModuleName) = generator host.
Proof. unfold emitRuntimePrefix. now destruct (shebang options). Qed.

Lemma emitModule_sb (host host' : EmitHost) (m : Module_) :
  emitModule host m = Ret host' -> sb host' = sb host ++ moduleEntry m.
Proof.
  unfold emitModule, moduleEntry. cbn [generator sb].
  destruct (generator host) as [added|]; [|now intros [= <-]].
  destruct (mapContent (source m)) as [mapText|]; [|discriminate].
  destruct (consumeMap mapText) as [mappings|]; [|discriminate].
  destruct (content m) as [moduleContent|]; [|discriminate].
  now intros [= <-].
Qed.

Lemma emitModules_sb (modules : list Module_) :
  forall host host',
    emitModules host modules = Ret host' ->
    sb host' = sb host ++ concat (map moduleEntry modules).
Proof.
  induction modules as [|m rest IH]; intros host host'; cbn [emitModules map concat].
  - intros [= <-]. now rewrite app_nil_r.
  - destruct (emitModule host m) as [host1|e|] eqn:E; try discriminate.
    intro H. apply IH in H. rewrite H, (emitModule_sb _ _ _ E). now rewrite <- app_assoc.
Qed.

Lemma emitModule_offset (host host' : EmitHost) (m : Module_) :
  emitModule host m = Ret host' ->
  generator host <> None ->
  lineBreaks (name m) = 0 ->
  lineOffset host = Z.of_nat (lineBreaks (sb host)) ->
  lineOffset host' = Z.of_nat (lineBreaks (sb host')).
Proof.
  intros H Hgen Hname Hoff. pose proof (emitModule_sb _ _ _ H) as Hsb.
  rewrite Hsb. revert H. unfold emitModule, moduleEntry. cbn [generator sb lineOffset].
  destruct (generator host) as [added|]; [|congruence].
  destruct (mapContent (source m)) as [mapText|]; [|discriminate].
  destruct (consumeMap mapText) as [mappings|]; [|discriminate].
  destruct (content m) as [moduleContent|]; [|discriminate].
  intros [= <-]. cbn [lineOffset render].
  rewrite splitOn_length, !lineBreaks_app, Hname, Hoff.
  change (lineBreaks (lit "'")) with 0.
  change (lineBreaks (lit "': (exports, myimport) => {")) with 0.
  change (lineBreaks [newline]) with 1.
  change (lineBreaks (lit "}, ")) with 0.
  lia.
Qed.

Lemma emitModules_offset (modules : list Module_) :
  forall host host',
    emitModules host modules = Ret host' ->
    generator host <> None ->
    Forall (fun m => lineBreaks (name m) = 0) modules ->
    lineOffset host = Z.of_nat (lineBreaks (sb host)) ->
    lineOffset host' = Z.of_nat (lineBreaks (sb host')).
Proof.
  induction modules as [|m rest IH]; intros host host'; cbn [emitModules].
  - now intros [= <-].
  - destruct (emitModule host m) as [host1|e|] eqn:E; try discriminate.
    intros H Hgen Hnames Hoff. inversion Hnames as [|? ? Hm Hrest]; subst.
    apply (IH host1 host' H).
    + now apply (emitModule_keeps_generator host host1 m).
    + assumption.
    + now apply (emitModule_offset host host1 m).
Qed.

(** X7. With the generator on, the line offset counts the line breaks of
    the text emitted so far: after the preamble and any number of modules,
    as long as no module name holds a line break, [lineOffset] is the number
    of line breaks of [sb]. *)
Theorem line_offset_counts_breaks (options : MyPackOptions) (entryModuleName : str)
    (modules : list Module_) (host' : EmitHost) :
  emitModules (emitRuntimePrefix options (mkHost [] (Some []) 0) entryModuleName) modules
    = Ret host' ->
  lineBreaks entryModuleName = 0 ->
  Forall (fun m => lineBreaks (name m) = 0) modules ->
  lineOffset host' = Z.of_nat (lineBreaks (sb host')).
Proof.
  intros H Hentry Hnames. apply (emitModules_offset modules _ _ H).
  - rewrite emitRuntimePrefix_generator. discriminate.
  - assumption.
  - now apply emitRuntimePrefix_offset.
Qed.

Lemma emitModules_plain (modules : list Module_) :
  forall host,
    generator host = None ->
    exists host', emitModules host modules = Ret host' /\ generator host' = None.
Proof.
  induction modules as [|m rest IH]; intros host Hgen; cbn [emitModules].
  - now exists host.
  - unfold emitModule. cbn [generator]. rewrite Hgen. now apply IH.
Qed.

(** X8. The bundle text, when it is not minified: the preamble with the
    entry module's name as the loader's argument, then one entry per module
    of the graph in its order, each keyed by the module's name and holding
    its rewritten content, then the closing line. *)
Theorem bundle_text_layout (options : MyPackOptions) (st st1 : PackerState)
    (r : MyPackResult) (written : Writes) :
  run options st = (Ret r, st1, written) ->
  success r = true ->
  minify options = false ->
  exists entryModule rest tail,
    buildModules options (getSources (files st)) = Ret (Some (entryModule :: rest))
    /\ written
       = (output options,
          sb (emitRuntimePrefix options (mkHost [] None 0) (name entryModule))
          ++ concat (map moduleEntry (entryModule :: rest))
          ++ lit "})" ++ [newline]) :: tail.
Proof.
  intros Hrun Hok Hmin.
  destruct (run_success_packed _ _ _ _ _ Hrun Hok) as (modules & bundle & Hpacked & Hfinish).
  unfold packed in Hpacked.
  destruct (negb (hasSource (getSources (files st)) (entry options))); [discriminate|].
  destruct (buildModules options (getSources (files st))) as [[ms|]| |]; try discriminate.
  destruct (checkCircularReference ms) as [[|]| |]; try discriminate.
  destruct (emitAll options ms) as [b| |] eqn:Eemit; try discriminate.
  injection Hpacked as <- <-.
  unfold emitAll in Eemit. destruct ms as [|entryModule rest]; [discriminate|].
  destruct (emitModules _ (entryModule :: rest)) as [host| |] eqn:Emods; try discriminate.
  rewrite Hmin in Eemit. cbv zeta in Eemit. injection Eemit as <-.
  apply emitModules_sb in Emods.
  exists entryModule, rest.
  unfold finish in Hfinish. cbn [fst snd] in Hfinish.
  unfold emitRuntimePostfix in Hfinish. cbn [sb generator] in Hfinish.
  rewrite Emods in Hfinish.
  rewrite (emitRuntimePrefix_sb options (mkHost [] None 0)) in Hfinish.
  rewrite <- !app_assoc in Hfinish.
  destruct (sourceMap options); [destruct (option_map _ _)|]; try discriminate;
    injection Hfinish as _ _ <-; eexists; split; reflexivity.
Qed.

(** X9. Without source maps and without minification nothing can go wrong
    after the check: a graph that was built and passed the check is always
    emitted and written, and run returns success with a change flag. *)
Theorem plain_run_succeeds (options : MyPackOptions) (st : PackerState)
    (modules : list Module_) :
  sourceMap options = false ->
  minify options = false ->
  hasSource (getSources (files st)) (entry options) = true ->
  buildModules options (getSources (files st)) = Ret (Some modules) ->
  checkCircularReference modules = Ret false ->
  exists change st1 bundleText,
    run options st = (Ret (mkResult true (Some change)), st1, [(output options, bundleText)]).
Proof.
  intros Hmap Hmin Hentry Hbuild Hcheck.
  rewrite run_packed. unfold packed, emitAll. rewrite Hentry, Hbuild, Hcheck, Hmap, Hmin.
  cbn [negb]. destruct modules as [|entryModule rest]; [discriminate|].
  destruct (emitModules_plain (entryModule :: rest)
              (emitRuntimePrefix options (mkHost [] None 0) (name entryModule)))
    as (host' & -> & Hgen).
  { now rewrite emitRuntimePrefix_generator. }
  cbv zeta. unfold finish. rewrite Hmap. cbn [fst]. now do 3 eexists.
Qed.

(** ** More on sources, requests and the result of run *)

Section RunFacts.

Variable options : MyPackOptions.

(** X10. What getSources selects: every source is a file whose name ends
    in [.js], with that file's content; its map is the content of a file named
    like it with [.map] appended, and is missing exactly when the list has no
    such file. *)
Theorem sources_are_script_files (inputFiles : list File) (s : Source) :
  In s (getSources inputFiles) ->
  endsWith (filename s) (lit ".js") = true
  /\ (exists text, jsContent s = Some text /\ In (mkFile (filename s) text) inputFiles)
  /\ (mapContent s = None
      <-> forall g, In g inputFiles -> file_name g <> filename s ++ lit ".map")
  /\ (forall mapText, mapContent s = Some mapText ->
        In (mkFile (filename s ++ lit ".map") mapText) inputFiles).
Proof.
  unfold getSources. intro Hin. apply in_map_iff in Hin as (f & <- & Hf).
  apply filter_In in Hf as [Hf Hjs]. cbn [filename jsContent mapContent].
  split; [assumption|]. split; [|split].
  - exists (file_content f). split; [reflexivity | now destruct f].
  - destruct (find _ inputFiles) as [g|] eqn:Efind; cbn [option_map].
    + split; [discriminate|]. intro Hnone. exfalso.
      apply find_some in Efind as [Hg E]. apply str_eqb_eq in E. now apply (Hnone g).
    + split; [|reflexivity]. intros _ g Hg E.
      apply (find_none _ _ Efind) in Hg. rewrite E, str_eqb_refl in Hg. discriminate.
  - intros mapText. destruct (find _ inputFiles) as [g|] eqn:Efind; cbn [option_map];
      [|discriminate].
    intros [= <-]. apply find_some in Efind as [Hg E]. apply str_eqb_eq in E.
    rewrite <- E. now destruct g.
Qed.

Lemma optionStrEqb_true (a : option str) (b : str) :
  optionStrEqb a b = true <-> a = Some b.
Proof.
  destruct a as [x|]; cbn [optionStrEqb]; [|split; discriminate].
  rewrite str_eqb_eq. split; [now intros -> | now intros [= ->]].
Qed.

(** X11. The change flag compares hashes: on success hasChange is false
    exactly when the hash kept from the run before equals the hash of this
    bundle, and true otherwise (so it is true on a first run). *)
Theorem change_flag_compares_hashes (st st1 : PackerState) (r : MyPackResult)
    (written : Writes) :
  run options st = (Ret r, st1, written) ->
  success r = true ->
  (hasChange r = Some false <-> lastHash st = lastHash st1)
  /\ (hasChange r = Some true <-> lastHash st <> lastHash st1)
  /\ lastHash st1 <> None.
Proof.
  intros Hrun Hok.
  destruct (run_success_packed _ _ _ _ _ Hrun Hok) as (modules & bundle & _ & Hfinish).
  unfold finish in Hfinish.
  assert (H : hasChange r = Some (negb (optionStrEqb (lastHash st) (sha256 (fst bundle))))
              /\ lastHash st1 = Some (sha256 (fst bundle))).
  { destruct (sourceMap options); [destruct (snd bundle)|]; try discriminate;
      injection Hfinish as <- <- _; now split. }
  destruct H as [-> ->].
  pose proof (optionStrEqb_true (lastHash st) (sha256 (fst bundle))) as Heq.
  destruct (optionStrEqb (lastHash st) (sha256 (fst bundle))); cbn [negb].
  - assert (E : lastHash st = Some (sha256 (fst bundle))) by now apply Heq.
    split; [|split]; [split; auto | split; [discriminate | congruence] | discriminate].
  - assert (E : lastHash st <> Some (sha256 (fst bundle))).
    { intro H. apply Heq in H. discriminate. }
    split; [|split]; [split; [discriminate | congruence] | split; auto | discriminate].
Qed.

(** X12. What a successful run writes: the bundle to the output path, whose
    hash it keeps, and with source maps on the map to the output path with
    [.map] appended; nothing else, in that order. *)
Theorem success_writes_bundle_then_map (st st1 : PackerState) (r : MyPackResult)
    (written : Writes) :
  run options st = (Ret r, st1, written) ->
  success r = true ->
  exists bundleText,
    lastHash st1 = Some (sha256 bundleText)
    /\ ((sourceMap options = false /\ written = [(output options, bundleText)])
        \/ (sourceMap options = true
            /\ exists mapText,
                 written = [(output options, bundleText);
                            (output options ++ lit ".map", mapText)])).
Proof.
  intros Hrun Hok.
  destruct (run_success_packed _ _ _ _ _ Hrun Hok) as (modules & bundle & _ & Hfinish).
  unfold finish in Hfinish. exists (fst bundle).
  destruct (sourceMap options); [destruct (snd bundle) as [mapText|]|]; try discriminate;
    injection Hfinish as _ <- <-; cbn [lastHash]; (split; [reflexivity|]).
  - right. split; [reflexivity|]. now exists mapText.
  - left. now split.
Qed.

Lemma run_success_stored (st st1 : PackerState) (r : MyPackResult) (written : Writes) :
  run options st = (Ret r, st1, written) ->
  success r = true ->
  exists modules,
    buildModules options (getSources (files st)) = Ret (Some modules)
    /\ lastModules st1 = Some (map clearModule modules)
    /\ files st1 = match cleanupFiles options with
                   | Some false => files st
                   | _ => cleanupMemoryFile modules (files st)
                   end.
Proof.
  intros Hrun Hok.
  destruct (run_success_packed _ _ _ _ _ Hrun Hok) as (modules & bundle & Hpacked & Hfinish).
  exists modules. split.
  - unfold packed in Hpacked.
    destruct (negb (hasSource (getSources (files st)) (entry options))); [discriminate|].
    destruct (buildModules options (getSources (files st))) as [[ms|]| |];
      try discriminate.
    destruct (checkCircularReference ms) as [[|]| |]; try discriminate.
    destruct (emitAll options ms) as [b| |]; try discriminate.
    now injection Hpacked as <- _.
  - unfold finish in Hfinish.
    destruct (sourceMap options); [destruct (snd bundle)|]; try discriminate;
      injection Hfinish as _ <- _; now split.
Qed.

(** X13. What a successful run keeps of the modules: the graph it built,
    module by module with the same names, files, requests and hashes, and
    with the rewritten content, the source text and the map text cleared. *)
Theorem stored_modules_are_cleared (st st1 : PackerState) (r : MyPackResult)
    (written : Writes) :
  run options st = (Ret r, st1, written) ->
  success r = true ->
  exists modules stored,
    buildModules options (getSources (files st)) = Ret (Some modules)
    /\ lastModules st1 = Some stored
    /\ Forall2 (fun m kept =>
                  name kept = name m /\ fileOf kept = fileOf m
                  /\ requests kept = requests m /\ hash kept = hash m
                  /\ content kept = None /\ jsContent (source kept) = None
                  /\ mapContent (source kept) = None) modules stored.
Proof.
  intros Hrun Hok.
  destruct (run_success_stored _ _ _ _ Hrun Hok) as (modules & Hbuild & Hstored & _).
  exists modules, (map clearModule modules). repeat split; try assumption.
  clear. induction modules as [|m rest IH]; cbn [map]; constructor; [|assumption].
  now repeat split.
Qed.

(** X14. The caller's file list after a successful run: it is untouched
    when cleanupFiles is false; otherwise it only loses files, and never a
    file of a stored module or the map of one. *)
Theorem file_list_after_success (st st1 : PackerState) (r : MyPackResult)
    (written : Writes) :
  run options st = (Ret r, st1, written) ->
  success r = true ->
  (cleanupFiles options = Some false -> files st1 = files st)
  /\ incl (files st1) (files st)
  /\ (forall stored m f,
        lastModules st1 = Some stored -> In m stored -> In f (files st) ->
        file_name f = fileOf m \/ file_name f = fileOf m ++ lit ".map" ->
        In f (files st1)).
Proof.
  intros Hrun Hok.
  destruct (run_success_stored _ _ _ _ Hrun Hok) as (modules & _ & Hstored & Hfiles).
  rewrite Hfiles. split; [|split].
  - now intros ->.
  - destruct (cleanupFiles options) as [[|]|]; try apply incl_refl;
      rewrite cleanupMemoryFile_filter; apply incl_filter.
  - intros stored m f Hst Hm Hf Hname. rewrite Hstored in Hst. injection Hst as <-.
    assert (Hkept : keptName modules (file_name f) = true).
    { rewrite <- keptName_cleared.
      destruct (keptName_file _ m Hm) as [H1 H2]. destruct Hname as [-> | ->]; assumption. }
    destruct (cleanupFiles options) as [[|]|]; try assumption;
      rewrite cleanupMemoryFile_filter; apply filter_In; now split.
Qed.

(** X15. An entry that is not a script is never found: when no file of the
    list has the entry's name and a name ending in [.js], run returns success
    false, changes nothing and writes nothing. *)
Theorem entry_must_be_script_file (st : PackerState) :
  (forall f, In f (files st) -> file_name f = entry options ->
     endsWith (file_name f) (lit ".js") = false) ->
  run options st = (Ret (mkResult false None), st, []).
Proof.
  intro Hnone. rewrite run_packed. unfold packed.
  destruct (hasSource (getSources (files st)) (entry options)) eqn:E; [|reflexivity].
  apply hasSource_getSources in E as (g & Hg & Hjs & Hname).
  rewrite (Hnone g Hg Hname) in Hjs. discriminate.
Qed.

End RunFacts.

(** ** More on rewriting and reporting *)

Section RewriteFacts.

Variable options : MyPackOptions.
Variable sources : list Source.

Lemma exec_occurs (jsText : str) (lastIndex matchIndex : nat) (request : str) :
  exec jsText lastIndex = Some (matchIndex, request) -> Occurs requireOpen jsText.
Proof.
  intro H. apply exec_Some in H as (_ & [tail Htail] & _ & _).
  exists (firstn matchIndex jsText), (request ++ requireClose ++ tail).
  rewrite <- (firstn_skipn matchIndex jsText) at 1. rewrite Htail.
  unfold loadCall. now rewrite <- !app_assoc.
Qed.

(** X16. A source without the opening of a load call is taken as it is:
    when the text [require(] followed by a double quote occurs nowhere in
    it, its module has no requests and the source text as content. *)
Theorem source_without_load_call_is_kept (src : Source) (jsText : str) :
  jsContent src = Some jsText ->
  ~ Occurs requireOpen jsText ->
  processModule options sources src
  = Ret (Some (mkModule (moduleNameOf options (filename src)) src []
                 (Some jsText) (sha256 jsText))).
Proof.
  intros Hjs Hnone. unfold processModule. rewrite Hjs. cbn [findRequests].
  destruct (exec jsText 0) as [[matchIndex request]|] eqn:E.
  - exfalso. apply Hnone. now apply exec_occurs in E.
  - reflexivity.
Qed.

Lemma isRequestChar_not_newline (c : ascii) :
  isRequestChar c = true -> Ascii.eqb newline c = false.
Proof.
  intro H. destruct (Ascii.eqb newline c) eqn:E; [|reflexivity].
  apply Ascii.eqb_eq in E. subst c. discriminate.
Qed.

Lemma takeWhile_plain (s : str) : lineBreaks (takeWhile isRequestChar s) = 0.
Proof.
  unfold lineBreaks. induction s as [|c s IH]; cbn [takeWhile]; [reflexivity|].
  destruct (isRequestChar c) eqn:E; [|reflexivity].
  cbn [filter]. now rewrite (isRequestChar_not_newline c E).
Qed.

Lemma matchHere_plain (s request : str) :
  matchHere s = Some request -> lineBreaks request = 0.
Proof.
  unfold matchHere.
  destruct (stripPrefix requireOpen s) as [[|c rest]|]; try discriminate.
  destruct (Ascii.eqb c dot) eqn:Edot; try discriminate.
  destruct (stripPrefix requireClose (dropWhile isRequestChar rest)); try discriminate.
  intros [= <-]. apply Ascii.eqb_eq in Edot. subst c.
  change (dot :: takeWhile isRequestChar rest) with ([dot] ++ takeWhile isRequestChar rest).
  now rewrite lineBreaks_app, takeWhile_plain.
Qed.

Lemma execFrom_plain (s : str) :
  forall position matchIndex request,
    execFrom s position = Some (matchIndex, request) -> lineBreaks request = 0.
Proof.
  induction s as [|c s IH]; intros position matchIndex request; cbn [execFrom].
  - destruct (matchHere []) eqn:E; [|discriminate].
    intros [= _ <-]. now apply matchHere_plain in E.
  - destruct (matchHere (c :: s)) eqn:E.
    + intros [= _ <-]. now apply matchHere_plain in E.
    + apply IH.
Qed.

Lemma findRequests_plain (sourceFilename jsText : str) :
  forall budget lastIndex found reqs,
    findRequests options sources budget sourceFilename jsText lastIndex found
      = Ret (Some reqs) ->
    Forall (fun r => lineBreaks (raw r) = 0) found ->
    Forall (fun r => lineBreaks (raw r) = 0) reqs.
Proof.
  induction budget as [|budget IH]; intros lastIndex found reqs; cbn [findRequests];
    [discriminate|].
  destruct (exec jsText lastIndex) as [[matchIndex request]|] eqn:Eexec;
    [|now intros [= <-]].
  destruct (requiredFileName sources _) as [requiredFile|]; [|discriminate].
  intros H Hfound. apply (IH _ _ _ H). apply Forall_app. split; [assumption|].
  constructor; [|constructor]. cbn [raw].
  unfold exec in Eexec. destruct (length jsText <? lastIndex); [discriminate|].
  now apply execFrom_plain in Eexec.
Qed.

Lemma rewritten_breaks :
  forall off original reqs rewritten,
    Rewritten off original reqs rewritten ->
    Forall (fun r => lineBreaks (raw r) = 0) reqs ->
    Forall (fun r => lineBreaks (resolvedModuleName r) = 0) reqs ->
    lineBreaks rewritten = lineBreaks original.
Proof.
  induction 1 as [|off before r rest original rewritten Hidx _ IH]; intros Hraw Hname;
    [reflexivity|].
  inversion Hraw as [|? ? Hr Hraw']; subst. inversion Hname as [|? ? Hn Hname']; subst.
  unfold loadCall, importCall. rewrite !lineBreaks_app, Hr, Hn, (IH Hraw' Hname').
  reflexivity.
Qed.

(** X17. Rewriting keeps the lines: as long as no resolved module name
    holds a line break, the content of a module has as many line breaks as
    the text of its source, so a mapping's line is still the line of its
    code. *)
Theorem rewriting_keeps_line_count (src : Source) (m : Module_) (jsText rewritten : str) :
  processModule options sources src = Ret (Some m) ->
  jsContent src = Some jsText ->
  content m = Some rewritten ->
  Forall (fun r => lineBreaks (resolvedModuleName r) = 0) (requests m) ->
  lineBreaks rewritten = lineBreaks jsText.
Proof.
  intros Hproc Hjs Hcontent Hnames.
  pose proof (processModule_spec options sources src m Hproc)
    as (jsText' & rewritten' & Hjs' & Hcontent' & Hrel & _).
  rewrite Hjs in Hjs'. injection Hjs' as <-.
  rewrite Hcontent in Hcontent'. injection Hcontent' as <-.
  apply (rewritten_breaks _ _ _ _ Hrel); [|assumption].
  unfold processModule in Hproc. rewrite Hjs in Hproc.
  destruct (findRequests options sources (S (length jsText)) (filename src) jsText 0 [])
    as [[reqs|]| |] eqn:Efind; try discriminate.
  injection Hproc as <-. cbn [requests].
  apply (findRequests_plain _ _ _ _ _ _ Efind). constructor.
Qed.

Lemma filter_none {A : Type} (p : A -> bool) (l : list A) :
  (forall x, In x l -> p x = false) -> filter p l = [].
Proof.
  induction l as [|x l IH]; intro H; cbn [filter]; [reflexivity|].
  rewrite (H x (or_introl eq_refl)). apply IH. intros y Hy. apply H. now right.
Qed.

Lemma same_file_same_module (modules : list Module_) (a b : Module_) :
  buildModules options sources = Ret (Some modules) ->
  In a modules -> In b modules -> fileOf a = fileOf b -> a = b.
Proof.
  intros Hbuild Ha Hb Hfile.
  pose proof (buildModules_graph _ _ _ Hbuild) as [_ Hall].
  destruct (Hall a Ha) as [[Hfa Hpa] _]. destruct (Hall b Hb) as [[Hfb Hpb] _].
  rewrite Hfile in Hfa. rewrite Hfa in Hfb. injection Hfb as Hsrc.
  rewrite Hsrc in Hpa. congruence.
Qed.

(** *** The report *)

Lemma existsb_sameFile (l : list Module_) (x : Module_) :
  existsb (fun p => sameFile p x) l = true <-> exists p, In p l /\ fileOf p = fileOf x.
Proof.
  rewrite existsb_exists. unfold sameFile, fileOf.
  split; intros (p & Hp & E); exists p; (split; [assumption|]); now apply str_eqb_eq.
Qed.

Lemma existsb_sameFile_false (l : list Module_) (x : Module_) :
  existsb (fun p => sameFile p x) l = false <-> ~ exists p, In p l /\ fileOf p = fileOf x.
Proof.
  rewrite <- existsb_sameFile. destruct (existsb _ l); split; congruence.
Qed.

Lemma addedModules_In (stored modules : list Module_) (m : Module_) :
  In m (addedModules stored modules)
  <-> In m modules /\ ~ (exists p, In p stored /\ fileOf p = fileOf m).
Proof.
  unfold addedModules. rewrite filter_In, negb_true_iff, existsb_sameFile_false.
  reflexivity.
Qed.

Lemma removedModules_In (stored modules : list Module_) (m : Module_) :
  In m (removedModules stored modules)
  <-> In m stored /\ ~ (exists n, In n modules /\ fileOf n = fileOf m).
Proof.
  unfold removedModules. rewrite filter_In, negb_true_iff, existsb_sameFile_false.
  reflexivity.
Qed.

Lemma updatedModules_In (stored modules : list Module_) (m : Module_) :
  (forall a b, In a stored -> In b stored -> fileOf a = fileOf b -> hash a = hash b) ->
  In m (updatedModules stored modules)
  <-> In m modules /\ exists p, In p stored /\ fileOf p = fileOf m /\ hash p <> hash m.
Proof.
  intro Hsame. unfold updatedModules. split.
  - intro H. apply in_map_iff in H as ([n previousModule] & Hfst & Hpair).
    cbn [fst] in Hfst. subst n.
    apply filter_In in Hpair as [Hpair Hdiff]. cbn [fst snd] in Hdiff.
    apply in_map_iff in Hpair as (n & Hn & Hin).
    assert (n = m) by congruence. subst n.
    assert (Hprev : find (fun p => sameFile p m) stored = previousModule) by congruence.
    subst previousModule. split; [assumption|].
    destruct (find (fun p => sameFile p m) stored) as [p|] eqn:Efind; [|discriminate].
    apply find_some in Efind as [Hp E]. apply str_eqb_eq in E.
    exists p. repeat split; try assumption.
    unfold hashDiffers in Hdiff. apply negb_true_iff, str_eqb_neq in Hdiff. congruence.
  - intros [Hm (p & Hp & Hfile & Hhash)]. apply in_map_iff.
    destruct (find (fun q => sameFile q m) stored) as [q|] eqn:Efind.
    + exists (m, Some q). split; [reflexivity|]. apply filter_In. split.
      * apply in_map_iff. exists m. split; [now rewrite Efind | assumption].
      * cbn [fst snd]. apply find_some in Efind as [Hq E]. apply str_eqb_eq in E.
        unfold hashDiffers. apply negb_true_iff, str_eqb_neq.
        assert (Hq' : hash q = hash p)
          by (apply Hsame; [assumption | assumption | unfold fileOf in *; congruence]).
        congruence.
    + exfalso. apply (find_none _ _ Efind) in Hp. unfold sameFile in Hp.
      unfold fileOf in Hfile. rewrite Hfile, str_eqb_refl in Hp. discriminate.
Qed.

Lemma updatedModules_incl (stored modules : list Module_) (m : Module_) :
  In m (updatedModules stored modules) -> In m modules.
Proof.
  unfold updatedModules. intro H.
  apply in_map_iff in H as ([n previousModule] & Hfst & Hpair). cbn [fst] in Hfst. subst n.
  apply filter_In in Hpair as [Hpair _].
  apply in_map_iff in Hpair as (n & Hn & Hin). congruence.
Qed.

(** A loop over modules that all have their content logs one line for each
    and throws nothing. *)
Lemma logWithSize_lines (line : Module_ -> nat -> LogLine) (modules : list Module_) :
  Forall (fun n => content n <> None) modules ->
  exists lines,
    logWithSize line modules = (lines, None)
    /\ forall x,
         In x lines
         <-> exists m text,
               In m modules /\ content m = Some text /\ x = line m (length text).
Proof.
  induction 1 as [|m rest Hm _ (lines & Hlog & Hlines)]; cbn [logWithSize].
  - exists []. split; [reflexivity|]. intro x. split; [intros [] | now intros (? & ? & [] & _)].
  - destruct (content m) as [text|] eqn:Etext; [|congruence]. rewrite Hlog.
    eexists. split; [reflexivity|]. intro x. cbn [In]. rewrite Hlines. split.
    + intros [<- | (m' & text' & Hin & Hc & ->)].
      * exists m, text. repeat split; [now left | assumption].
      * exists m', text'. repeat split; [now right | assumption].
    + intros (m' & text' & [<- | Hin] & Hc & ->).
      * left. congruence.
      * right. now exists m', text'.
Qed.

(** A loop that comes to a module without content throws a TypeError. *)
Lemma logWithSize_throws (line : Module_ -> nat -> LogLine) (modules : list Module_)
    (n : Module_) :
  In n modules -> content n = None ->
  snd (logWithSize line modules) = Some TypeError.
Proof.
  induction modules as [|m rest IH]; intros Hin Hnone; [destruct Hin|].
  cbn [logWithSize]. destruct (content m) as [text|] eqn:Etext; [|reflexivity].
  destruct Hin as [-> | Hin]; [congruence|].
  specialize (IH Hin Hnone). now destruct (logWithSize line rest).
Qed.

Lemma logWithSize_thrown (line : Module_ -> nat -> LogLine) (modules : list Module_) :
  snd (logWithSize line modules) = None \/ snd (logWithSize line modules) = Some TypeError.
Proof.
  induction modules as [|m rest IH]; cbn [logWithSize]; [now left|].
  destruct (content m); [|now right]. now destruct (logWithSize line rest).
Qed.

(** Clearing the stored modules does not disturb the report: a graph
    compared with its own stored copy gives no added, updated or removed
    line, only the summary. *)
Lemma report_of_same_graph_is_summary (modules : list Module_) (assetSize : nat) :
  buildModules options sources = Ret (Some modules) ->
  printResult options (Some (map clearModule modules)) assetSize modules
  = ([Completed assetSize], None).
Proof.
  intro Hbuild. unfold printResult. destruct (printModules options); [|reflexivity].
  assert (Hadded : addedModules (map clearModule modules) modules = []).
  { apply filter_none. intros n Hn. apply negb_false_iff, existsb_exists.
    exists (clearModule n). split; [now apply in_map | apply str_eqb_refl]. }
  assert (Hremoved : removedModules (map clearModule modules) modules = []).
  { apply filter_none. intros p Hp. apply in_map_iff in Hp as (n & <- & Hn).
    apply negb_false_iff, existsb_exists. exists n. split; [assumption | apply str_eqb_refl]. }
  assert (Hupdated : updatedModules (map clearModule modules) modules = []).
  { unfold updatedModules. rewrite filter_none; [reflexivity|].
    intros pair Hpair. apply in_map_iff in Hpair as (n & <- & Hn).
    cbn [fst snd]. destruct (find _ (map clearModule modules)) as [p|] eqn:Efind;
      [|reflexivity].
    apply find_some in Efind as [Hp Hsame]. apply in_map_iff in Hp as (n' & <- & Hn').
    apply str_eqb_eq in Hsame. cbn in Hsame.
    rewrite (same_file_same_module modules n' n Hbuild Hn' Hn Hsame).
    unfold hashDiffers. cbn [clearModule hash]. now rewrite str_eqb_refl. }
  now rewrite Hadded, Hremoved, Hupdated.
Qed.

Lemma occursb_here (text s after : str) :
  stripPrefix text s = Some after -> occursb text s = true.
Proof. intro H. destruct s; cbn [occursb]; now rewrite H. Qed.

Lemma Occurs_occursb (text s : str) : Occurs text s -> occursb text s = true.
Proof.
  intros (before & after & ->). induction before as [|c before IH]; cbn [List.app].
  - apply (occursb_here text _ after). now apply stripPrefix_Some.
  - cbn [occursb]. destruct (stripPrefix text (c :: before ++ text ++ after));
      [reflexivity | assumption].
Qed.

Lemma Reaches_has_request (modules : list Module_) (a b : Module_) :
  Reaches modules a b -> requests a <> [].
Proof.
  intros H Hnone.
  assert (Hreq : exists t, Requests modules a t) by (inversion H; subst; eauto).
  destruct Hreq as (t & r & Hr & _). rewrite Hnone in Hr. destruct Hr.
Qed.

(** X18. The report of [printResult] with printModules on, against a
    stored list in which modules of one file have one hash. When every module
    of the graph has its content, nothing is thrown, and a module is reported
    as added (with the length of its content) exactly when no stored module
    has its file, as updated exactly when a stored module of its file has
    another hash, and a stored module as removed exactly when no module of
    the graph has its file. A module of the graph whose content is null, and
    that is added or updated in this sense, makes the report throw a
    TypeError. *)
Theorem report_compares_by_file (stored modules : list Module_) (assetSize : nat) :
  printModules options = true ->
  (forall a b, In a stored -> In b stored -> fileOf a = fileOf b -> hash a = hash b) ->
  (Forall (fun n => content n <> None) modules ->
   exists lines,
     printResult options (Some stored) assetSize modules = (lines, None)
     /\ forall m,
          (forall size,
              In (Added m size) lines
              <-> In m modules
                  /\ (exists text, content m = Some text /\ size = length text)
                  /\ ~ (exists p, In p stored /\ fileOf p = fileOf m))
          /\ (forall size,
                 In (Updated m size) lines
                 <-> In m modules
                     /\ (exists text, content m = Some text /\ size = length text)
                     /\ exists p, In p stored /\ fileOf p = fileOf m /\ hash p <> hash m)
          /\ (In (Removed m) lines
              <-> In m stored /\ ~ (exists n, In n modules /\ fileOf n = fileOf m)))
  /\ (forall n,
        In n modules -> content n = None ->
        ~ (exists p, In p stored /\ fileOf p = fileOf n)
        \/ (exists p, In p stored /\ fileOf p = fileOf n /\ hash p <> hash n) ->
        snd (printResult options (Some stored) assetSize modules) = Some TypeError).
Proof.
  intros Hprint Hsame. unfold printResult. rewrite Hprint. split.
  - intro Hall. rewrite Forall_forall in Hall.
    destruct (logWithSize_lines Added (addedModules stored modules))
      as (added & Hadded & Hlines).
    { apply Forall_forall. intros n Hn. apply addedModules_In in Hn as [Hn _].
      now apply Hall. }
    destruct (logWithSize_lines Updated (updatedModules stored modules))
      as (updated & Hupdated & Hlines').
    { apply Forall_forall. intros n Hn. apply updatedModules_incl in Hn. now apply Hall. }
    rewrite Hadded, Hupdated. eexists. split; [reflexivity|].
    intro m. split; [|split].
    + intro size. cbn [In]. rewrite !in_app_iff, Hlines, Hlines', in_map_iff. split.
      * intros [H | [(m' & text & Hin & Hc & E) | [(m' & text & _ & _ & E)
                                                  | (m' & E & _)]]];
          try discriminate.
        injection E as -> ->. apply addedModules_In in Hin as [Hin Hnone].
        split; [assumption|]. split; [now exists text | assumption].
      * intros (Hin & (text & Hc & ->) & Hnone). right. left. exists m, text.
        split; [now apply addedModules_In | now split].
    + intro size. cbn [In]. rewrite !in_app_iff, Hlines, Hlines', in_map_iff. split.
      * intros [H | [(m' & text & _ & _ & E) | [(m' & text & Hin & Hc & E)
                                                | (m' & E & _)]]];
          try discriminate.
        injection E as -> ->. apply (updatedModules_In _ _ _ Hsame) in Hin as [Hin Hp].
        split; [assumption|]. split; [now exists text | assumption].
      * intros (Hin & (text & Hc & ->) & Hp). right. right. left. exists m, text.
        split; [now apply (updatedModules_In _ _ _ Hsame) | now split].
    + cbn [In]. rewrite !in_app_iff, Hlines, Hlines', in_map_iff. split.
      * intros [H | [(m' & text & _ & _ & E) | [(m' & text & _ & _ & E)
                                                | (m' & E & Hin)]]];
          try discriminate.
        injection E as ->. now apply removedModules_In.
      * intro H. right. right. right. exists m. split; [reflexivity|].
        now apply removedModules_In.
  - intros n Hn Hnone Hreported.
    pose proof (logWithSize_thrown Added (addedModules stored modules)) as Hthrown.
    destruct Hreported as [Hfresh | Hchanged].
    + pose proof (logWithSize_throws Added (addedModules stored modules) n
                    (proj2 (addedModules_In stored modules n) (conj Hn Hfresh)) Hnone) as Ht.
      destruct (logWithSize Added (addedModules stored modules)) as [added [e|]];
        cbn [snd] in *; congruence.
    + pose proof (logWithSize_throws Updated (updatedModules stored modules) n
                    (proj2 (updatedModules_In stored modules n Hsame) (conj Hn Hchanged))
                    Hnone) as Ht.
      destruct (logWithSize Added (addedModules stored modules)) as [added [e|]];
        cbn [snd] in *; [destruct Hthrown; congruence|].
      destruct (logWithSize Updated (updatedModules stored modules)) as [updated [e|]];
        cbn [snd] in *; congruence.
Qed.

Lemma buildLoop_files (budget : nat) :
  forall queue moduleIndex modules result,
    buildLoop options sources budget queue moduleIndex modules = Ret (Some result) ->
    map fileOf modules = firstn moduleIndex queue ->
    NoDup queue ->
    (forall m, In m result -> NoDup (map resolvedFileName (requests m))) ->
    NoDup (map fileOf result).
Proof.
  induction budget as [|budget IH]; intros queue moduleIndex modules result;
    cbn [buildLoop]; destruct (nth_error queue moduleIndex) as [f|] eqn:Enth;
    try discriminate.
  - intros [= <-] Hfiles Hnodup _. apply nth_error_None in Enth.
    rewrite Hfiles, firstn_all2; assumption.
  - destruct (findSource sources f) as [src|] eqn:Efind; [|discriminate].
    destruct (processModule options sources src) as [[m|]| |] eqn:Eproc; try discriminate.
    intros Hloop Hfiles Hnodup Hrequests.
    assert (Hlt : moduleIndex < length queue) by (apply nth_error_Some; congruence).
    pose proof (buildLoop_extends _ _ _ _ _ _ _ Hloop) as [rest Hrest].
    assert (Hm : In m result).
    { rewrite Hrest. apply in_or_app. left. apply in_or_app. right. now left. }
    apply (IH _ _ _ _ Hloop).
    + rewrite map_app, firstn_app, Hfiles.
      replace (S moduleIndex - length queue) with 0 by lia.
      rewrite firstn_0, app_nil_r, (firstn_succ_nth _ _ _ Enth).
      cbn [map]. unfold fileOf. rewrite (processModule_source _ _ _ _ Eproc).
      now apply findSource_Some in Efind as [_ ->].
    + apply NoDup_app.
      * assumption.
      * apply NoDup_filter. now apply Hrequests.
      * intros x Hx Hnew. now apply newFileNames_spec in Hnew as [_ Hfresh].
    + assumption.
  - intros [= <-] Hfiles Hnodup _. apply nth_error_None in Enth.
    rewrite Hfiles, firstn_all2; assumption.
Qed.

(** X19. One module per file, as long as no module requests the same file
    twice: when the targets of the requests of each module of the graph are
    pairwise distinct, so are the files of the modules. *)
Theorem graph_files_are_distinct (modules : list Module_) :
  buildModules options sources = Ret (Some modules) ->
  (forall m, In m modules -> NoDup (map resolvedFileName (requests m))) ->
  NoDup (map fileOf modules).
Proof.
  intros Hbuild Hrequests.
  apply (buildLoop_files _ _ _ _ _ Hbuild); [reflexivity | | assumption].
  constructor; [intros [] | constructor].
Qed.

End RewriteFacts.

(** ** Graphs on which the lookup by name is the lookup by file *)

(** The graph that is built is coherent as long as the relative path of each
    of its files keeps the extension and no two of its files get one
    name. *)
Lemma buildModules_coherent (options : MyPackOptions) (sources : list Source)
    (modules : list Module_) :
  buildModules options sources = Ret (Some modules) ->
  (forall m, In m modules ->
     endsWith (Path.relative cwd (Path.dirname (entry options)) (fileOf m)) (lit ".js")
     = true) ->
  (forall a b, In a modules -> In b modules -> name a = name b -> fileOf a = fileOf b) ->
  Coherent modules.
Proof.
  intros Hbuild Hjs Hnames. split; [|split].
  - intros a b Ha Hb E. apply (same_file_same_module options sources modules); try assumption.
    now apply Hnames.
  - intros a b Ha Hb E. now apply (same_file_same_module options sources modules).
  - intros m r Hm Hr.
    pose proof (buildModules_graph _ _ _ Hbuild) as [_ Hall].
    destruct (Hall m Hm) as [[_ Hproc] Hreq].
    apply Hreq in Hr as Hfile. apply in_map_iff in Hfile as (m' & Hfile & Hm').
    destruct (Hall m' Hm') as [[_ Hproc'] _].
    apply processModule_name in Hproc'.
    apply processModule_spec in Hproc as (_ & _ & _ & _ & _ & Hres).
    rewrite Forall_forall in Hres. destruct (Hres r Hr) as (_ & _ & _ & Hname).
    exists m'. split; [assumption|]. split; [assumption|].
    rewrite Hproc', Hname, <- Hfile.
    unfold moduleNameOf, requiredModuleNameOf, entryDirectory.
    fold (fileOf m'). now rewrite (Hjs m' Hm').
Qed.

(** On such a graph a circle of files makes run fail, change nothing and
    write no file. *)
Lemma circular_files_fail (options : MyPackOptions) (st : PackerState)
    (modules : list Module_) :
  hasSource (getSources (files st)) (entry options) = true ->
  buildModules options (getSources (files st)) = Ret (Some modules) ->
  (forall m, In m modules ->
     endsWith (Path.relative cwd (Path.dirname (entry options)) (fileOf m)) (lit ".js")
     = true) ->
  (forall a b, In a modules -> In b modules -> name a = name b -> fileOf a = fileOf b) ->
  HasFileCycle modules ->
  run options st = (Ret (mkResult false None), st, []).
Proof.
  intros Hentry Hbuild Hjs Hnames Hcycle.
  pose proof (buildModules_coherent options _ modules Hbuild Hjs Hnames) as Hco.
  apply (circular_reference_fails options st modules Hentry Hbuild).
  - now apply Coherent_Closed.
  - now apply HasCycle_by_file.
Qed.

End MyPacker.

(** ** The theorems at concrete inputs *)

Module Checks.

Import Examples.

Local Abbreviation build entryName inputFiles :=
  (buildModules workingDirectory digest (options entryName false) (getSources inputFiles)).

Local Abbreviation runOn entryName withSourceMap inputFiles :=
  (run workingDirectory digest consume serialize minifier false
     (options entryName withSourceMap) (start inputFiles)).

(** The host as [run] gives it to the first module: two lines of preamble. *)
Local Abbreviation firstHost :=
  (emitRuntimePrefix (options "/e.js" true) (mkHost [] (Some []) 0) (lit "e")).

(** C1: the directory module is named [lib/], not [lib]. *)
Lemma directory_module_name_counterexample :
  builtNames (build "/e.js" libFiles) = Some [lit "e"; lit "lib/"]
  /\ requestedNames (build "/e.js" libFiles) = Some [lit "lib/"]
  /\ builtNames (build "/e.js" libFiles) <> Some [lit "e"; lit "lib"].
Proof. vm_compute. repeat split. discriminate. Qed.

Lemma module_name_rule_witness :
  exists m,
    processModule workingDirectory digest (options "/e.js" false) (getSources libFiles)
      (mkSource (lit "/lib/index.js") (Some []) None) = Ret (Some m)
    /\ NameRule (lit "lib/index.js") (name m)
    /\ name m = lit "lib/".
Proof.
  eexists. split; [vm_compute; reflexivity|]. split; [|reflexivity].
  exact (proj1 (module_name_rule workingDirectory digest (options "/e.js" false)
                  (getSources libFiles) (mkSource (lit "/lib/index.js") (Some []) None)
                  _ eq_refl)).
Defined.



Lemma unresolved_request_fails_witness :
  runOn "/e.js" false missingFiles
  = (Ret (mkResult false None), start missingFiles, [])
  /\ exists m,
       processModule workingDirectory digest (options "/e.js" false)
         (getSources scenarioFiles)
         (toSource scenarioFiles
            (mkFile (lit "/e.js") (lit "var x = " ++ requireOf "./a.js" ++ lit " x();")))
       = Ret (Some m)
       /\ exists r,
            In r (requests m) /\ index r = 8 /\ raw r = lit "./a.js"
            /\ FirstKnown (getSources scenarioFiles)
                 (candidates workingDirectory (lit "/e.js") (lit "./a.js"))
                 (resolvedFileName r).
Proof.
  split.
  - refine (proj2 (proj2 (proj2
              (unresolved_request_fails workingDirectory digest consume serialize minifier
                 false (options "/e.js" false) (start missingFiles) (lit "/e.js")
                 (toSource missingFiles (mkFile (lit "/e.js") (requireOf "./missing.js")))
                 (requireOf "./missing.js") 0 (lit "./missing.js") _ _ _ _))) _).
    + apply Reached_entry.
    + vm_compute. reflexivity.
    + reflexivity.
    + split; [exists (lit "/missing.js") | exists []]; split; reflexivity.
    + repeat constructor.
  - eexists. split; [vm_compute; reflexivity|].
    refine (proj1 (proj2
              (unresolved_request_fails workingDirectory digest consume serialize minifier
                 false (options "/e.js" false) (start scenarioFiles) (lit "/e.js")
                 (toSource scenarioFiles
                    (mkFile (lit "/e.js")
                       (lit "var x = " ++ requireOf "./a.js" ++ lit " x();")))
                 (lit "var x = " ++ requireOf "./a.js" ++ lit " x();") 8 (lit "./a.js")
                 _ _ _ _)) _ eq_refl).
    + apply Reached_entry.
    + vm_compute. reflexivity.
    + reflexivity.
    + split; [exists (lit "/a.js"); split; reflexivity | exists (lit " x();"); reflexivity].
Defined.

Lemma run_failure_leaves_state_witness :
  runOn "/e.js" false missingFiles = (Ret (mkResult false None), start missingFiles, [])
  /\ (lastHash (start missingFiles) = lastHash (start missingFiles)
      /\ lastModules (start missingFiles) = lastModules (start missingFiles)
      /\ files (start missingFiles) = files (start missingFiles)
      /\ (@nil (str * str)) = []
      /\ hasChange (mkResult false None) = None).
Proof.
  split; [vm_compute; reflexivity|].
  apply (run_failure_leaves_state workingDirectory digest consume serialize minifier false
           (options "/e.js" false) (start missingFiles) (start missingFiles)
           (mkResult false None) []).
  - vm_compute. reflexivity.
  - reflexivity.
Defined.

Lemma circular_reference_fails_witness :
  exists modules,
    build "/a.js" cycleFiles = Ret (Some modules)
    /\ checkCircularReference modules = Ret true
    /\ runOn "/a.js" false cycleFiles
       = (Ret (mkResult false None), start cycleFiles, []).
Proof.
  eexists. split; [vm_compute; reflexivity|].
  apply (circular_reference_fails workingDirectory digest consume serialize minifier false
           (options "/a.js" false) (start cycleFiles)).
  - vm_compute. reflexivity.
  - vm_compute. reflexivity.
  - intros m r [<- | [<- | []]] [<- | []]; vm_compute; discriminate.
  - eexists. eexists. split; [reflexivity|]. split; [left; reflexivity|].
    eapply Reaches_more.
    + eexists. split; [left; reflexivity | vm_compute; reflexivity].
    + apply Reaches_one. eexists. split; [left; reflexivity | vm_compute; reflexivity].
Defined.

(** C6: two lines precede the first module, and its first mapping is put on
    line 4, not on line 1 - 1 + 2 + 1. *)
Lemma remap_offset_counterexample :
  lineOffset firstHost = 2%Z
  /\ emittedLines (emitModule workingDirectory consume firstHost mappedModule) = Some [4%Z]
  /\ emittedLines (emitModule workingDirectory consume firstHost mappedModule)
     <> Some [(generatedLine oneMapping - generatedLine oneMapping
               + lineOffset firstHost + 1)%Z].
Proof. vm_compute. repeat split. discriminate. Qed.

Lemma emitModule_remaps_witness :
  exists host' emitted,
    emitModule workingDirectory consume firstHost mappedModule = Ret host'
    /\ generator host' = Some ([] ++ emitted)
    /\ Forall2 (Reemitted (generatedLine oneMapping) (lineOffset firstHost) 2)
         [oneMapping] emitted
    /\ lineOffset host'
       = (lineOffset firstHost + 1
          + (Z.of_nat (length (splitOn newline (lit "var x = 1;"))) - 1))%Z.
Proof.
  apply (emitModule_remaps workingDirectory consume firstHost mappedModule []
           (lit "{}") oneMapping [] (lit "var x = 1;")); reflexivity.
Defined.

Lemma repeated_run_unchanged_witness :
  exists st1 written,
    runOn "/e.js" true mappedFiles = (Ret (mkResult true (Some true)), st1, written)
    /\ files st1 = [ mkFile (lit "/e.js") (lit "var x = 1;");
                     mkFile (lit "/e.js.map") (lit "{}") ]
    /\ (exists bundleText rest,
          written = (lit "/out.js", bundleText) :: rest
          /\ lastHash st1 = Some (digest bundleText))
    /\ run workingDirectory digest consume serialize minifier false
         (options "/e.js" true) st1
       = (Ret (mkResult true (Some false)), st1, written).
Proof.
  do 2 eexists. split; [vm_compute; reflexivity|]. split; [reflexivity|].
  match goal with
  | |- context [run _ _ _ _ _ _ _ ?st1 = (_, _, ?w)] =>
      destruct (repeated_run_unchanged workingDirectory digest consume serialize minifier
                  false (options "/e.js" true) (start mappedFiles) st1 (Some true) w)
        as ((modules & bundle & rest & _ & Hw & Hhash) & Hrun & _)
  end.
  - vm_compute. reflexivity.
  - split; [|assumption]. exists (fst bundle), rest. now split.
Defined.

End Checks.

(** ** The further theorems at concrete inputs *)

Module MoreChecks.

Import Examples.

Local Abbreviation build entryName inputFiles :=
  (buildModules workingDirectory digest (options entryName false) (getSources inputFiles)).

Local Abbreviation runWith opts st :=
  (run workingDirectory digest consume serialize minifier false opts st).

Local Abbreviation runOn entryName withSourceMap inputFiles :=
  (runWith (options entryName withSourceMap) (start inputFiles)).

Local Abbreviation resultOf outcome := (fst (fst outcome)).
Local Abbreviation stateOf outcome := (snd (fst outcome)).
Local Abbreviation writtenOf outcome := (snd outcome).

Lemma circular_report_is_sound_witness :
  exists modules,
    build "/a.js" cycleFiles = Ret (Some modules)
    /\ (checkCircularReference modules = Ret true <-> HasFileCycle modules)
    /\ HasFileCycle modules.
Proof.
  eexists. split; [vm_compute; reflexivity|].
  match goal with
  | |- (checkCircularReference ?l = _ <-> _) /\ _ =>
      assert (Hiff : checkCircularReference l = Ret true <-> HasFileCycle l)
  end.
  - apply circular_report_is_sound. split; [|split].
    + intros a b [<- | [<- | []]] [<- | [<- | []]] E; try reflexivity;
        vm_compute in E; discriminate.
    + intros a b [<- | [<- | []]] [<- | [<- | []]] E; try reflexivity;
        vm_compute in E; discriminate.
    + intros a r [<- | [<- | []]] [<- | []]; eexists.
      * split; [right; left; reflexivity | split; vm_compute; reflexivity].
      * split; [left; reflexivity | split; vm_compute; reflexivity].
  - split; [exact Hiff|]. apply Hiff. vm_compute. reflexivity.
Defined.

Lemma acyclic_graph_passes_witness :
  exists modules,
    build "/e.js" scenarioFiles = Ret (Some modules)
    /\ length modules = 2
    /\ checkCircularReference modules = Ret false.
Proof.
  eexists. split; [vm_compute; reflexivity|]. split; [reflexivity|].
  apply acyclic_graph_passes.
  - split; [|split].
    + intros a b [<- | [<- | []]] [<- | [<- | []]] E; try reflexivity;
        vm_compute in E; discriminate.
    + intros a b [<- | [<- | []]] [<- | [<- | []]] E; try reflexivity;
        vm_compute in E; discriminate.
    + intros a r [<- | [<- | []]] Hr; [|destruct Hr]. destruct Hr as [<- | []].
      eexists. split; [right; left; reflexivity | split; vm_compute; reflexivity].
  - discriminate.
  - apply (ranked_has_no_cycle _ (fun m => length (requests m))).
    intros a b [<- | [<- | []]] [Hb (r & Hr & Hfile)]; [|destruct Hr].
    destruct Hr as [<- | []].
    destruct Hb as [<- | [<- | []]]; [vm_compute in Hfile; discriminate|].
    cbn. lia.
Defined.

Lemma graph_is_reached_files_witness :
  exists modules,
    build "/e.js" scenarioFiles = Ret (Some modules)
    /\ (In (lit "/a.js") (map fileOf modules)
        <-> Reached workingDirectory digest (options "/e.js" false)
              (getSources scenarioFiles) (lit "/a.js")).
Proof.
  eexists. split; [vm_compute; reflexivity|].
  refine (graph_is_reached_files workingDirectory digest (options "/e.js" false)
            (getSources scenarioFiles) _ _ (lit "/a.js")).
  vm_compute. reflexivity.
Defined.

Lemma graph_building_settles_witness :
  exists outcome, build "/e.js" scenarioFiles = Ret outcome.
Proof. apply graph_building_settles. reflexivity. Defined.

Lemma unused_files_do_not_matter_witness :
  exists st1',
    runWith (options "/e.js" true)
      (mkState None None
         (filter (fun g => negb (str_eqb (file_name g) (lit "/unused.js"))) mappedFiles))
    = (resultOf (runOn "/e.js" true mappedFiles), st1',
       writtenOf (runOn "/e.js" true mappedFiles))
    /\ lastHash st1' = lastHash (stateOf (runOn "/e.js" true mappedFiles))
    /\ lastModules st1' = lastModules (stateOf (runOn "/e.js" true mappedFiles)).
Proof.
  apply (unused_files_do_not_matter workingDirectory digest consume serialize minifier
           false (options "/e.js" true)
           (fun n => negb (str_eqb n (lit "/unused.js")))
           (start mappedFiles) (stateOf (runOn "/e.js" true mappedFiles))
           (mkResult true (Some true)) (writtenOf (runOn "/e.js" true mappedFiles))
           [clearModule mappedModule]).
  - vm_compute. reflexivity.
  - reflexivity.
  - vm_compute. reflexivity.
  - intros n Hkept. destruct (str_eqb n (lit "/unused.js")) eqn:E; [|reflexivity].
    apply str_eqb_eq in E. subst n. vm_compute in Hkept. discriminate.
Defined.

Lemma line_offset_counts_breaks_witness :
  exists host',
    emitModules workingDirectory consume
      (emitRuntimePrefix (options "/e.js" true) (mkHost [] (Some []) 0) (lit "e"))
      [mappedModule] = Ret host'
    /\ lineOffset host' = Z.of_nat (lineBreaks (sb host')).
Proof.
  eexists. split; [vm_compute; reflexivity|].
  apply (line_offset_counts_breaks workingDirectory consume (options "/e.js" true)
           (lit "e") [mappedModule]).
  - vm_compute. reflexivity.
  - reflexivity.
  - repeat constructor.
Defined.

Lemma bundle_text_layout_witness :
  exists entryModule rest tail,
    build "/e.js" scenarioFiles = Ret (Some (entryModule :: rest))
    /\ writtenOf (runOn "/e.js" false scenarioFiles)
       = (lit "/out.js",
          sb (emitRuntimePrefix (options "/e.js" false) (mkHost [] None 0) (name entryModule))
          ++ concat (map moduleEntry (entryModule :: rest))
          ++ lit "})" ++ [newline]) :: tail.
Proof.
  apply (bundle_text_layout workingDirectory digest consume serialize minifier false
           (options "/e.js" false) (start scenarioFiles)
           (stateOf (runOn "/e.js" false scenarioFiles)) (mkResult true (Some true))).
  - vm_compute. reflexivity.
  - reflexivity.
  - reflexivity.
Defined.

Lemma plain_run_succeeds_witness :
  exists change st1 bundleText,
    runOn "/e.js" false scenarioFiles
    = (Ret (mkResult true (Some change)), st1, [(lit "/out.js", bundleText)]).
Proof.
  eapply (plain_run_succeeds workingDirectory digest consume serialize minifier false
            (options "/e.js" false) (start scenarioFiles)).
  - reflexivity.
  - reflexivity.
  - vm_compute. reflexivity.
  - vm_compute. reflexivity.
  - vm_compute. reflexivity.
Defined.

Lemma sources_are_script_files_witness :
  endsWith (lit "/e.js") (lit ".js") = true
  /\ (exists text, Some (lit "var x = 1;") = Some text
                  /\ In (mkFile (lit "/e.js") text) mappedFiles)
  /\ (Some (lit "{}") = None
      <-> forall g, In g mappedFiles -> file_name g <> lit "/e.js" ++ lit ".map")
  /\ (forall mapText, Some (lit "{}") = Some mapText ->
        In (mkFile (lit "/e.js" ++ lit ".map") mapText) mappedFiles).
Proof.
  apply (sources_are_script_files mappedFiles
           (mkSource (lit "/e.js") (Some (lit "var x = 1;")) (Some (lit "{}")))).
  vm_compute. left. reflexivity.
Defined.

Lemma change_flag_compares_hashes_witness :
  (Some true = Some false
   <-> @None str = lastHash (stateOf (runOn "/e.js" false scenarioFiles)))
  /\ (Some true = Some true
      <-> @None str <> lastHash (stateOf (runOn "/e.js" false scenarioFiles)))
  /\ lastHash (stateOf (runOn "/e.js" false scenarioFiles)) <> None.
Proof.
  apply (change_flag_compares_hashes workingDirectory digest consume serialize minifier
           false (options "/e.js" false) (start scenarioFiles)
           (stateOf (runOn "/e.js" false scenarioFiles)) (mkResult true (Some true))
           (writtenOf (runOn "/e.js" false scenarioFiles))).
  - vm_compute. reflexivity.
  - reflexivity.
Defined.

Lemma success_writes_bundle_then_map_witness :
  exists bundleText,
    lastHash (stateOf (runOn "/e.js" true mappedFiles)) = Some (digest bundleText)
    /\ ((true = false /\ writtenOf (runOn "/e.js" true mappedFiles)
                        = [(lit "/out.js", bundleText)])
        \/ (true = true
            /\ exists mapText,
                 writtenOf (runOn "/e.js" true mappedFiles)
                 = [(lit "/out.js", bundleText); (lit "/out.js" ++ lit ".map", mapText)])).
Proof.
  apply (success_writes_bundle_then_map workingDirectory digest consume serialize minifier
           false (options "/e.js" true) (start mappedFiles)
           (stateOf (runOn "/e.js" true mappedFiles)) (mkResult true (Some true))).
  - vm_compute. reflexivity.
  - reflexivity.
Defined.

Lemma stored_modules_are_cleared_witness :
  exists modules stored,
    build "/e.js" scenarioFiles = Ret (Some modules)
    /\ lastModules (stateOf (runOn "/e.js" false scenarioFiles)) = Some stored
    /\ Forall2 (fun m kept =>
                  name kept = name m /\ fileOf kept = fileOf m
                  /\ requests kept = requests m /\ hash kept = hash m
                  /\ content kept = None /\ jsContent (source kept) = None
                  /\ mapContent (source kept) = None) modules stored.
Proof.
  apply (stored_modules_are_cleared workingDirectory digest consume serialize minifier
           false (options "/e.js" false) (start scenarioFiles)
           (stateOf (runOn "/e.js" false scenarioFiles)) (mkResult true (Some true))
           (writtenOf (runOn "/e.js" false scenarioFiles))).
  - vm_compute. reflexivity.
  - reflexivity.
Defined.

Lemma file_list_after_success_witness :
  (@None bool = Some false
   -> files (stateOf (runOn "/e.js" true mappedFiles)) = mappedFiles)
  /\ incl (files (stateOf (runOn "/e.js" true mappedFiles))) mappedFiles
  /\ (forall stored m f,
        lastModules (stateOf (runOn "/e.js" true mappedFiles)) = Some stored ->
        In m stored -> In f mappedFiles ->
        file_name f = fileOf m \/ file_name f = fileOf m ++ lit ".map" ->
        In f (files (stateOf (runOn "/e.js" true mappedFiles)))).
Proof.
  apply (file_list_after_success workingDirectory digest consume serialize minifier
           false (options "/e.js" true) (start mappedFiles)
           (stateOf (runOn "/e.js" true mappedFiles)) (mkResult true (Some true))
           (writtenOf (runOn "/e.js" true mappedFiles))).
  - vm_compute. reflexivity.
  - reflexivity.
Defined.

Lemma entry_must_be_script_file_witness :
  runWith (options "/main.ts" false) (start [mkFile (lit "/main.ts") []])
  = (Ret (mkResult false None), start [mkFile (lit "/main.ts") []], []).
Proof.
  apply entry_must_be_script_file.
  intros f [<- | []] _. reflexivity.
Defined.

Lemma source_without_load_call_is_kept_witness :
  processModule workingDirectory digest (options "/e.js" false) (getSources scenarioFiles)
    (mkSource (lit "/a.js") (Some (lit "module.exports = () => 1;")) None)
  = Ret (Some (mkModule
                 (moduleNameOf workingDirectory (options "/e.js" false) (lit "/a.js"))
                 (mkSource (lit "/a.js") (Some (lit "module.exports = () => 1;")) None) []
                 (Some (lit "module.exports = () => 1;"))
                 (digest (lit "module.exports = () => 1;")))).
Proof.
  apply (source_without_load_call_is_kept workingDirectory digest (options "/e.js" false)
           (getSources scenarioFiles)
           (mkSource (lit "/a.js") (Some (lit "module.exports = () => 1;")) None)).
  - reflexivity.
  - intro H. apply Occurs_occursb in H. vm_compute in H. discriminate.
Defined.

Lemma rewriting_keeps_line_count_witness :
  lineBreaks (lit "var x = " ++ importCall (lit "a") ++ lit " x();")
  = lineBreaks (lit "var x = " ++ requireOf "./a.js" ++ lit " x();").
Proof.
  eapply (rewriting_keeps_line_count workingDirectory digest (options "/e.js" false)
            (getSources scenarioFiles)
            (mkSource (lit "/e.js")
               (Some (lit "var x = " ++ requireOf "./a.js" ++ lit " x();")) None)).
  - vm_compute. reflexivity.
  - reflexivity.
  - vm_compute. reflexivity.
  - vm_compute. repeat constructor.
Defined.

Lemma report_compares_by_file_witness :
  exists lines,
    printResult (mkOptions app (lit "/e.js") false (lit "/out.js") true false false None)
      (Some [clearModule mappedModule]) 0
      [mkModule (lit "e") (source mappedModule) [] (Some (lit "var x = 2;")) (lit "other")]
    = (lines, None)
    /\ In (Updated
             (mkModule (lit "e") (source mappedModule) [] (Some (lit "var x = 2;"))
                (lit "other")) 10) lines.
Proof.
  assert (Hsame : forall a b : Module_,
             In a [clearModule mappedModule] -> In b [clearModule mappedModule] ->
             fileOf a = fileOf b -> hash a = hash b)
    by (intros a b [<- | []] [<- | []] _; reflexivity).
  assert (Hall : Forall (fun n => content n <> None)
                   [mkModule (lit "e") (source mappedModule) []
                      (Some (lit "var x = 2;")) (lit "other")])
    by (repeat constructor; discriminate).
  destruct (proj1 (report_compares_by_file
                     (mkOptions app (lit "/e.js") false (lit "/out.js") true false
                        false None)
                     [clearModule mappedModule]
                     [mkModule (lit "e") (source mappedModule) []
                        (Some (lit "var x = 2;")) (lit "other")]
                     0 eq_refl Hsame) Hall) as (lines & Hprint & Hlines).
  exists lines. split; [exact Hprint|].
  apply (proj1 (proj2 (Hlines _))). split; [now left|]. split.
  - eexists. split; reflexivity.
  - eexists. split; [now left|]. split; [reflexivity | discriminate].
Defined.

Lemma graph_files_are_distinct_witness :
  exists modules,
    build "/e.js" scenarioFiles = Ret (Some modules)
    /\ NoDup (map fileOf modules).
Proof.
  eexists. split; [vm_compute; reflexivity|].
  apply (graph_files_are_distinct workingDirectory digest (options "/e.js" false)
           (getSources scenarioFiles)).
  - vm_compute. reflexivity.
  - intros m [<- | [<- | []]]; cbn [map requests]; repeat constructor; intros [].
Defined.

End MoreChecks.
